(** * DualDory: linkable threshold ring signatures

    A shallow embedding of the Go packages [common], [dory], [tag] and
    [threshold] of the DualDory repository, together with the properties
    of the scheme that are checked against the code.

    Conventions.
    - A Go function that can panic returns [result A]: [Ok v] for a normal
      return, [Panic msg] for a run-time panic.
    - A Go [error] return value is [error := option string]; [None] is [nil].
    - [*math.Zr] is a [big.Int]; it is modelled as a [Z], with the
      reductions modulo the group order written where the code has them.
    - The pairing library, SHA-256 and the ASN.1 encoder are external to the
      repository; they are the operations of the class [Curve], and what is
      assumed about them is the class [CurveLaws].
    - Values drawn from [rand.Reader] are explicit arguments.
    - Goroutines joined by a wait group and writing one [atomic.Value] are
      modelled by the order in which they store, an explicit schedule. *)

From Stdlib Require Import ZArith Zcong Lia List String Bool.
From Stdlib.Strings Require Import Byte.
From coqutil Require Import Z.PushPullMod.
From stdpp Require Import base option list gmap strings pretty.

Local Open Scope Z_scope.

(** ** Panics and errors *)

Inductive result (A : Type) : Type :=
| Ok (a : A)
| Panic (msg : string).
Arguments Ok {A} a.
Arguments Panic {A} msg.

Definition error : Type := option string.

#[global] Instance result_ret : MRet result := fun A a => Ok a.
#[global] Instance result_bind : MBind result := fun A B f m =>
  match m with
  | Ok a => f a
  | Panic msg => Panic msg
  end.

Definition is_Ok {A} (r : result A) : Prop := exists a, r = Ok a.

Lemma bind_Ok {A B} (m : result A) (f : A -> result B) a :
  m = Ok a -> (m ≫= f) = f a.
Proof. intros ->. reflexivity. Qed.

Lemma bind_Ok_inv {A B} (m : result A) (f : A -> result B) b :
  (m ≫= f) = Ok b -> exists a, m = Ok a /\ f a = Ok b.
Proof. destruct m; simpl; [eauto | discriminate]. Qed.

(** ** Byte strings *)

Definition bytes : Type := list byte.

Definition byte_val (b : byte) : Z := Z.of_N (Byte.to_N b).

Definition byte_of_Z (z : Z) : byte :=
  match Byte.of_N (Z.to_N (z mod 256)) with
  | Some b => b
  | None => x00
  end.

#[global] Instance byte_eq_dec : EqDecision byte.
Proof. intros a b. destruct (Byte.eqb a b) eqn:E.
  - left. apply Byte.byte_dec_bl. exact E.
  - right. intros ->. rewrite (Byte.byte_dec_lb eq_refl) in E. discriminate.
Defined.

Lemma byte_of_to_N (b : byte) : default x00 (Byte.of_N (Byte.to_N b)) = b.
Proof. rewrite Byte.of_to_N. reflexivity. Qed.

#[global] Instance byte_countable : Countable byte :=
  inj_countable' Byte.to_N (fun n => default x00 (Byte.of_N n)) byte_of_to_N.

(** Go's [s[lo:hi]] on a slice whose capacity is its length: a panic when
    the bounds are out of range. *)
Definition slice {A} (s : list A) (lo hi : nat) : result (list A) :=
  if decide (lo <= hi <= length s)%nat
  then Ok (take (hi - lo) (drop lo s))
  else Panic "slice bounds out of range".

(** Go's [s[i]]. *)
Definition index {A} (s : list A) (i : nat) : result A :=
  match s !! i with
  | Some a => Ok a
  | None => Panic "index out of range"
  end.

(** [binary.BigEndian.Uint64] and, for any length, [big.Int.SetBytes]. *)
Definition be_uint (bs : bytes) : Z :=
  fold_left (fun acc b => acc * 256 + byte_val b) bs 0.

(** ** Scalars: [math.Zr] over the BN254 group order *)

Abbreviation Zr := Z (only parsing).

Definition GroupOrder : Z :=
  21888242871839275222246405745257275088548364400416034343698204186575808495617.

Module Zr.
Definition Plus (x y : Zr) : Zr := x + y.
Definition Mul (x y : Zr) : Zr := (x * y) mod GroupOrder.
Definition Mod (x m : Zr) : Zr := x mod m.
Definition Equals (x y : Zr) : bool := x =? y.
(** [curve.ModSub(a, b, m)]: [(a - b) mod m]. *)
Definition ModSub (a b m : Zr) : Zr := (a - b) mod m.
(** [big.Int.ModInverse]: when the argument has no inverse modulo [p] the
    receiver is left unchanged. *)
Definition InvModP (x p : Zr) : Zr :=
  if Z.gcd x p =? 1 then Z.invmod x p else x.
End Zr.

(** ** Package [common]: the digest-to-field map *)

Module common.

(** [fr.Element], four 64-bit limbs, least significant first. *)
Record Element : Type := mkElement { limb0 : Z; limb1 : Z; limb2 : Z; limb3 : Z }.

Definition element_value (z : Element) : Z :=
  limb0 z + 2^64 * limb1 z + 2^128 * limb2 z + 2^192 * limb3 z.

(** [binary.BigEndian.Uint64]. *)
Definition Uint64 (b : bytes) : Z := be_uint b.

(** [bits.Sub64 x y borrow]: the difference modulo [2^64] and the borrow out. *)
Definition Sub64 (x y borrow : Z) : Z * Z :=
  ((x - y - borrow) mod 2^64, if x <? y + borrow then 1 else 0).

Definition feFrom256Bits (bs : bytes) : result Element :=
  if negb (length bs =? 32)%nat then Panic "input should be 32 bytes" else
  b0 ← slice bs 0 8;
  b1 ← slice bs 8 16;
  b2 ← slice bs 16 24;
  b3 ← slice bs 24 32;
  let z0 := Uint64 b0 in
  let z1 := Uint64 b1 in
  let z2 := Uint64 b2 in
  let z3 := Uint64 b3 in
  let z3 := z3 mod 3486998266802970665 in
  if negb ((z3 <? 3486998266802970665) || ((z3 =? 3486998266802970665) &&
           ((z2 <? 13281191951274694749) || ((z2 =? 13281191951274694749) &&
           ((z1 <? 2896914383306846353) || ((z1 =? 2896914383306846353) &&
            (z0 <? 4891460686036598785)))))))
  then
    let '(z0, b) := Sub64 z0 4891460686036598785 0 in
    let '(z1, b) := Sub64 z1 2896914383306846353 b in
    let '(z2, b) := Sub64 z2 13281191951274694749 b in
    let '(z3, _) := Sub64 z3 3486998266802970665 b in
    Ok (mkElement z0 z1 z2 z3)
  else Ok (mkElement z0 z1 z2 z3).

(** The inverse of the Montgomery radix [2^256] modulo the group order. *)
Definition RInv : Z :=
  9915499612839321149637521777990102151350674507940716049588462388200839649614.

(** gnark-crypto's [Element.ToBigIntRegular]: the limbs are read as a value in
    Montgomery form and converted out of it, that is multiplied by the inverse
    of [2^256] modulo the field order. *)
Definition ToBigIntRegular (z : Element) : Z :=
  (element_value z * RInv) mod GroupOrder.

(** mathlib's [common.BigToBytes] on a non-negative integer: 32 bytes, big
    endian. *)
Fixpoint le_bytes (k : nat) (n : Z) : bytes :=
  match k with
  | O => []
  | S k' => byte_of_Z n :: le_bytes k' (n / 256)
  end.

Definition BigToBytes (n : Z) : bytes := rev (le_bytes 32 n).

(** [curve.NewZrFromBytes]: [big.Int.SetBytes]. *)
Definition NewZrFromBytes (b : bytes) : Zr := be_uint b.

Definition FieldElementFromBytes (digest : bytes) : result Zr :=
  fe ← feFrom256Bits digest;
  let n := ToBigIntRegular fe in
  Ok (NewZrFromBytes (BigToBytes n)).

(** *** The external interface

    The operations of [math.Curves[1]] (BN254 through mathlib's gurvy driver),
    of gnark-crypto's hash to G2, of [crypto/sha256] and of [encoding/asn1]
    that the repository calls. [Pairing] is the Miller loop and [FExp] the
    final exponentiation, as in the driver; [GtOne] is the unit of the target
    group, which the code itself never names. [Equals] on group elements is
    decidable equality. The ASN.1 encoders return [None] for an encoding
    error. *)
Class Curve : Type := {
  G1 : Type;
  G2 : Type;
  Gt : Type;
  G1_eq_dec :: EqDecision G1;
  Gt_eq_dec :: EqDecision Gt;
  GenG1 : G1;
  GenG2 : G2;
  G1Add : G1 -> G1 -> G1;
  G1Sub : G1 -> G1 -> G1;
  G1Mul : G1 -> Zr -> G1;
  G1Bytes : G1 -> bytes;
  G2Add : G2 -> G2 -> G2;
  G2Mul : G2 -> Zr -> G2;
  G2Bytes : G2 -> bytes;
  GtOne : Gt;
  GtMul : Gt -> Gt -> Gt;
  GtExp : Gt -> Zr -> Gt;
  GtInverse : Gt -> Gt;
  GtBytes : Gt -> bytes;
  NewGtFromBytes : bytes -> option Gt;
  Pairing : G2 -> G1 -> Gt;
  FExp : Gt -> Gt;
  HashToG1 : bytes -> G1;
  HashToCurveG2Svdw : bytes -> bytes -> G2;
  SHA256 : bytes -> bytes;
  asn1_RawScalarProductProofElements : bytes -> bytes -> bytes -> bytes -> option bytes;
  asn1_RawProof : list (list bytes) -> list (list bytes) -> bytes -> option bytes
}.

Section CommonVectors.
Context {C : Curve}.

Definition G1v : Type := list G1.
Definition G2v : Type := list G2.

(** [e], defined alike in [common], [dory] and [threshold]. *)
Definition e (g1 : G1) (g2 : G2) : Gt := FExp (Pairing g2 g1).

Fixpoint G1v_Add (g1v g1v2 : G1v) : result G1v :=
  match g1v with
  | [] => Ok []
  | x :: xs =>
      match g1v2 with
      | [] => Panic "index out of range"
      | y :: ys => res ← G1v_Add xs ys; Ok (G1Add x y :: res)
      end
  end.

Definition G1v_Neg (g1v : G1v) : G1v :=
  let zero := G1Sub GenG1 GenG1 in
  map (fun g => G1Sub zero g) g1v.

Definition G1v_Mul (g1v : G1v) (x : Zr) : G1v := map (fun g => G1Mul g x) g1v.

Definition G1v_Bytes (g1v : G1v) : bytes := concat (map G1Bytes g1v).

(** [n] is a Go [int]; a negative [n] leaves the loop body unexecuted. *)
Definition G1v_Duplicate (g1v : G1v) (n : Z) : result G1v :=
  match g1v with
  | [g] => Ok (replicate (Z.to_nat n) g)
  | _ => Panic "length should be 1"
  end.

Fixpoint G2v_Mulv (g2v : G2v) (x : list Zr) : result G2v :=
  match g2v with
  | [] => Ok []
  | g :: gs =>
      match x with
      | [] => Panic "index out of range"
      | x0 :: xs => res ← G2v_Mulv gs xs; Ok (G2Mul g x0 :: res)
      end
  end.

Definition G2v_Duplicate (g2v : G2v) (n : Z) : result G2v :=
  match g2v with
  | [g] => Ok (replicate (Z.to_nat n) g)
  | _ => Panic "length should be 1"
  end.

Fixpoint G2v_Add (g2v g2v2 : G2v) : result G2v :=
  match g2v with
  | [] => Ok []
  | x :: xs =>
      match g2v2 with
      | [] => Panic "index out of range"
      | y :: ys => res ← G2v_Add xs ys; Ok (G2Add x y :: res)
      end
  end.

Definition G2v_Mul (g2v : G2v) (x : Zr) : G2v := map (fun g => G2Mul g x) g2v.

Definition G2v_Bytes (g2v : G2v) : bytes := concat (map G2Bytes g2v).

Definition G2v_Sum (g2v : G2v) : result G2 :=
  match g2v with
  | [] => Panic "index out of range"
  | g :: gs => Ok (fold_left G2Add gs g)
  end.

Definition InnerProd (g1v : G1v) (g2v : G2v) : result Gt :=
  if negb (length g1v =? length g2v)%nat then Panic "length mismatch" else
  match g1v, g2v with
  | [], _ | _, [] => Panic "empty vectors"
  | [a], b :: _ => Ok (e a b)
  | a :: g1r, b :: g2r =>
      let prod := Pairing b a in
      let prod := fold_left (fun prod xy => GtMul prod (Pairing (snd xy) (fst xy)))
                            (zip g1r g2r) prod in
      Ok (FExp prod)
  end.

(** [sha256.New], a sequence of [Write]s, [Sum(nil)]. *)
Definition sha256_of (writes : list bytes) : bytes := SHA256 (concat writes).

(** The bytes of the string "DualDory". *)
Definition DualDory_str : bytes := [x44; x75; x61; x6c; x44; x6f; x72; x79].

(** The package variable [h] and its accessor [H]. *)
Definition H : G1 := HashToG1 (sha256_of [DualDory_str]).

End CommonVectors.

End common.

Export common.

(** ** Package [dory] *)

Module dory.
Section Dory.
Context {C : Curve}.

Record Witness : Type := mkWitness { V1 : G1v; V2 : G2v }.

Record Commitment : Type := mkCommitment { cC : Gt; cD1 : Gt; cD2 : Gt }.

(** The [*math.Gt] fields of [ReducePP] are [nil] in [ReducePP{}]. *)
Record ReducePP : Type := mkReducePP {
  Γ1Prime : G1v;
  Γ2Prime : G2v;
  Δ1R : option Gt;
  Δ1L : option Gt;
  Δ2R : option Gt;
  Δ2L : option Gt
}.

Record PP : Type := mkPP {
  pp_digest : bytes;
  pp_ReducePP : ReducePP;
  Γ1 : G1v;
  Γ2 : G2v;
  χ : Gt
}.

Record ScalarProductProofElements : Type := mkScalarProductProofElements {
  sp_PP : option PP;
  E1 : G1v;
  E2 : G2v
}.

Record ReduceProverStep1Elements : Type := mkStep1 {
  ppDigest : bytes;
  s1_digest : bytes;
  D1L : Gt; D1R : Gt; D2L : Gt; D2R : Gt;
  s1_C : Gt; s1_D1 : Gt; s1_D2 : Gt
}.

Record ReduceProverStep2Elements : Type := mkStep2 {
  ReduceProverStep1ElementsDigest : bytes;
  Cplus : Gt;
  Cminus : Gt
}.

Record Proof : Type := mkProof {
  Step1Elements : list ReduceProverStep1Elements;
  Step2Elements : list ReduceProverStep2Elements;
  ScalarProductProofElements_ : ScalarProductProofElements;
  proof_digest : bytes
}.

(** A method call through a [nil] [*math.Gt]. *)
Definition deref (g : option Gt) : result Gt :=
  match g with
  | Some x => Ok x
  | None => Panic "nil pointer dereference"
  end.

Definition sha256Digest (inp : list bytes) : bytes := sha256_of inp.

Definition inverse (x : Zr) : Zr := Zr.InvModP x GroupOrder.

Definition mulGt (xs : list Gt) : result Gt :=
  match xs with
  | [] => Panic "index out of range"
  | x0 :: rest =>
      match NewGtFromBytes (GtBytes x0) with
      | None => Panic "NewGtFromBytes"
      | Some prod => Ok (fold_left GtMul rest prod)
      end
  end.

Definition addG1 (xs : list G1) : result G1 :=
  match xs with
  | [] => Panic "index out of range"
  | x0 :: rest => Ok (fold_left G1Add rest x0)
  end.

Definition addG2 (xs : list G2) : result G2 :=
  match xs with
  | [] => Panic "index out of range"
  | x0 :: rest => Ok (fold_left G2Add rest x0)
  end.

(** The bytes of the string "Dory". *)
Definition Dory_str : bytes := [x44; x6f; x72; x79].

Definition pseudo_seed (n i : Z) : bytes :=
  sha256Digest [Dory_str; [byte_of_Z n; byte_of_Z (Z.shiftr n 8)];
                [byte_of_Z i; byte_of_Z (Z.shiftr i 8)]].

Definition psuedoRandomG1 (n i : Z) : G1 := HashToG1 (pseudo_seed n i).

(** The library calls of [psuedoRandomG2] (hash to the curve, then a round
    trip through the byte encoding) are the one operation
    [HashToCurveG2Svdw] of the interface. *)
Definition psuedoRandomG2 (n i : Z) : G2 := HashToCurveG2Svdw (pseudo_seed n i) [].

Definition randomG1Vector (n : Z) : result G1v :=
  if n <? 0 then Panic "makeslice: len out of range"
  else Ok (map (fun i : nat => psuedoRandomG1 n (Z.of_nat i)) (seq 0 (Z.to_nat n))).

Definition randomG2Vector (n : Z) : result G2v :=
  if n <? 0 then Panic "makeslice: len out of range"
  else Ok (map (fun i : nat => psuedoRandomG2 n (Z.of_nat i)) (seq 0 (Z.to_nat n))).

Definition Commit (v1 : G1v) (v2 : G2v) (pp : PP) : result (Commitment * Witness) :=
  D1 ← InnerProd v1 (Γ2 pp);
  D2 ← InnerProd (Γ1 pp) v2;
  C0 ← InnerProd v1 v2;
  Ok (mkCommitment C0 D1 D2, mkWitness v1 v2).

Definition ReducePP_Digest (rpp : ReducePP) : result bytes :=
  d1r ← deref (Δ1R rpp);
  d1l ← deref (Δ1L rpp);
  d2r ← deref (Δ2R rpp);
  d2l ← deref (Δ2L rpp);
  Ok (sha256_of [G1v_Bytes (Γ1Prime rpp); G2v_Bytes (Γ2Prime rpp);
                 GtBytes d1r; GtBytes d1l; GtBytes d2r; GtBytes d2l]).

Definition PP_Digest (pp : PP) (prevDigest : bytes) : result bytes :=
  if (0 <? length (pp_digest pp))%nat then Ok (pp_digest pp) else
  rd ← (if negb (length (Γ1 pp) =? 1)%nat && negb (length (Γ2 pp) =? 1)%nat
        then r ← ReducePP_Digest (pp_ReducePP pp); Ok [r]
        else Ok []);
  Ok (sha256_of ((if (0 <? length prevDigest)%nat then [prevDigest] else [])
                 ++ rd ++ [GtBytes (χ pp); G1v_Bytes (Γ1 pp); G2v_Bytes (Γ2 pp)])).

(** [pp.reducePP(n)] reads only [pp.Γ1] and [pp.Γ2]. *)
Definition reducePP (g1 : G1v) (g2 : G2v) (n : Z) : result ReducePP :=
  if n =? 1 then Ok (mkReducePP [] [] None None None None) else
  let m := n ÷ 2 in
  Γ1L ← slice g1 0 (Z.to_nat m);
  Γ1R ← slice g1 (Z.to_nat m) (length g1);
  Γ2L ← slice g2 0 (Z.to_nat m);
  Γ2R ← slice g2 (Z.to_nat m) (length g2);
  Γ1Prime ← randomG1Vector m;
  Γ2Prime ← randomG2Vector m;
  Δ1L ← InnerProd Γ1L Γ2Prime;
  Δ1R ← InnerProd Γ1R Γ2Prime;
  Δ2L ← InnerProd Γ1Prime Γ2L;
  Δ2R ← InnerProd Γ1Prime Γ2R;
  Ok (mkReducePP Γ1Prime Γ2Prime (Some Δ1R) (Some Δ1L) (Some Δ2R) (Some Δ2L)).

Definition NewPublicParams (n : Z) : result PP :=
  g1 ← randomG1Vector n;
  g2 ← randomG2Vector n;
  x ← InnerProd g1 g2;
  rpp ← reducePP g1 g2 n;
  let pp := mkPP [] rpp g1 g2 x in
  d ← PP_Digest pp [];
  Ok (mkPP d rpp g1 g2 x).

Definition PP_NewPublicParams (pp : PP) (n : Z) : result PP :=
  if negb (Z.of_nat (length (Γ1 pp)) =? 2 * n) || negb (Z.of_nat (length (Γ2 pp)) =? 2 * n)
  then Panic "recursive public parameters should be twice as the public parameters it is derived from"
  else
  let g1 := Γ1Prime (pp_ReducePP pp) in
  let g2 := Γ2Prime (pp_ReducePP pp) in
  x ← InnerProd g1 g2;
  rpp ← reducePP g1 g2 n;
  let pp2 := mkPP [] rpp g1 g2 x in
  d ← PP_Digest pp2 (pp_digest pp);
  Ok (mkPP d rpp g1 g2 x).

(** The loop of [GeneratePublicParams]: [n] is halved at every iteration, so
    [fuel] iterations suffice when [n < 2 ^ fuel]; [None] is fuel exhausted. *)
Fixpoint GeneratePublicParams_loop (fuel : nat) (n : Z) (pp : PP) (res : list PP)
  : option (result (list PP)) :=
  match fuel with
  | O => None
  | S fuel' =>
      if 0 <? n then
        let res := res ++ [pp] in
        if n ÷ 2 =? 0 then Some (Ok res)
        else
          match PP_NewPublicParams pp (n ÷ 2) with
          | Panic msg => Some (Panic msg)
          | Ok pp' => GeneratePublicParams_loop fuel' (n ÷ 2) pp' res
          end
      else Some (Ok res)
  end.

(** A Go [int] is below [2^63], so 64 iterations are enough for every
    argument (see [GeneratePublicParams_loop_fuel]). *)
Definition GeneratePublicParams (n : Z) : option (result (list PP)) :=
  match NewPublicParams n with
  | Panic msg => Some (Panic msg)
  | Ok pp => GeneratePublicParams_loop 64 n pp []
  end.

Definition ScalarProductProof (pp : PP) (w : Witness) : ScalarProductProofElements :=
  mkScalarProductProofElements (Some pp) (V1 w) (V2 w).

(** [d] is the value of [randomFE()]. *)
Definition ScalarProductProofElements_Verify (sppe : ScalarProductProofElements)
    (cmt : Commitment) (d : Zr) : result error :=
  let dInv := inverse d in
  e1 ← index (E1 sppe) 0;
  pp ← (match sp_PP sppe with Some pp => Ok pp | None => Panic "nil pointer dereference" end);
  g1 ← index (Γ1 pp) 0;
  l1 ← addG1 [e1; G1Mul g1 d];
  e2 ← index (E2 sppe) 0;
  g2 ← index (Γ2 pp) 0;
  l2 ← addG2 [e2; G2Mul g2 (inverse d)];
  let leftEq := e l1 l2 in
  rightEq ← mulGt [χ pp; cC cmt; GtExp (cD2 cmt) d; GtExp (cD1 cmt) dInv];
  if decide (leftEq = rightEq) then Ok None
  else Ok (Some "proof invalid"%string).

Definition Step1_Bytes (x : ReduceProverStep1Elements) : list bytes :=
  [ppDigest x; GtBytes (D1L x); GtBytes (D1R x); GtBytes (D2L x); GtBytes (D2R x);
   GtBytes (s1_C x); GtBytes (s1_D1 x); GtBytes (s1_D2 x)].

(** [RO] has a pointer receiver: it stores the digest in the receiver. *)
Definition Step1_RO (x : ReduceProverStep1Elements) : result (ReduceProverStep1Elements * Zr) :=
  let dg := sha256Digest (Step1_Bytes x) in
  let x := mkStep1 (ppDigest x) dg (D1L x) (D1R x) (D2L x) (D2R x) (s1_C x) (s1_D1 x) (s1_D2 x) in
  β ← FieldElementFromBytes dg;
  Ok (x, β).

Definition Step2_Bytes (x : ReduceProverStep2Elements) : result (list bytes) :=
  if (length (ReduceProverStep1ElementsDigest x) =? 0)%nat
  then Panic "un-initialized ReduceProverStep1ElementsDigest"
  else Ok [GtBytes (Cplus x); GtBytes (Cminus x); ReduceProverStep1ElementsDigest x].

Definition Step2_RO (x : ReduceProverStep2Elements) : result Zr :=
  bs ← Step2_Bytes x;
  FieldElementFromBytes (sha256Digest bs).

(** The reduced commitment, computed alike by [reduce] and [verifyReduce]. *)
Definition nextCommitment (pp : PP) (commitment : Commitment) (β α : Zr)
    (D1L D1R D2L D2R Cplus Cminus : Gt) : result Commitment :=
  let inverse_α := inverse α in
  let inverse_β := inverse β in
  Cprime ← mulGt [cC commitment; χ pp; GtExp (cD2 commitment) β;
                  GtExp (cD1 commitment) inverse_β; GtExp Cplus α; GtExp Cminus inverse_α];
  Δ1L ← deref (Δ1L (pp_ReducePP pp));
  Δ1R ← deref (Δ1R (pp_ReducePP pp));
  D1prime ← mulGt [GtExp D1L α; D1R; GtExp (GtExp Δ1L α) β; GtExp Δ1R β];
  Δ2L ← deref (Δ2L (pp_ReducePP pp));
  Δ2R ← deref (Δ2R (pp_ReducePP pp));
  D2prime ← mulGt [GtExp D2L inverse_α; D2R; GtExp (GtExp Δ2L inverse_α) inverse_β;
                   GtExp Δ2R inverse_β];
  Ok (mkCommitment Cprime D1prime D2prime).

Fixpoint verifyReduce (pps : list PP) (commitment : Commitment)
    (fromProver1 : list ReduceProverStep1Elements)
    (fromProver2 : list ReduceProverStep2Elements)
    (finalProof : ScalarProductProofElements) (d : Zr) : result error :=
  match pps with
  | [] => Panic "index out of range"
  | pp :: pps' =>
      match pps' with
      | [] => ScalarProductProofElements_Verify finalProof commitment d
      | _ =>
          p1 ← index fromProver1 0;
          let step1Elements :=
            mkStep1 (pp_digest pp) [] (D1L p1) (D1R p1) (D2L p1) (D2R p1)
                    (cC commitment) (cD1 commitment) (cD2 commitment) in
          '(step1Elements, β) ← Step1_RO step1Elements;
          p2 ← index fromProver2 0;
          let step2Elements := mkStep2 (s1_digest step1Elements) (Cplus p2) (Cminus p2) in
          α ← Step2_RO step2Elements;
          next ← nextCommitment pp commitment β α
                   (D1L step1Elements) (D1R step1Elements) (D2L step1Elements)
                   (D2R step1Elements) (Cplus p2) (Cminus p2);
          verifyReduce pps' next (drop 1 fromProver1) (drop 1 fromProver2) finalProof d
      end
  end.

Definition VerifyReduce (pps : list PP) (commitment : Commitment) (proof : Proof) (d : Zr)
  : result error :=
  verifyReduce pps commitment (Step1Elements proof) (Step2Elements proof)
               (ScalarProductProofElements_ proof) d.

Fixpoint reduce (pps : list PP) (w : Witness) (commitment : Commitment)
  : result (list ReduceProverStep1Elements * list ReduceProverStep2Elements
            * ScalarProductProofElements) :=
  match pps with
  | [] => Panic "index out of range"
  | pp :: pps' =>
      let m := (length (Γ1 pp) / 2)%nat in
      let Γ1Prime := Γ1Prime (pp_ReducePP pp) in
      let Γ2Prime := Γ2Prime (pp_ReducePP pp) in
      v1L ← slice (V1 w) 0 m;
      v1R ← slice (V1 w) m (length (V1 w));
      v2L ← slice (V2 w) 0 m;
      v2R ← slice (V2 w) m (length (V2 w));
      D1L ← InnerProd v1L Γ2Prime;
      D1R ← InnerProd v1R Γ2Prime;
      D2L ← InnerProd Γ1Prime v2L;
      D2R ← InnerProd Γ1Prime v2R;
      let step1Elements :=
        mkStep1 (pp_digest pp) [] D1L D1R D2L D2R
                (cC commitment) (cD1 commitment) (cD2 commitment) in
      '(step1Elements, β) ← Step1_RO step1Elements;
      let inverse_β := inverse β in
      v1 ← G1v_Add (V1 w) (G1v_Mul (Γ1 pp) β);
      v2 ← G2v_Add (V2 w) (G2v_Mul (Γ2 pp) inverse_β);
      v1L ← slice v1 0 m;
      v1R ← slice v1 m (length v1);
      v2L ← slice v2 0 m;
      v2R ← slice v2 m (length v2);
      Cplus ← InnerProd v1L v2R;
      Cminus ← InnerProd v1R v2L;
      let step2Elements := mkStep2 (s1_digest step1Elements) Cplus Cminus in
      α ← Step2_RO step2Elements;
      let inverse_α := inverse α in
      v1prime ← G1v_Add (G1v_Mul v1L α) v1R;
      v2prime ← G2v_Add (G2v_Mul v2L inverse_α) v2R;
      let nextWitness := mkWitness v1prime v2prime in
      next ← nextCommitment pp commitment β α D1L D1R D2L D2R Cplus Cminus;
      if (m =? 1)%nat then
        pp1 ← index pps 1;
        Ok ([step1Elements], [step2Elements], ScalarProductProof pp1 nextWitness)
      else
        '(step1Aggregated, step2Aggregated, scalarProductProof) ← reduce pps' nextWitness next;
        Ok (step1Elements :: step1Aggregated, step2Elements :: step2Aggregated,
            scalarProductProof)
  end.

Definition Reduce (pps : list PP) (w : Witness) (commitment : Commitment) : result Proof :=
  '(a, b, c) ← reduce pps w commitment;
  Ok (mkProof a b c []).

Definition ScalarProductProofElements_Bytes (sppe : ScalarProductProofElements) : result bytes :=
  match asn1_RawScalarProductProofElements [] [] (G1v_Bytes (E1 sppe)) (G2v_Bytes (E2 sppe)) with
  | Some b => Ok b
  | None => Panic "asn1: marshal error"
  end.

Fixpoint Step2_Bytes_all (l : list ReduceProverStep2Elements) : result (list (list bytes)) :=
  match l with
  | [] => Ok []
  | x :: l' => b ← Step2_Bytes x; r ← Step2_Bytes_all l'; Ok (b :: r)
  end.

Definition Proof_Bytes (p : Proof) : result bytes :=
  sp ← ScalarProductProofElements_Bytes (ScalarProductProofElements_ p);
  let s1 := map Step1_Bytes (Step1Elements p) in
  s2 ← Step2_Bytes_all (Step2Elements p);
  match asn1_RawProof s1 s2 sp with
  | Some b => Ok b
  | None => Panic "asn1: marshal error"
  end.

(** [Digest] has a value receiver: the digest it computes is not kept. *)
Definition Proof_Digest (p : Proof) : result bytes :=
  if (length (proof_digest p) =? 0)%nat
  then b ← Proof_Bytes p; Ok (sha256Digest [b])
  else Ok (proof_digest p).

End Dory.
End dory.

(** ** Package [tag] *)

Module tag.
Section Tag.
Context {C : Curve}.

Record Proof : Type := mkProof { pA : G1; pB : G1; pa : Zr; pb : Zr }.

Record Witness : Type := mkWitness { R : Zr }.

Definition sha256Digest (inp : bytes) : bytes := sha256_of [inp].

Definition hashToZr (elements : list bytes) : result Zr :=
  FieldElementFromBytes (sha256_of elements).

Definition buildHashContext (A B : G1) (additionalContext : list bytes) : list bytes :=
  [G1Bytes A; G1Bytes B] ++ additionalContext.

(** [r] is the value of [curve.NewRandomZr(rand.Reader)]. *)
Definition Commit (sk : Zr) (r : Zr) : Witness * G1 :=
  let w := mkWitness r in
  let com := G1Mul GenG1 sk in
  let com := G1Add com (G1Mul H (R w)) in
  (w, com).

Definition Tag (sk : Zr) (prefix : bytes) : G1 :=
  G1Mul (HashToG1 (sha256Digest prefix)) sk.

(** [ar], [br] are the two values drawn from [rand.Reader]. *)
Definition NewProof (prefix : bytes) (sk : Zr) (w : Witness)
    (additionalContext : list bytes) (ar br : Zr) : result Proof :=
  let A := G1Mul (HashToG1 (sha256Digest prefix)) ar in
  let B := G1Mul GenG1 ar in
  let B := G1Add B (G1Mul H br) in
  let hashInput := buildHashContext A B additionalContext in
  c ← hashToZr hashInput;
  let a := Zr.Plus ar (Zr.Mul sk c) in
  let b := Zr.Plus br (Zr.Mul (R w) c) in
  Ok (mkProof A B a b).

Definition Verify (p : Proof) (tag com : G1) (prefix : bytes)
    (additionalContext : list bytes) : result error :=
  let hashInput := buildHashContext (pA p) (pB p) additionalContext in
  c ← hashToZr hashInput;
  let leftEq := G1Mul (HashToG1 (sha256Digest prefix)) (pa p) in
  let rightEq := G1Mul tag c in
  let rightEq := G1Add rightEq (pA p) in
  if negb (bool_decide (leftEq = rightEq)) then Ok (Some "tag proof mismatch"%string) else
  let leftEq := G1Mul GenG1 (pa p) in
  let leftEq := G1Add leftEq (G1Mul H (pb p)) in
  let rightEq := pB p in
  let rightEq := G1Add rightEq (G1Mul com c) in
  if negb (bool_decide (leftEq = rightEq)) then Ok (Some "commitment proof mismatch"%string) else
  Ok None.

End Tag.
End tag.

(** ** Package [threshold] *)

Module threshold.
Section Threshold.
Context {C : Curve}.

Definition PrivateKey : Type := Zr.
Definition PublicKey : Type := G1.
Definition Ring : Type := G1v.

Record PreProcessedParams : Type := mkPreProcessedParams {
  ppp_digest : bytes;
  A0Inverse : Gt;
  ppp_D : Gt;
  ppp_Γ2 : G2;
  H1 : G1v
}.

Record PublicParams : Type := mkPublicParams {
  PreProcessedParams_ : PreProcessedParams;
  DoryParams : list dory.PP
}.

(** [TagValue] is [nil] and [TagProof] is the zero value in the partial
    signature returned by [RingProof]; the other pointer fields are set
    wherever the repository builds a signature. *)
Record RingSignature : Type := mkRingSignature {
  TagProof : option tag.Proof;
  TagCommitment : G1;
  TagValue : option G1;
  DoryProof1 : dory.Proof;
  DoryProof2 : dory.Proof;
  rs_B : Gt;
  rs_Z : Zr;
  rs_Y : G1
}.

Definition hashToZr (inp : list bytes) : result Zr :=
  FieldElementFromBytes (sha256_of inp).

Definition negZr (x : Zr) : Zr := Zr.ModSub 0 x GroupOrder.

Definition sumZr (inp : list Zr) : result Zr :=
  match inp with
  | [] => Panic "index out of range"
  | x0 :: rest => Ok (Zr.Mod (fold_left Zr.Plus rest x0) GroupOrder)
  end.

(** The loop of [embedInVec]: [remaining] slots of [res] are still to be
    filled, [i] is the loop index and [a] is [a[current:]]. *)
Fixpoint embedInVec_loop (remaining i : nat) (a : list Zr) (element : Zr) (index : nat)
  : result (list Zr) :=
  match remaining with
  | O => Ok []
  | S remaining' =>
      if (i =? index)%nat then
        res ← embedInVec_loop remaining' (S i) a element index;
        Ok (element :: res)
      else
        match a with
        | [] => Panic "index out of range"
        | x :: a' =>
            res ← embedInVec_loop remaining' (S i) a' element index;
            Ok (x :: res)
        end
  end.

Definition embedInVec (a : list Zr) (element : Zr) (index : nat) : result (list Zr) :=
  embedInVec_loop (S (length a)) 0 a element index.

(** The loop of [computeY]: [ring] is [ring[i:]] and [c] is [c[cIndex:]]. *)
Fixpoint computeY_loop (ring : Ring) (i : nat) (c : list Zr) (com : G1) (skip : nat)
    (res : G1) : result G1 :=
  match ring with
  | [] => Ok res
  | pk :: ring' =>
      if (i =? skip)%nat then computeY_loop ring' (S i) c com skip res
      else
        match c with
        | [] => Panic "index out of range"
        | ck :: c' =>
            let x := G1Sub pk com in
            computeY_loop ring' (S i) c' com skip (G1Add res (G1Mul x ck))
        end
  end.

Definition computeY (y : Zr) (c : list Zr) (com : G1) (ring : Ring) (skip : nat)
  : result G1 :=
  computeY_loop ring 0 c com skip (G1Mul H y).

Fixpoint locatePK_loop (myPK : G1) (ring : Ring) (i : nat) : result (PublicKey * nat) :=
  match ring with
  | [] => Panic "PK not found within ring"
  | pk :: ring' =>
      if bool_decide (pk = myPK) then Ok (myPK, i) else locatePK_loop myPK ring' (S i)
  end.

Definition locatePK (key : PrivateKey) (ring : Ring) : result (PublicKey * nat) :=
  let myPK := G1Mul GenG1 key in
  locatePK_loop myPK ring 0.

Definition computeDigest (ppp : PreProcessedParams) (doryParams : list dory.PP)
  : result bytes :=
  last_pp ← index doryParams (length doryParams - 1);
  d ← dory.PP_Digest last_pp [];
  Ok (sha256_of [GtBytes (ppp_D ppp); GtBytes (A0Inverse ppp); G2Bytes (ppp_Γ2 ppp);
                 G1v_Bytes (H1 ppp); d]).

Definition ComputePreProcessedParams (doryParams : list dory.PP) (ring : Ring)
  : result PreProcessedParams :=
  pp ← index doryParams 0;
  A0 ← InnerProd ring (dory.Γ2 pp);
  let A0 := GtInverse A0 in
  H1 ← G1v_Duplicate [H] (Z.of_nat (length ring));
  D ← InnerProd H1 (dory.Γ2 pp);
  Γ2 ← G2v_Sum (dory.Γ2 pp);
  let ppp := mkPreProcessedParams [] A0 D Γ2 H1 in
  dg ← computeDigest ppp doryParams;
  Ok (mkPreProcessedParams dg A0 D Γ2 H1).

(** [sk] is the value of [curve.NewRandomZr(rand.Reader)]. *)
Definition KeyGen (sk : Zr) : PublicKey * PrivateKey := (G1Mul GenG1 sk, sk).

(** The value an [atomic.Value] holds after the tasks have stored in the
    order [sched]: task [i] stores when [errs !! i] is an error. *)
Definition atomic_last (sched : list nat) (errs : list error) : error :=
  fold_left (fun cur i => match errs !! i with
                          | Some (Some err) => Some err
                          | _ => cur
                          end) sched None.

Definition wrap (err : error) (msg : string) : error :=
  match err with
  | Some _ => Some msg
  | None => None
  end.

(** [d1], [d2] are the scalars drawn by the two base-case verifications;
    [sched] is the order in which the two goroutines (tasks 0 and 1) and the
    calling goroutine (task 2, the tag proof) store their error. A panic in
    any of them ends the process. *)
Definition Verify (rs : RingSignature) (pp : PublicParams) (m prefix : bytes)
    (d1 d2 : Zr) (sched : list nat) : result error :=
  let ppp := PreProcessedParams_ pp in
  let A := e (TagCommitment rs) (ppp_Γ2 ppp) in
  let A := GtMul A (A0Inverse ppp) in
  let h1zByY := G1Mul H (rs_Z rs) in
  let h1zByY := G1Sub h1zByY (rs_Y rs) in
  let C0 := e h1zByY GenG2 in
  h ← hashToZr [GtBytes A; G1Bytes (rs_Y rs); ppp_digest ppp];
  let E := e (G1Mul H h) GenG2 in
  err1 ← dory.VerifyReduce (DoryParams pp) (dory.mkCommitment C0 A (rs_B rs))
                           (DoryProof1 rs) d1;
  err2 ← dory.VerifyReduce (DoryParams pp) (dory.mkCommitment E (ppp_D ppp) (rs_B rs))
                           (DoryProof2 rs) d2;
  dg1 ← dory.Proof_Digest (DoryProof1 rs);
  dg2 ← dory.Proof_Digest (DoryProof2 rs);
  πt ← (match TagProof rs with Some p => Ok p | None => Panic "nil pointer dereference" end);
  t ← (match TagValue rs with Some t => Ok t | None => Panic "nil pointer dereference" end);
  err3 ← tag.Verify πt t (TagCommitment rs) prefix [m; dg1; dg2];
  Ok (atomic_last sched [wrap err1 "first Dory proof invalid";
                         wrap err2 "second Dory proof invalid";
                         wrap err3 "tag proof invalid"]).

(** The part of [RingProof] from the draws to the check of the sum of the
    challenges: [y] and [rand_c 0], [rand_c 1], ... are the scalars drawn
    from [rand.Reader], in the order of the draws; [A] and [digest] enter the
    hash. It returns [Y], [h], [z] and the [n] challenges. *)
Definition RingProof_challenges (key : PrivateKey) (ring : Ring) (r : Zr) (com : G1)
    (A : Gt) (digest : bytes) (y : Zr) (rand_c : nat -> Zr)
  : result (G1 * Zr * Zr * list Zr) :=
  let n := length ring in
  c ← (if (n =? 0)%nat then Panic "makeslice: len out of range"
       else Ok (map rand_c (seq 0 (n - 1))));
  '(_, pkIndex) ← locatePK key ring;
  Y ← computeY y c com ring pkIndex;
  h ← hashToZr [GtBytes A; G1Bytes Y; digest];
  s ← sumZr c;
  let cj := Zr.Plus h (negZr s) in
  let cj := Zr.Mod cj GroupOrder in
  let z := Zr.Plus y (Zr.Mul cj r) in
  let z := Zr.Mod z GroupOrder in
  c ← embedInVec c cj pkIndex;
  cSum ← sumZr c;
  if negb (Zr.Equals cSum h) then Panic "sum of c isn't h" else
  Ok (Y, h, z, c).

Definition RingProof (key : PrivateKey) (pp : PublicParams) (ring : Ring) (r : Zr)
    (com : G1) (y : Zr) (rand_c : nat -> Zr) : result RingSignature :=
  let n := length ring in
  dpp ← index (DoryParams pp) 0;
  let H1 := H1 (PreProcessedParams_ pp) in
  let D := ppp_D (PreProcessedParams_ pp) in
  let Γ2 := ppp_Γ2 (PreProcessedParams_ pp) in
  let A0Inverse := A0Inverse (PreProcessedParams_ pp) in
  let A := e com Γ2 in
  let A := GtMul A A0Inverse in
  '(Y, h, z, c) ← RingProof_challenges key ring r com A
                    (ppp_digest (PreProcessedParams_ pp)) y rand_c;
  g2n ← G2v_Duplicate [GenG2] (Z.of_nat n);
  G2c ← G2v_Mulv g2n c;
  let h1zByY := G1Mul H z in
  let h1zByY := G1Sub h1zByY Y in
  let C0 := e h1zByY GenG2 in
  let E := e (G1Mul H h) GenG2 in
  B ← InnerProd (dory.Γ1 dpp) G2c;
  let cmt1 := dory.mkCommitment C0 A B in
  comn ← G1v_Duplicate [com] (Z.of_nat n);
  w1V1 ← G1v_Add (G1v_Neg ring) comn;
  let w1 := dory.mkWitness w1V1 G2c in
  let cmt2 := dory.mkCommitment E D B in
  let w2 := dory.mkWitness H1 G2c in
  π1 ← dory.Reduce (DoryParams pp) w1 cmt1;
  π2 ← dory.Reduce (DoryParams pp) w2 cmt2;
  Ok (mkRingSignature None com None π1 π2 B z Y).

(** [r] is drawn by [tag.Commit], [y] and [rand_c] by [RingProof], [ar] and
    [br] by [tag.NewProof]. *)
Definition Sign (key : PrivateKey) (pp : PublicParams) (m prefix : bytes) (ring : Ring)
    (r y : Zr) (rand_c : nat -> Zr) (ar br : Zr) : result RingSignature :=
  let sk := key in
  let '(w, com) := tag.Commit sk r in
  σ ← RingProof key pp ring (tag.R w) com y rand_c;
  dg1 ← dory.Proof_Digest (DoryProof1 σ);
  dg2 ← dory.Proof_Digest (DoryProof2 σ);
  πt ← tag.NewProof prefix sk w [m; dg1; dg2] ar br;
  let t := tag.Tag sk prefix in
  Ok (mkRingSignature (Some πt) (TagCommitment σ) (Some t) (DoryProof1 σ) (DoryProof2 σ)
                      (rs_B σ) (rs_Z σ) (rs_Y σ)).

(** The first loop of [VerifyThresholdSignatures]: the map [tags], whose keys
    are the encodings of the tags. *)
Fixpoint collect_tags (signatures : list RingSignature) (tags : gmap bytes unit)
  : result (gmap bytes unit) :=
  match signatures with
  | [] => Ok tags
  | σ :: rest =>
      match TagValue σ with
      | None => Panic "nil pointer dereference"
      | Some t => collect_tags rest (<[G1Bytes t := tt]> tags)
      end
  end.

(** The goroutines of the second loop, one per signature, run to completion. *)
Fixpoint verify_all (signatures : list RingSignature) (i : nat) (pp : PublicParams)
    (msg prefix : bytes) (rand_d : nat -> Zr * Zr) (scheds : nat -> list nat)
  : result (list error) :=
  match signatures with
  | [] => Ok []
  | σ :: rest =>
      err ← Verify σ pp msg prefix (fst (rand_d i)) (snd (rand_d i)) (scheds i);
      errs ← verify_all rest (S i) pp msg prefix rand_d scheds;
      Ok (err :: errs)
  end.

(** [fmt.Errorf] with the two [%d] verbs. *)
Definition distinct_signers_error (distinct k : nat) : string :=
  "signature set was signed by " +:+ pretty distinct +:+ " out of " +:+ pretty k
  +:+ " distinct signers".

(** [rand_d i] and [scheds i] are the base-case scalars and the schedule of
    the verification of signature [i]; [sched] is the order in which the
    goroutines of the signatures store their error. *)
Definition VerifyThresholdSignatures (pp : PublicParams) (msg prefix : bytes)
    (signatures : list RingSignature)
    (rand_d : nat -> Zr * Zr) (scheds : nat -> list nat) (sched : list nat)
  : result error :=
  tags ← collect_tags signatures ∅;
  if negb (size tags =? length signatures)%nat
  then Ok (Some (distinct_signers_error (size tags) (length signatures)))
  else
    errs ← verify_all signatures 0 pp msg prefix rand_d scheds;
    Ok (atomic_last sched errs).

End Threshold.
End threshold.

(** ** What is assumed of the external interface

    [G1] and [G2] are groups of order [GroupOrder] written additively, with
    [G1Mul] the multiplication by an integer scalar; the target group is
    written multiplicatively, with [GtExp] the power; [e] is bilinear; the
    final exponentiation is multiplicative; a target-group element survives
    the round trip through its encoding; a SHA-256 digest has 32 bytes; the
    ASN.1 encoder does not fail on byte strings. The scalars of the program
    are non-negative integers; the laws are stated for every integer. *)
Class CurveLaws (C : Curve) : Prop := {
  G1Add_comm : forall a b : G1, G1Add a b = G1Add b a;
  G1Add_assoc : forall a b c : G1, G1Add a (G1Add b c) = G1Add (G1Add a b) c;
  G1Mul_0_l : forall a b : G1, G1Add (G1Mul a 0) b = b;
  G1Mul_1 : forall a : G1, G1Mul a 1 = a;
  G1Mul_add_r : forall (a : G1) x y, G1Mul a (x + y) = G1Add (G1Mul a x) (G1Mul a y);
  G1Mul_add_l : forall (a b : G1) x, G1Mul (G1Add a b) x = G1Add (G1Mul a x) (G1Mul b x);
  G1Mul_mul : forall (a : G1) x y, G1Mul (G1Mul a x) y = G1Mul a (x * y);
  G1Mul_order : forall (a : G1) x, G1Mul a (x mod GroupOrder) = G1Mul a x;
  G1Sub_def : forall a b : G1, G1Sub a b = G1Add a (G1Mul b (-1));
  G2Add_comm : forall a b : G2, G2Add a b = G2Add b a;
  G2Add_assoc : forall a b c : G2, G2Add a (G2Add b c) = G2Add (G2Add a b) c;
  G2Mul_0_l : forall a b : G2, G2Add (G2Mul a 0) b = b;
  G2Mul_1 : forall a : G2, G2Mul a 1 = a;
  G2Mul_add_r : forall (a : G2) x y, G2Mul a (x + y) = G2Add (G2Mul a x) (G2Mul a y);
  G2Mul_add_l : forall (a b : G2) x, G2Mul (G2Add a b) x = G2Add (G2Mul a x) (G2Mul b x);
  G2Mul_mul : forall (a : G2) x y, G2Mul (G2Mul a x) y = G2Mul a (x * y);
  G2Mul_order : forall (a : G2) x, G2Mul a (x mod GroupOrder) = G2Mul a x;
  GtMul_comm : forall u v : Gt, GtMul u v = GtMul v u;
  GtMul_assoc : forall u v w : Gt, GtMul u (GtMul v w) = GtMul (GtMul u v) w;
  GtMul_one_l : forall u : Gt, GtMul GtOne u = u;
  GtExp_0 : forall u : Gt, GtExp u 0 = GtOne;
  GtExp_1 : forall u : Gt, GtExp u 1 = u;
  GtExp_add : forall (u : Gt) x y, GtExp u (x + y) = GtMul (GtExp u x) (GtExp u y);
  GtExp_mul_base : forall (u v : Gt) x, GtExp (GtMul u v) x = GtMul (GtExp u x) (GtExp v x);
  GtExp_exp : forall (u : Gt) x y, GtExp (GtExp u x) y = GtExp u (x * y);
  GtInverse_def : forall u : Gt, GtInverse u = GtExp u (-1);
  FExp_mul : forall u v : Gt, FExp (GtMul u v) = GtMul (FExp u) (FExp v);
  e_add_l : forall (a a' : G1) (b : G2), e (G1Add a a') b = GtMul (e a b) (e a' b);
  e_add_r : forall (a : G1) (b b' : G2), e a (G2Add b b') = GtMul (e a b) (e a b');
  e_mul_l : forall (a : G1) (b : G2) x, e (G1Mul a x) b = GtExp (e a b) x;
  e_mul_r : forall (a : G1) (b : G2) x, e a (G2Mul b x) = GtExp (e a b) x;
  NewGtFromBytes_GtBytes : forall u : Gt, NewGtFromBytes (GtBytes u) = Some u;
  SHA256_length : forall m : bytes, length (SHA256 m) = 32%nat;
  asn1_RawScalarProductProofElements_ok :
    forall p1 p2 e1 e2, is_Some (asn1_RawScalarProductProofElements p1 p2 e1 e2);
  asn1_RawProof_ok : forall s1 s2 sp, is_Some (asn1_RawProof s1 s2 sp)
}.

(** ** A model of the interface

    The groups in discrete-logarithm form: an element of [G1], [G2] or [Gt]
    is its logarithm to the base of the generator, a residue modulo
    [GroupOrder], and the pairing multiplies logarithms. The hash functions
    are simple polynomial hashes. The model is used to run the program on
    concrete inputs. *)
Module Model.

Record Fq : Type := mkFq { fq_val : Z; fq_ok : (fq_val mod GroupOrder =? fq_val) = true }.

Lemma fq_reduced (x : Z) : ((x mod GroupOrder) mod GroupOrder =? x mod GroupOrder) = true.
Proof. apply Z.eqb_eq. apply Z.mod_mod. discriminate. Qed.

Definition fq (x : Z) : Fq := mkFq (x mod GroupOrder) (fq_reduced x).

Lemma Fq_eq (a b : Fq) : fq_val a = fq_val b -> a = b.
Proof.
  destruct a as [a Ha], b as [b Hb]. simpl. intros ->.
  f_equal. apply Eqdep_dec.UIP_dec. apply Bool.bool_dec.
Qed.

#[global] Instance Fq_eq_dec : EqDecision Fq.
Proof.
  intros a b. destruct (Z.eq_dec (fq_val a) (fq_val b)) as [E | N].
  - left. apply Fq_eq. exact E.
  - right. intros ->. apply N. reflexivity.
Defined.

Definition Fq_bytes (a : Fq) : bytes := BigToBytes (fq_val a).

(** A polynomial hash with a 32-byte output. *)
Definition toy_hash (m : bytes) : bytes :=
  BigToBytes (fold_left (fun acc b => (acc * 31 + byte_val b + 1) mod 1000000007) m 7).

Definition toy_encode (fields : list bytes) : bytes :=
  concat (map (fun f => byte_of_Z (Z.of_nat (length f)) :: f) fields).

#[global] Instance toy : Curve := {|
  G1 := Fq; G2 := Fq; Gt := Fq;
  GenG1 := fq 1; GenG2 := fq 1;
  G1Add a b := fq (fq_val a + fq_val b);
  G1Sub a b := fq (fq_val a - fq_val b);
  G1Mul a x := fq (fq_val a * x);
  G1Bytes := Fq_bytes;
  G2Add a b := fq (fq_val a + fq_val b);
  G2Mul a x := fq (fq_val a * x);
  G2Bytes := Fq_bytes;
  GtOne := fq 0;
  GtMul a b := fq (fq_val a + fq_val b);
  GtExp a x := fq (fq_val a * x);
  GtInverse a := fq (- fq_val a);
  GtBytes := Fq_bytes;
  NewGtFromBytes b := Some (fq (be_uint b));
  Pairing b a := fq (fq_val a * fq_val b);
  FExp a := a;
  HashToG1 m := fq (be_uint (toy_hash m) + 1);
  HashToCurveG2Svdw m dst := fq (be_uint (toy_hash (m ++ dst)) + 2);
  SHA256 := toy_hash;
  asn1_RawScalarProductProofElements p1 p2 e1 e2 := Some (toy_encode [p1; p2; e1; e2]);
  asn1_RawProof s1 s2 sp := Some (toy_encode (concat s1 ++ concat s2 ++ [sp]))
|}.

End Model.

(** * Properties *)

(** ** Byte strings and big-endian integers *)

Section Bytes.

Lemma byte_val_range (b : byte) : 0 <= byte_val b < 256.
Proof.
  unfold byte_val. pose proof (Byte.to_N_bounded b) as Hb.
  split; [apply N2Z.is_nonneg | ]. lia.
Qed.

Lemma byte_val_of_Z (z : Z) : byte_val (byte_of_Z z) = z mod 256.
Proof.
  unfold byte_val, byte_of_Z.
  assert (Hr : 0 <= z mod 256 < 256) by (apply Z.mod_pos_bound; lia).
  destruct (Byte.of_N (Z.to_N (z mod 256))) as [b | ] eqn:E.
  - apply Byte.to_of_N in E. rewrite E. lia.
  - apply Byte.of_N_None_iff in E. lia.
Qed.

Lemma be_uint_snoc (bs : bytes) (b : byte) :
  be_uint (bs ++ [b]) = be_uint bs * 256 + byte_val b.
Proof. unfold be_uint. rewrite fold_left_app. reflexivity. Qed.

Lemma be_uint_range (bs : bytes) : 0 <= be_uint bs < 256 ^ Z.of_nat (length bs).
Proof.
  induction bs as [ | b bs IH] using rev_ind.
  - unfold be_uint. simpl. lia.
  - rewrite be_uint_snoc, length_app. simpl length.
    replace (Z.of_nat (length bs + 1)) with (Z.of_nat (length bs) + 1) by lia.
    rewrite Z.pow_add_r by lia. change (256 ^ 1) with 256.
    pose proof (byte_val_range b). lia.
Qed.

Lemma length_le_bytes (k : nat) (n : Z) : length (le_bytes k n) = k.
Proof. revert n. induction k; intros n; simpl; [ | rewrite IHk]; reflexivity. Qed.

Lemma be_uint_le_bytes (k : nat) (n : Z) :
  be_uint (rev (le_bytes k n)) = n mod 256 ^ Z.of_nat k.
Proof.
  revert n. induction k as [ | k IH]; intros n.
  - simpl. rewrite Z.mod_1_r. reflexivity.
  - simpl le_bytes. simpl rev. rewrite be_uint_snoc, IH, byte_val_of_Z.
    replace (Z.of_nat (S k)) with (1 + Z.of_nat k) by lia.
    rewrite Z.pow_add_r by lia. change (256 ^ 1) with 256.
    rewrite Z.rem_mul_r by lia. lia.
Qed.

Lemma length_BigToBytes (n : Z) : length (BigToBytes n) = 32%nat.
Proof. unfold BigToBytes. rewrite length_rev. apply length_le_bytes. Qed.

Lemma NewZrFromBytes_BigToBytes' (n : Z) :
  0 <= n < 2 ^ 256 -> be_uint (BigToBytes n) = n.
Proof.
  intros Hn. unfold BigToBytes. rewrite be_uint_le_bytes.
  change (256 ^ Z.of_nat 32) with (2 ^ 256). apply Z.mod_small. exact Hn.
Qed.

Lemma NewZrFromBytes_BigToBytes (n : Z) :
  0 <= n < 2 ^ 256 -> NewZrFromBytes (BigToBytes n) = n.
Proof. apply NewZrFromBytes_BigToBytes'. Qed.

End Bytes.

(** ** The digest-to-field map *)

Section FieldElement.

Lemma slice_ok {A} (s : list A) (lo hi : nat) :
  (lo <= hi <= length s)%nat -> slice s lo hi = Ok (take (hi - lo) (drop lo s)).
Proof. intros Hb. unfold slice. destruct (decide _); [reflexivity | contradiction]. Qed.

Lemma RInv_spec : (2 ^ 256 * RInv) mod GroupOrder = 1.
Proof. vm_compute. reflexivity. Qed.

(** The 64-bit word number [i] of a digest. *)
Definition digest_word (digest : bytes) (i : nat) : Z :=
  be_uint (take 8 (drop (8 * i) digest)).

(** The integer held by the limbs that [feFrom256Bits] returns. *)
Definition digest_limbs_value (digest : bytes) : Z :=
  digest_word digest 0 + 2 ^ 64 * digest_word digest 1 + 2 ^ 128 * digest_word digest 2
  + 2 ^ 192 * (digest_word digest 3 mod 3486998266802970665).

Lemma digest_word_range (digest : bytes) (i : nat) : 0 <= digest_word digest i < 2 ^ 64.
Proof.
  unfold digest_word.
  pose proof (be_uint_range (take 8 (drop (8 * i) digest))) as Hr.
  assert (Hl : (length (take 8 (drop (8 * i) digest)) <= 8)%nat)
    by (rewrite length_take; lia).
  assert (256 ^ Z.of_nat (length (take 8 (drop (8 * i) digest))) <= 256 ^ 8)
    by (apply Z.pow_le_mono_r; lia).
  change (2 ^ 64) with (256 ^ 8). lia.
Qed.

Lemma digest_limbs_value_range (digest : bytes) :
  0 <= digest_limbs_value digest < GroupOrder.
Proof.
  unfold digest_limbs_value.
  pose proof (digest_word_range digest 0) as H0.
  pose proof (digest_word_range digest 1) as H1.
  pose proof (digest_word_range digest 2) as H2.
  assert (H3 : 0 <= digest_word digest 3 mod 3486998266802970665 < 3486998266802970665)
    by (apply Z.mod_pos_bound; lia).
  unfold GroupOrder.
  change (2 ^ 64) with 18446744073709551616 in *.
  change (2 ^ 128) with 340282366920938463463374607431768211456.
  change (2 ^ 192) with 6277101735386680763835789423207666416102355444464034512896.
  lia.
Qed.

Lemma feFrom256Bits_limbs (digest : bytes) :
  length digest = 32%nat ->
  feFrom256Bits digest =
    Ok (mkElement (digest_word digest 0) (digest_word digest 1) (digest_word digest 2)
                  (digest_word digest 3 mod 3486998266802970665)).
Proof.
  intros Hlen. unfold feFrom256Bits. rewrite Hlen. simpl negb. cbv iota.
  rewrite !slice_ok by (rewrite Hlen; lia). simpl mbind.
  assert (H3 : 0 <= digest_word digest 3 mod 3486998266802970665 < 3486998266802970665)
    by (apply Z.mod_pos_bound; lia).
  unfold Uint64.
  change (be_uint (take 8 (drop 0 digest))) with (digest_word digest 0).
  change (be_uint (take 8 (drop 8 digest))) with (digest_word digest 1).
  change (be_uint (take 8 (drop 16 digest))) with (digest_word digest 2).
  change (be_uint (take 8 (drop 24 digest))) with (digest_word digest 3).
  cbv zeta.
  destruct (Z.ltb_spec (digest_word digest 3 mod 3486998266802970665) 3486998266802970665)
    as [_ | Hge]; [ | lia].
  reflexivity.
Qed.

Lemma FieldElementFromBytes_value (digest : bytes) :
  length digest = 32%nat ->
  FieldElementFromBytes digest = Ok ((digest_limbs_value digest * RInv) mod GroupOrder).
Proof.
  intros Hlen. unfold FieldElementFromBytes. rewrite (feFrom256Bits_limbs _ Hlen).
  simpl mbind. f_equal. unfold ToBigIntRegular.
  change (element_value _) with (digest_limbs_value digest).
  apply NewZrFromBytes_BigToBytes.
  assert (0 <= (digest_limbs_value digest * RInv) mod GroupOrder < GroupOrder)
    by (apply Z.mod_pos_bound; reflexivity).
  assert (GroupOrder < 2 ^ 256) by reflexivity. lia.
Qed.

Lemma FieldElementFromBytes_range (digest : bytes) (x : Zr) :
  FieldElementFromBytes digest = Ok x -> 0 <= x < GroupOrder.
Proof.
  intros Hx. destruct (decide (length digest = 32%nat)) as [Hlen | Hlen].
  - rewrite (FieldElementFromBytes_value _ Hlen) in Hx. injection Hx as <-.
    apply Z.mod_pos_bound. reflexivity.
  - unfold FieldElementFromBytes, feFrom256Bits in Hx.
    destruct (Nat.eqb_spec (length digest) 32) as [E | _]; [contradiction | ].
    discriminate Hx.
Qed.

(** *** C6, as the code has it

    For every 32-byte digest, [feFrom256Bits] returns the limbs made of the
    four 8-byte big-endian words of the digest, the first word least
    significant, with the last word reduced modulo 3486998266802970665; their
    value is below the group order, so that the conditional subtraction is
    never taken; and [FieldElementFromBytes] is that value taken out of
    Montgomery form, i.e. multiplied by the inverse of [2^256] modulo the
    group order. *)
Theorem C6_digest_to_field (digest : bytes) :
  length digest = 32%nat ->
  (exists fe, feFrom256Bits digest = Ok fe /\
              fe = mkElement (digest_word digest 0) (digest_word digest 1)
                             (digest_word digest 2)
                             (digest_word digest 3 mod 3486998266802970665) /\
              element_value fe = digest_limbs_value digest) /\
  0 <= digest_limbs_value digest < GroupOrder /\
  FieldElementFromBytes digest = Ok ((digest_limbs_value digest * RInv) mod GroupOrder).
Proof.
  intros Hlen. split; [ | split].
  - eexists. split; [apply feFrom256Bits_limbs; exact Hlen | ]. split; reflexivity.
  - apply digest_limbs_value_range.
  - apply FieldElementFromBytes_value. exact Hlen.
Qed.

Definition digest_one : bytes := BigToBytes 1.

Lemma C6_digest_to_field_witness :
  length digest_one = 32%nat /\
  FieldElementFromBytes digest_one = Ok ((digest_limbs_value digest_one * RInv) mod GroupOrder).
Proof.
  split; [reflexivity | ].
  apply (C6_digest_to_field digest_one). reflexivity.
Defined.

(** *** C6, as the specification has it, fails

    On the 32-byte digest [00 .. 00 01], whose big-endian value is 1, the
    limbs hold [2^192] and the field element is not 1. *)
Lemma C6_counterexample :
  length digest_one = 32%nat /\
  be_uint digest_one mod GroupOrder = 1 /\
  (exists fe, feFrom256Bits digest_one = Ok fe /\ element_value fe = 2 ^ 192) /\
  FieldElementFromBytes digest_one <> Ok (be_uint digest_one mod GroupOrder).
Proof.
  split; [reflexivity | ]. split; [reflexivity | ]. split.
  - eexists. split; reflexivity.
  - vm_compute. discriminate.
Qed.

End FieldElement.

(** ** The challenges of the ring proof *)

Section Challenges.
Context {C : Curve}.
Import threshold.

Definition zsum (l : list Z) : Z := foldr Z.add 0 l.

Lemma fold_left_Plus (l : list Zr) (a : Zr) : fold_left Zr.Plus l a = a + zsum l.
Proof.
  revert a. induction l as [ | x l IH]; intros a; simpl.
  - lia.
  - rewrite IH. unfold Zr.Plus. lia.
Qed.

Lemma sumZr_Ok (l : list Zr) (s : Zr) :
  sumZr l = Ok s -> l <> [] /\ s = zsum l mod GroupOrder.
Proof.
  destruct l as [ | x l]; simpl; [discriminate | ].
  intros [= <-]. split; [discriminate | ]. rewrite fold_left_Plus. reflexivity.
Qed.

Lemma sumZr_cons (x : Zr) (l : list Zr) : sumZr (x :: l) = Ok (zsum (x :: l) mod GroupOrder).
Proof. simpl. rewrite fold_left_Plus. reflexivity. Qed.

Lemma sumZr_Panic (l : list Zr) (msg : string) :
  sumZr l = Panic msg -> msg = "index out of range"%string.
Proof. destruct l; simpl; [intros [= <-]; reflexivity | discriminate]. Qed.

Lemma embedInVec_loop_after (a : list Zr) (element : Zr) (index i : nat) :
  (index < i)%nat -> embedInVec_loop (length a) i a element index = Ok a.
Proof.
  revert i. induction a as [ | x a IH]; intros i Hi; simpl; [reflexivity | ].
  destruct (Nat.eqb_spec i index) as [-> | _]; [lia | ].
  rewrite IH by lia. reflexivity.
Qed.

Lemma embedInVec_loop_before (a : list Zr) (element : Zr) (index i : nat) :
  (i <= index)%nat ->
  embedInVec_loop (S (length a)) i a element index =
    if decide (index - i <= length a)%nat
    then Ok (take (index - i) a ++ element :: drop (index - i) a)
    else Panic "index out of range".
Proof.
  revert i. induction a as [ | x a IH]; intros i Hi.
  - simpl. destruct (Nat.eqb_spec i index) as [-> | Hne].
    + rewrite Nat.sub_diag. reflexivity.
    + destruct (decide _) as [Hle | _]; [lia | reflexivity].
  - change (embedInVec_loop (S (length (x :: a))) i (x :: a) element index)
      with (if (i =? index)%nat
            then res ← embedInVec_loop (length (x :: a)) (S i) (x :: a) element index;
                 Ok (element :: res)
            else res ← embedInVec_loop (S (length a)) (S i) a element index;
                 Ok (x :: res)).
    destruct (Nat.eqb_spec i index) as [-> | Hne].
    + rewrite embedInVec_loop_after by lia. rewrite Nat.sub_diag.
      destruct (decide _) as [_ | Hn]; [reflexivity | simpl in Hn; lia].
    + rewrite IH by lia. simpl length.
      destruct (decide (index - S i <= length a)%nat) as [Hle | Hgt];
        destruct (decide (index - i <= S (length a))%nat) as [Hle' | Hgt']; try lia.
      * replace (index - i)%nat with (S (index - S i)) by lia. reflexivity.
      * reflexivity.
Qed.

Lemma embedInVec_Ok (a : list Zr) (element : Zr) (index : nat) (res : list Zr) :
  embedInVec a element index = Ok res ->
  (index <= length a)%nat /\ res = take index a ++ element :: drop index a.
Proof.
  unfold embedInVec. rewrite embedInVec_loop_before by lia. rewrite Nat.sub_0_r.
  destruct (decide _) as [Hle | _]; [ | discriminate].
  intros [= <-]. split; [exact Hle | reflexivity].
Qed.

Lemma embedInVec_Panic (a : list Zr) (element : Zr) (index : nat) (msg : string) :
  embedInVec a element index = Panic msg -> msg = "index out of range"%string.
Proof.
  unfold embedInVec. rewrite embedInVec_loop_before by lia.
  destruct (decide _); [discriminate | intros [= <-]; reflexivity].
Qed.

Lemma zsum_app (l1 l2 : list Z) : zsum (l1 ++ l2) = zsum l1 + zsum l2.
Proof. unfold zsum. induction l1 as [ | x l1 IH]; simpl; [ | rewrite IH]; lia. Qed.

Lemma zsum_embed (a : list Zr) (element : Zr) (index : nat) :
  zsum (take index a ++ element :: drop index a) = zsum a + element.
Proof.
  rewrite zsum_app. change (zsum (element :: drop index a)) with (element + zsum (drop index a)).
  rewrite <- (take_drop index a) at 3. rewrite zsum_app. lia.
Qed.

Lemma challenge_sum_mod (a h : Z) :
  (a + (h + (0 - a mod GroupOrder) mod GroupOrder) mod GroupOrder) mod GroupOrder
  = h mod GroupOrder.
Proof.
  rewrite Zplus_mod_idemp_r. rewrite Z.add_assoc. rewrite Zplus_mod_idemp_r.
  rewrite Z.add_sub_assoc. rewrite Zminus_mod_idemp_r. f_equal. lia.
Qed.

Lemma locatePK_loop_Panic (myPK : G1) (ring : Ring) (i : nat) (msg : string) :
  locatePK_loop myPK ring i = Panic msg -> msg = "PK not found within ring"%string.
Proof.
  revert i. induction ring as [ | pk ring IH]; intros i; simpl.
  - intros [= <-]. reflexivity.
  - destruct (bool_decide _); [discriminate | apply IH].
Qed.

Lemma locatePK_loop_Ok (myPK : G1) (ring : Ring) (i : nat) (pk : G1) (j : nat) :
  locatePK_loop myPK ring i = Ok (pk, j) ->
  pk = myPK /\ (i <= j < i + length ring)%nat /\ ring !! (j - i)%nat = Some myPK.
Proof.
  revert i. induction ring as [ | pk0 ring IH]; intros i; simpl; [discriminate | ].
  destruct (bool_decide_reflect (pk0 = myPK)) as [-> | Hne].
  - intros [= <- <-]. rewrite Nat.sub_diag. split; [reflexivity | ]. split; [lia | reflexivity].
  - intros Hl. apply IH in Hl as (-> & Hr & Hl). split; [reflexivity | ]. split; [lia | ].
    replace (j - i)%nat with (S (j - S i)) by lia. exact Hl.
Qed.

Lemma computeY_loop_Panic (ring : Ring) (i : nat) (c : list Zr) (com : G1) (skip : nat)
    (res : G1) (msg : string) :
  computeY_loop ring i c com skip res = Panic msg -> msg = "index out of range"%string.
Proof.
  revert i c res. induction ring as [ | pk ring IH]; intros i c res; simpl; [discriminate | ].
  destruct (i =? skip)%nat; [apply IH | ].
  destruct c as [ | ck c]; [intros [= <-]; reflexivity | apply IH].
Qed.

Lemma FieldElementFromBytes_Panic (digest : bytes) (msg : string) :
  FieldElementFromBytes digest = Panic msg -> msg = "input should be 32 bytes"%string.
Proof.
  destruct (decide (length digest = 32%nat)) as [Hlen | Hlen].
  - rewrite (FieldElementFromBytes_value _ Hlen). discriminate.
  - unfold FieldElementFromBytes, feFrom256Bits.
    destruct (Nat.eqb_spec (length digest) 32) as [E | _]; [contradiction | ].
    simpl. intros [= <-]. reflexivity.
Qed.

Lemma challenge_cj (a h : Z) :
  Zr.Mod (Zr.Plus h (negZr (a mod GroupOrder))) GroupOrder = (h - a) mod GroupOrder.
Proof.
  unfold Zr.Mod, Zr.Plus, negZr, Zr.ModSub.
  rewrite Zplus_mod_idemp_r. rewrite Z.add_sub_assoc. rewrite Zminus_mod_idemp_r.
  f_equal. lia.
Qed.

Lemma RingProof_challenges_spec (key : PrivateKey) (ring : Ring) (r : Zr) (com : G1) (A : Gt)
    (digest : bytes) (y : Zr) (rand_c : nat -> Zr) :
  RingProof_challenges key ring r com A digest y rand_c <> Panic "sum of c isn't h" /\
  forall Y h z c,
    RingProof_challenges key ring r com A digest y rand_c = Ok (Y, h, z, c) ->
    let drawn := map rand_c (seq 0 (length ring - 1)) in
    let cj := (h - zsum drawn) mod GroupOrder in
    exists j,
      locatePK key ring = Ok (G1Mul GenG1 key, j) /\
      c = (take j drawn ++ cj :: drop j drawn) /\
      length c = length ring /\
      zsum c mod GroupOrder = h mod GroupOrder /\
      sumZr c = Ok h /\
      z = (y + (cj * r) mod GroupOrder) mod GroupOrder.
Proof.
  unfold RingProof_challenges.
  destruct (Nat.eqb_spec (length ring) 0) as [Hn0 | Hn0]; cbn [mbind result_bind];
    [split; [discriminate | intros; discriminate] | ].
  destruct (locatePK key ring) as [[pk j] | m0] eqn:Hloc; cbn [mbind result_bind];
    [ | apply locatePK_loop_Panic in Hloc; subst m0; split; [discriminate | intros; discriminate]].
  destruct (computeY _ _ _ _ _) as [Y0 | m0] eqn:HY; cbn [mbind result_bind];
    [ | apply computeY_loop_Panic in HY; subst m0; split; [discriminate | intros; discriminate]].
  destruct (hashToZr _) as [h0 | m0] eqn:Hh; cbn [mbind result_bind];
    [ | apply FieldElementFromBytes_Panic in Hh; subst m0;
        split; [discriminate | intros; discriminate]].
  destruct (sumZr _) as [s | m0] eqn:Hs; cbn [mbind result_bind];
    [ | apply sumZr_Panic in Hs; subst m0; split; [discriminate | intros; discriminate]].
  destruct (embedInVec _ _ _) as [c' | m0] eqn:Hemb; cbn [mbind result_bind];
    [ | apply embedInVec_Panic in Hemb; subst m0; split; [discriminate | intros; discriminate]].
  apply locatePK_loop_Ok in Hloc as (-> & Hj & _).
  apply FieldElementFromBytes_range in Hh.
  apply sumZr_Ok in Hs as (Hne & ->).
  rewrite challenge_cj in Hemb |- *.
  apply embedInVec_Ok in Hemb as (Hjle & ->).
  set (drawn := map rand_c (seq 0 (length ring - 1))) in *.
  set (cj := (h0 - zsum drawn) mod GroupOrder) in *.
  assert (Hsum : zsum (take j drawn ++ cj :: drop j drawn) mod GroupOrder = h0).
  { rewrite zsum_embed. subst cj. rewrite Zplus_mod_idemp_r.
    replace (zsum drawn + (h0 - zsum drawn)) with h0 by lia.
    apply Z.mod_small. exact Hh. }
  assert (Hs' : sumZr (take j drawn ++ cj :: drop j drawn) = Ok h0).
  { destruct (take j drawn ++ cj :: drop j drawn) as [ | x l] eqn:E.
    - destruct (take j drawn); discriminate E.
    - rewrite sumZr_cons. rewrite Hsum. reflexivity. }
  rewrite Hs'. cbn [mbind result_bind]. unfold Zr.Equals. rewrite Z.eqb_refl. simpl negb.
  cbv iota. split; [discriminate | ].
  intros Y h z c [= <- <- <- <-]. exists j.
  split; [reflexivity | ]. split; [reflexivity | ]. split.
  - rewrite length_app, length_take. simpl length. rewrite length_drop.
    subst drawn. rewrite length_map, length_seq in *. lia.
  - split; [rewrite Hsum; symmetry; apply Z.mod_small; exact Hh | ].
    split; [exact Hs' | reflexivity].
Qed.

(** *** C9

    In [RingProof], whatever the ring, the key and the scalars drawn, the
    branch that panics with "sum of c isn't h" is not taken; and when the
    challenges are returned, they are the drawn challenges with
    [c_j = h - sum of the drawn challenges (mod q)] spliced in at the
    signer's index [j], there are as many as ring members, and their sum,
    reduced modulo the group order as [sumZr] does, is [h]. *)
Theorem C9_challenge_sum (key : PrivateKey) (ring : Ring) (r : Zr) (com : G1) (A : Gt)
    (digest : bytes) (y : Zr) (rand_c : nat -> Zr) :
  RingProof_challenges key ring r com A digest y rand_c <> Panic "sum of c isn't h" /\
  forall Y h z c,
    RingProof_challenges key ring r com A digest y rand_c = Ok (Y, h, z, c) ->
    let drawn := map rand_c (seq 0 (length ring - 1)) in
    let cj := (h - zsum drawn) mod GroupOrder in
    exists j,
      locatePK key ring = Ok (G1Mul GenG1 key, j) /\
      c = (take j drawn ++ cj :: drop j drawn) /\
      length c = length ring /\
      zsum c mod GroupOrder = h mod GroupOrder /\
      sumZr c = Ok h /\
      z = (y + (cj * r) mod GroupOrder) mod GroupOrder.
Proof. apply RingProof_challenges_spec. Qed.

End Challenges.

(** ** Threshold verification: the distinct-signer check *)

Section ThresholdTags.
Context {C : Curve}.
Import threshold.

Lemma atomic_last_nil (sched : list nat) : atomic_last sched [] = None.
Proof.
  unfold atomic_last. induction sched as [ | i sched IH]; simpl; [reflexivity | exact IH].
Qed.

(** The encodings of the tags of a list of signatures that all carry one. *)
Fixpoint tag_encodings (signatures : list RingSignature) : option (list bytes) :=
  match signatures with
  | [] => Some []
  | σ :: rest =>
      match TagValue σ, tag_encodings rest with
      | Some t, Some encs => Some (G1Bytes t :: encs)
      | _, _ => None
      end
  end.

Lemma length_tag_encodings (signatures : list RingSignature) (encs : list bytes) :
  tag_encodings signatures = Some encs -> length encs = length signatures.
Proof.
  revert encs. induction signatures as [ | σ rest IH]; intros encs; simpl.
  - intros [= <-]. reflexivity.
  - destruct (TagValue σ); [ | discriminate].
    destruct (tag_encodings rest) as [encs' | ]; [ | discriminate].
    intros [= <-]. simpl. f_equal. apply IH. reflexivity.
Qed.

Lemma collect_tags_spec (signatures : list RingSignature) (encs : list bytes)
    (tags : gmap bytes unit) :
  tag_encodings signatures = Some encs ->
  exists tags', collect_tags signatures tags = Ok tags' /\
                dom tags' = dom tags ∪ list_to_set encs.
Proof.
  revert encs tags. induction signatures as [ | σ rest IH]; intros encs tags; simpl.
  - intros [= <-]. exists tags. split; [reflexivity | ].
    change (list_to_set [] : gset bytes) with (∅ : gset bytes).
    rewrite (right_id_L ∅ (∪)). reflexivity.
  - destruct (TagValue σ) as [t | ]; [ | discriminate].
    destruct (tag_encodings rest) as [encs' | ] eqn:E; [ | discriminate].
    intros [= <-]. destruct (IH encs' (<[G1Bytes t := tt]> tags) eq_refl) as (tags' & Hc & Hd).
    exists tags'. split; [exact Hc | ]. rewrite Hd, dom_insert_L.
    change (list_to_set (G1Bytes t :: encs') : gset bytes)
      with ({[G1Bytes t]} ∪ list_to_set encs' : gset bytes).
    rewrite (comm_L (∪) {[G1Bytes t]} (dom tags)), (assoc_L (∪)). reflexivity.
Qed.

(** The number of distinct entries of a list of encodings. *)
Definition distinct (encs : list bytes) : nat := size (list_to_set encs : gset bytes).

Lemma distinct_twice (x : bytes) : distinct [x; x] = 1%nat.
Proof.
  unfold distinct.
  change (list_to_set [x; x] : gset bytes) with ({[x]} ∪ ({[x]} ∪ ∅) : gset bytes).
  rewrite (right_id_L ∅ (∪)), (idemp_L (∪)). apply size_singleton.
Qed.

Lemma VerifyThresholdSignatures_distinct (pp : PublicParams) (msg prefix : bytes)
    (signatures : list RingSignature) (encs : list bytes)
    (rand_d : nat -> Zr * Zr) (scheds : nat -> list nat) (sched : list nat) :
  tag_encodings signatures = Some encs ->
  distinct encs <> length signatures ->
  VerifyThresholdSignatures pp msg prefix signatures rand_d scheds sched =
    Ok (Some (distinct_signers_error (distinct encs) (length signatures))).
Proof.
  intros Henc Hd. unfold VerifyThresholdSignatures.
  destruct (collect_tags_spec signatures encs ∅ Henc) as (tags & -> & Hdom).
  cbn [mbind result_bind].
  assert (Hsize : size tags = distinct encs).
  { unfold distinct. rewrite <- size_dom, Hdom, dom_empty_L, (left_id_L ∅ (∪)). reflexivity. }
  rewrite Hsize. destruct (Nat.eqb_spec (distinct encs) (length signatures)) as [E | _];
    [contradiction | reflexivity].
Qed.

(** *** C4, for signatures that carry a tag

    A list of [k] signatures whose tag encodings have [d < k] distinct
    entries is rejected with "signature set was signed by d out of k distinct
    signers", whatever the parameters, the message and the prefix; a
    signature given twice is rejected with "signature set was signed by 1 out
    of 2 distinct signers". The signatures are taken to carry a tag (a
    non-nil [TagValue]), as every signature returned by [Sign] does. *)
Theorem C4_threshold_duplicates (pp : PublicParams) (msg prefix : bytes)
    (rand_d : nat -> Zr * Zr) (scheds : nat -> list nat) (sched : list nat) :
  (forall (signatures : list RingSignature) (encs : list bytes),
     tag_encodings signatures = Some encs ->
     (distinct encs < length signatures)%nat ->
     VerifyThresholdSignatures pp msg prefix signatures rand_d scheds sched =
       Ok (Some ("signature set was signed by " +:+ pretty (distinct encs) +:+ " out of "
                 +:+ pretty (length signatures) +:+ " distinct signers"))) /\
  (forall (σ : RingSignature),
     is_Some (TagValue σ) ->
     VerifyThresholdSignatures pp msg prefix [σ; σ] rand_d scheds sched =
       Ok (Some "signature set was signed by 1 out of 2 distinct signers"%string)).
Proof.
  split.
  - intros signatures encs Henc Hlt.
    apply VerifyThresholdSignatures_distinct; [exact Henc | lia].
  - intros σ [t Ht].
    rewrite (VerifyThresholdSignatures_distinct pp msg prefix [σ; σ] [G1Bytes t; G1Bytes t]).
    + rewrite distinct_twice. reflexivity.
    + simpl. rewrite Ht. reflexivity.
    + rewrite distinct_twice. simpl length. lia.
Qed.

(** *** C10

    With no signature, [VerifyThresholdSignatures] returns [nil]. *)
Theorem C10_empty_threshold_set (pp : PublicParams) (msg prefix : bytes)
    (rand_d : nat -> Zr * Zr) (scheds : nat -> list nat) (sched : list nat) :
  VerifyThresholdSignatures pp msg prefix [] rand_d scheds sched = Ok None.
Proof.
  unfold VerifyThresholdSignatures. simpl collect_tags. cbn [mbind result_bind].
  rewrite map_size_empty. simpl. rewrite atomic_last_nil. reflexivity.
Qed.

End ThresholdTags.

(** ** The model satisfies what is assumed of the interface *)

Module ModelLaws.
Import Model.

Lemma fq_val_reduced (a : Fq) : fq_val a mod GroupOrder = fq_val a.
Proof. apply Z.eqb_eq. apply fq_ok. Qed.

Lemma fq_val_range (a : Fq) : 0 <= fq_val a < 2 ^ 256.
Proof.
  rewrite <- fq_val_reduced.
  assert (0 <= fq_val a mod GroupOrder < GroupOrder) by (apply Z.mod_pos_bound; reflexivity).
  assert (GroupOrder < 2 ^ 256) by reflexivity. lia.
Qed.

Lemma fq_fq_val (a : Fq) : fq (fq_val a) = a.
Proof. apply Fq_eq. apply fq_val_reduced. Qed.

Ltac fq_law :=
  intros;
  repeat match goal with
         | a : Fq |- _ =>
             let v := fresh "v" in
             let H := fresh "H" in
             pose proof (fq_val_reduced a) as H;
             destruct a as [v ?]; simpl fq_val in H;
             try (is_var v; revert H)
         end;
  intros;
  apply Fq_eq; simpl fq_val;
  try match goal with
      | H : ?v mod GroupOrder = ?v |- _ = ?v => rewrite <- H at 2
      end;
  Z.mod_equality.

#[global] Instance toy_laws : CurveLaws toy.
Proof.
  split; try (unfold e; simpl; fq_law).
  - intros u. change (Some (fq (be_uint (BigToBytes (fq_val u)))) = Some u).
    rewrite NewZrFromBytes_BigToBytes' by apply fq_val_range.
    rewrite fq_fq_val. reflexivity.
  - intros m. apply length_BigToBytes.
  - intros. eexists. reflexivity.
  - intros. eexists. reflexivity.
Qed.

End ModelLaws.

(** ** Equations in a module over the integers

    [G1], [G2] and the target group are modules over [Z]. An equation
    between two combinations of atoms is decided by comparing, atom by atom,
    the integer coefficients. *)

Section ZModule.
Variables (M : Type) (add : M -> M -> M) (scal : M -> Z -> M).
Hypothesis add_comm : forall a b, add a b = add b a.
Hypothesis add_assoc : forall a b c, add a (add b c) = add (add a b) c.
Hypothesis scal_0_l : forall a b, add (scal a 0) b = b.
Hypothesis scal_1 : forall a, scal a 1 = a.
Hypothesis scal_add_r : forall a x y, scal a (x + y) = add (scal a x) (scal a y).
Hypothesis scal_add_l : forall a b x, scal (add a b) x = add (scal a x) (scal b x).
Hypothesis scal_scal : forall a x y, scal (scal a x) y = scal a (x * y).

Inductive mexp : Type :=
| MAtom (i : nat)
| MAdd (a b : mexp)
| MScal (a : mexp) (k : Z).

Variable d : M.

Definition mzero : M := scal d 0.

Fixpoint mdenote (env : list M) (t : mexp) : M :=
  match t with
  | MAtom i => nth i env mzero
  | MAdd a b => add (mdenote env a) (mdenote env b)
  | MScal a k => scal (mdenote env a) k
  end.

Fixpoint mcoeff (t : mexp) (i : nat) : Z :=
  match t with
  | MAtom j => if (i =? j)%nat then 1 else 0
  | MAdd a b => mcoeff a i + mcoeff b i
  | MScal a k => mcoeff a i * k
  end.

Fixpoint lincomb (env : list M) (i : nat) (f : nat -> Z) : M :=
  match env with
  | [] => mzero
  | a :: env' => add (scal a (f i)) (lincomb env' (S i) f)
  end.

Lemma mzero_l (b : M) : add mzero b = b.
Proof. apply scal_0_l. Qed.

Lemma mzero_r (b : M) : add b mzero = b.
Proof. rewrite add_comm. apply mzero_l. Qed.

Lemma scal_0 (a : M) : scal a 0 = mzero.
Proof. rewrite <- (mzero_r (scal a 0)). apply scal_0_l. Qed.

Lemma scal_mzero (k : Z) : scal mzero k = mzero.
Proof. unfold mzero. rewrite scal_scal. reflexivity. Qed.

Lemma add_swap (a b c e : M) : add (add a b) (add c e) = add (add a c) (add b e).
Proof.
  rewrite <- (add_assoc a b), (add_assoc b c), (add_comm b c), <- (add_assoc c b),
    (add_assoc a c). reflexivity.
Qed.

Lemma lincomb_add (env : list M) (i : nat) (f g : nat -> Z) :
  lincomb env i (fun j => f j + g j) = add (lincomb env i f) (lincomb env i g).
Proof.
  revert i. induction env as [ | a env IH]; intros i; simpl.
  - rewrite mzero_l. reflexivity.
  - rewrite IH, scal_add_r. apply add_swap.
Qed.

Lemma lincomb_scal (env : list M) (i : nat) (f : nat -> Z) (k : Z) :
  lincomb env i (fun j => f j * k) = scal (lincomb env i f) k.
Proof.
  revert i. induction env as [ | a env IH]; intros i; simpl.
  - rewrite scal_mzero. reflexivity.
  - rewrite IH, scal_add_l, scal_scal. reflexivity.
Qed.

Lemma lincomb_0 (env : list M) (i : nat) (f : nat -> Z) :
  (forall j, (i <= j)%nat -> f j = 0) -> lincomb env i f = mzero.
Proof.
  revert i. induction env as [ | a env IH]; intros i Hf; simpl; [reflexivity | ].
  rewrite (Hf i) by lia. rewrite scal_0, mzero_l. apply IH. intros j Hj. apply Hf. lia.
Qed.

Lemma lincomb_atom (env : list M) (i n : nat) :
  lincomb env i (fun j => if (j =? i + n)%nat then 1 else 0) = nth n env mzero.
Proof.
  revert i n. induction env as [ | a env IH]; intros i n; simpl.
  - destruct n; reflexivity.
  - destruct n as [ | n].
    + rewrite Nat.add_0_r, Nat.eqb_refl, scal_1.
      rewrite lincomb_0; [apply mzero_r | ].
      intros j Hj. destruct (Nat.eqb_spec j i); [lia | reflexivity].
    + destruct (Nat.eqb_spec i (i + S n)); [lia | ].
      rewrite scal_0, mzero_l.
      replace (fun j : nat => if (j =? i + S n)%nat then 1 else 0)
        with (fun j : nat => if (j =? S i + n)%nat then 1 else 0); [apply IH | ].
      replace (i + S n)%nat with (S i + n)%nat by lia. reflexivity.
Qed.

Lemma lincomb_ext (env : list M) (i : nat) (f g : nat -> Z) :
  (forall j, (i <= j < i + length env)%nat -> f j = g j) -> lincomb env i f = lincomb env i g.
Proof.
  revert i. induction env as [ | a env IH]; intros i Hfg; simpl; [reflexivity | ].
  rewrite (Hfg i) by (simpl; lia). f_equal. apply IH. intros j Hj. apply Hfg. simpl. lia.
Qed.

Lemma mdenote_lincomb (env : list M) (t : mexp) :
  mdenote env t = lincomb env 0 (fun i => mcoeff t i).
Proof.
  induction t as [j | a IHa b IHb | a IHa k]; simpl.
  - symmetry. apply (lincomb_atom env 0 j).
  - rewrite IHa, IHb. symmetry. apply lincomb_add.
  - rewrite IHa. symmetry. apply lincomb_scal.
Qed.

Lemma zmodule_eq (env : list M) (t1 t2 : mexp) :
  Forall (fun i => mcoeff t1 i = mcoeff t2 i) (seq 0 (length env)) ->
  mdenote env t1 = mdenote env t2.
Proof.
  intros Hc. rewrite !mdenote_lincomb. apply lincomb_ext. intros j Hj.
  rewrite Forall_forall in Hc. apply Hc. apply elem_of_seq. lia.
Qed.

End ZModule.

Ltac zm_mem x l :=
  lazymatch l with
  | nil => constr:(false)
  | cons x _ => constr:(true)
  | cons _ ?l' => zm_mem x l'
  end.

Ltac zm_index x l :=
  lazymatch l with
  | cons x _ => constr:(O)
  | cons _ ?l' => let n := zm_index x l' in constr:(S n)
  end.

Ltac zm_atoms add scal t acc :=
  lazymatch t with
  | add ?a ?b => let acc := zm_atoms add scal a acc in zm_atoms add scal b acc
  | scal ?a _ => zm_atoms add scal a acc
  | _ => let b := zm_mem t acc in
         lazymatch b with
         | true => acc
         | false => constr:(cons t acc)
         end
  end.

Ltac zm_reify add scal t env :=
  lazymatch t with
  | add ?a ?b =>
      let ra := zm_reify add scal a env in
      let rb := zm_reify add scal b env in
      constr:(MAdd ra rb)
  | scal ?a ?k => let ra := zm_reify add scal a env in constr:(MScal ra k)
  | _ => let n := zm_index t env in constr:(MAtom n)
  end.

(** [zmodule M add scal laws] proves an equation of the module [M]; [laws]
    proves the seven module laws in the order of the section above. *)
Ltac zmodule M add scal laws :=
  lazymatch goal with
  | |- @eq _ ?l ?r =>
      let env := zm_atoms add scal l (@nil M) in
      let env := zm_atoms add scal r env in
      let tl := zm_reify add scal l env in
      let tr := zm_reify add scal r env in
      lazymatch env with
      | cons ?d0 _ =>
          change (mdenote M add scal d0 env tl = mdenote M add scal d0 env tr);
          apply (zmodule_eq M add scal);
          [ laws .. | simpl; repeat constructor; ring ]
      end
  end.

Ltac g1_laws :=
  first [apply G1Add_comm | apply G1Add_assoc | apply G1Mul_0_l | apply G1Mul_1
        | apply G1Mul_add_r | apply G1Mul_add_l | apply G1Mul_mul].

Ltac g2_laws :=
  first [apply G2Add_comm | apply G2Add_assoc | apply G2Mul_0_l | apply G2Mul_1
        | apply G2Mul_add_r | apply G2Mul_add_l | apply G2Mul_mul].

Ltac gt_laws :=
  first [apply GtMul_comm | apply GtMul_assoc
        | (intros; rewrite GtExp_0; apply GtMul_one_l) | apply GtExp_1
        | apply GtExp_add | apply GtExp_mul_base | apply GtExp_exp].

Ltac g1_solve :=
  rewrite ?G1Sub_def;
  lazymatch goal with
  | |- @eq (@G1 ?C) _ _ => zmodule (@G1 C) (@G1Add C) (@G1Mul C) ltac:(g1_laws)
  end.

Ltac g2_solve :=
  lazymatch goal with
  | |- @eq (@G2 ?C) _ _ => zmodule (@G2 C) (@G2Add C) (@G2Mul C) ltac:(g2_laws)
  end.

Ltac gt_solve :=
  rewrite ?GtInverse_def;
  lazymatch goal with
  | |- @eq (@Gt ?C) _ _ => zmodule (@Gt C) (@GtMul C) (@GtExp C) ltac:(gt_laws)
  end.

(** ** The tag proof *)

Section TagProof.
Context {C : Curve} {L : CurveLaws C}.

Lemma sha256_of_length (writes : list bytes) : length (sha256_of writes) = 32%nat.
Proof. apply SHA256_length. Qed.

Lemma hashToZr_Ok (inp : list bytes) :
  exists c, FieldElementFromBytes (sha256_of inp) = Ok c /\ 0 <= c < GroupOrder.
Proof.
  eexists. split; [apply FieldElementFromBytes_value, sha256_of_length | ].
  apply Z.mod_pos_bound. reflexivity.
Qed.

Lemma tag_roundtrip (sk : Zr) (prefix : bytes) (extras : list bytes) (r ar br : Zr) :
  exists π,
    tag.NewProof prefix sk (fst (tag.Commit sk r)) extras ar br = Ok π /\
    tag.Verify π (tag.Tag sk prefix) (snd (tag.Commit sk r)) prefix extras = Ok None.
Proof.
  unfold tag.NewProof, tag.Verify, tag.Commit, tag.Tag, tag.hashToZr. simpl fst. simpl snd.
  set (Hp := HashToG1 (tag.sha256Digest prefix)).
  set (inp := tag.buildHashContext _ _ extras).
  destruct (hashToZr_Ok inp) as (c & Hc & _). rewrite Hc. cbn [mbind result_bind].
  eexists. split; [reflexivity | ].
  cbn [tag.pA tag.pB tag.pa tag.pb]. fold inp. rewrite Hc. cbn [mbind result_bind].
  unfold Zr.Plus, Zr.Mul. cbn [tag.R].
  rewrite bool_decide_eq_true_2.
  2:{ rewrite G1Mul_add_r, G1Mul_order. g1_solve. }
  rewrite bool_decide_eq_true_2.
  2:{ rewrite !G1Mul_add_r, !G1Mul_order. g1_solve. }
  reflexivity.
Qed.

(** *** C3

    For every secret key, prefix, list of additional contexts and scalars
    [r], [ar], [br] drawn, the proof made by [NewProof] for the witness and
    commitment of [Commit] is accepted by [Verify] for the tag [Tag sk prefix],
    that commitment, the same prefix and the same contexts. *)
Theorem C3_tag_roundtrip (sk : Zr) (prefix : bytes) (extras : list bytes) (r ar br : Zr) :
  exists π,
    tag.NewProof prefix sk (fst (tag.Commit sk r)) extras ar br = Ok π /\
    tag.Verify π (tag.Tag sk prefix) (snd (tag.Commit sk r)) prefix extras = Ok None.
Proof. apply tag_roundtrip. Qed.

End TagProof.

Lemma C3_tag_roundtrip_witness :
  exists π,
    tag.NewProof (C := Model.toy) [x01; x02; x03] 77 (fst (tag.Commit 77 5)) [[x04]] 8 9 = Ok π /\
    tag.Verify π (tag.Tag 77 [x01; x02; x03]) (snd (tag.Commit 77 5)) [x01; x02; x03] [[x04]]
      = Ok None.
Proof.
  apply (C3_tag_roundtrip (C := Model.toy) (L := ModelLaws.toy_laws)).
Defined.

(** ** The chain of Dory public parameters *)

Section Chain.
Context {C : Curve}.
Import dory.

(** The reduction sub-parameters of a level with [2^k] generators [g1], [g2]:
    none at [k = 0]; otherwise [2^(k-1)] generators of each group and the
    four cross terms. *)
Definition rpp_wf (k : nat) (g1 : G1v) (g2 : G2v) (rpp : ReducePP) : Prop :=
  match k with
  | O => rpp = mkReducePP [] [] None None None None
  | S k' =>
      let m := (2 ^ k')%nat in
      length (Γ1Prime rpp) = m /\ length (Γ2Prime rpp) = m /\
      exists d1l d1r d2l d2r,
        Δ1L rpp = Some d1l /\ Δ1R rpp = Some d1r /\ Δ2L rpp = Some d2l /\ Δ2R rpp = Some d2r /\
        InnerProd (take m g1) (Γ2Prime rpp) = Ok d1l /\
        InnerProd (drop m g1) (Γ2Prime rpp) = Ok d1r /\
        InnerProd (Γ1Prime rpp) (take m g2) = Ok d2l /\
        InnerProd (Γ1Prime rpp) (drop m g2) = Ok d2r
  end.

Definition pp_wf (k : nat) (pp : PP) : Prop :=
  length (Γ1 pp) = (2 ^ k)%nat /\ length (Γ2 pp) = (2 ^ k)%nat /\
  InnerProd (Γ1 pp) (Γ2 pp) = Ok (χ pp) /\
  rpp_wf k (Γ1 pp) (Γ2 pp) (pp_ReducePP pp).

(** A chain whose first level has [2^k] generators: every level is well
    formed, the generators of a level are the reduction generators of the
    level before, and the last level has one generator. *)
Fixpoint chain_wf (k : nat) (pps : list PP) : Prop :=
  match pps with
  | [] => False
  | pp :: rest =>
      pp_wf k pp /\
      match k with
      | O => rest = []
      | S k' =>
          (exists next, head rest = Some next /\
                        Γ1 next = Γ1Prime (pp_ReducePP pp) /\
                        Γ2 next = Γ2Prime (pp_ReducePP pp)) /\
          chain_wf k' rest
      end
  end.

Lemma chain_wf_length (k : nat) (pps : list PP) : chain_wf k pps -> length pps = S k.
Proof.
  revert pps. induction k as [ | k IH]; intros [ | pp rest]; simpl; try tauto.
  - intros [_ ->]. reflexivity.
  - intros (_ & _ & Hr). f_equal. apply IH. exact Hr.
Qed.

Lemma InnerProd_is_Ok (a : G1v) (b : G2v) :
  length a = length b -> (0 < length a)%nat -> exists g, InnerProd a b = Ok g.
Proof.
  intros Hl Hp. unfold InnerProd. rewrite Hl, Nat.eqb_refl. simpl negb. cbv iota.
  destruct a as [ | x a]; [simpl in Hp; lia | ].
  destruct b as [ | y b]; [discriminate Hl | ].
  destruct a; eauto.
Qed.

Lemma length_randomG1Vector (n : nat) :
  exists v, randomG1Vector (Z.of_nat n) = Ok v /\ length v = n.
Proof.
  unfold randomG1Vector. destruct (Z.ltb_spec (Z.of_nat n) 0) as [Hn | _]; [lia | ].
  eexists. split; [reflexivity | ]. rewrite length_map, length_seq. lia.
Qed.

Lemma length_randomG2Vector (n : nat) :
  exists v, randomG2Vector (Z.of_nat n) = Ok v /\ length v = n.
Proof.
  unfold randomG2Vector. destruct (Z.ltb_spec (Z.of_nat n) 0) as [Hn | _]; [lia | ].
  eexists. split; [reflexivity | ]. rewrite length_map, length_seq. lia.
Qed.

Lemma pow2_pos (k : nat) : (0 < 2 ^ k)%nat.
Proof. induction k; simpl; lia. Qed.

Lemma pow2_quot (k : nat) : Z.of_nat (2 ^ S k) ÷ 2 = Z.of_nat (2 ^ k).
Proof.
  rewrite Z.quot_div_nonneg by lia.
  replace (2 ^ S k)%nat with (2 ^ k * 2)%nat by (simpl; lia).
  rewrite Nat2Z.inj_mul. apply Z.div_mul. lia.
Qed.

Lemma reducePP_wf (k : nat) (g1 : G1v) (g2 : G2v) :
  length g1 = (2 ^ k)%nat -> length g2 = (2 ^ k)%nat ->
  exists rpp, reducePP g1 g2 (Z.of_nat (2 ^ k)) = Ok rpp /\ rpp_wf k g1 g2 rpp.
Proof.
  intros H1 H2. unfold reducePP. destruct k as [ | k].
  - simpl. eexists. split; reflexivity.
  - pose proof (pow2_pos k) as Hpos.
    assert (Hm : (2 ^ S k = 2 ^ k + 2 ^ k)%nat) by (simpl; lia).
    destruct (Z.eqb_spec (Z.of_nat (2 ^ S k)) 1) as [E | _]; [lia | ].
    rewrite pow2_quot, Nat2Z.id.
    rewrite !slice_ok by lia. cbn [mbind result_bind].
    destruct (length_randomG1Vector (2 ^ k)) as (p1 & -> & Hp1).
    destruct (length_randomG2Vector (2 ^ k)) as (p2 & -> & Hp2).
    cbn [mbind result_bind].
    rewrite !Nat.sub_0_r, !drop_0.
    replace (length g1 - 2 ^ k)%nat with (length (drop (2 ^ k) g1)) by (rewrite length_drop; lia).
    replace (length g2 - 2 ^ k)%nat with (length (drop (2 ^ k) g2)) by (rewrite length_drop; lia).
    rewrite !firstn_all.
    destruct (InnerProd_is_Ok (take (2 ^ k) g1) p2) as (d1l & Hd1l);
      [rewrite length_take; lia | rewrite length_take; lia | ].
    destruct (InnerProd_is_Ok (drop (2 ^ k) g1) p2) as (d1r & Hd1r);
      [rewrite length_drop; lia | rewrite length_drop; lia | ].
    destruct (InnerProd_is_Ok p1 (take (2 ^ k) g2)) as (d2l & Hd2l);
      [rewrite length_take; lia | lia | ].
    destruct (InnerProd_is_Ok p1 (drop (2 ^ k) g2)) as (d2r & Hd2r);
      [rewrite length_drop; lia | lia | ].
    rewrite Hd1l, Hd1r, Hd2l, Hd2r. cbn [mbind result_bind].
    eexists. split; [reflexivity | ].
    simpl. split; [exact Hp1 | ]. split; [exact Hp2 | ].
    exists d1l, d1r, d2l, d2r. tauto.
Qed.

Lemma PP_Digest_Ok (k : nat) (rpp : ReducePP) (g1 : G1v) (g2 : G2v) (x : Gt) (prev : bytes) :
  length g1 = (2 ^ k)%nat -> length g2 = (2 ^ k)%nat -> rpp_wf k g1 g2 rpp ->
  exists dg, PP_Digest (mkPP [] rpp g1 g2 x) prev = Ok dg.
Proof.
  intros H1 H2 Hr. unfold PP_Digest. cbn [pp_digest Γ1 Γ2 χ pp_ReducePP length].
  change (0 <? 0)%nat with false. cbv iota.
  destruct k as [ | k].
  - rewrite H1, H2. simpl. eauto.
  - pose proof (pow2_pos k) as Hpos.
    assert (Hm : (2 ^ S k = 2 ^ k + 2 ^ k)%nat) by (simpl; lia).
    destruct (Nat.eqb_spec (length g1) 1) as [E | _]; [lia | ].
    destruct (Nat.eqb_spec (length g2) 1) as [E | _]; [lia | ].
    destruct Hr as (_ & _ & d1l & d1r & d2l & d2r & E1 & E2 & E3 & E4 & _).
    unfold ReducePP_Digest. rewrite E1, E2, E3, E4. simpl. eauto.
Qed.

Lemma NewPublicParams_wf (k : nat) :
  exists pp, NewPublicParams (Z.of_nat (2 ^ k)) = Ok pp /\ pp_wf k pp.
Proof.
  unfold NewPublicParams. pose proof (pow2_pos k) as Hpos.
  destruct (length_randomG1Vector (2 ^ k)) as (g1 & -> & H1).
  destruct (length_randomG2Vector (2 ^ k)) as (g2 & -> & H2).
  cbn [mbind result_bind].
  destruct (InnerProd_is_Ok g1 g2) as (x & Hx); [lia | lia | ].
  rewrite Hx. cbn [mbind result_bind].
  destruct (reducePP_wf k g1 g2 H1 H2) as (rpp & -> & Hr). cbn [mbind result_bind].
  destruct (PP_Digest_Ok k rpp g1 g2 x [] H1 H2 Hr) as (dg & ->). cbn [mbind result_bind].
  eexists. split; [reflexivity | ]. repeat split; assumption.
Qed.

Lemma PP_NewPublicParams_wf (k : nat) (pp : PP) :
  pp_wf (S k) pp ->
  exists pp', PP_NewPublicParams pp (Z.of_nat (2 ^ k)) = Ok pp' /\ pp_wf k pp' /\
              Γ1 pp' = Γ1Prime (pp_ReducePP pp) /\ Γ2 pp' = Γ2Prime (pp_ReducePP pp).
Proof.
  intros (H1 & H2 & _ & Hp1 & Hp2 & _). unfold PP_NewPublicParams.
  pose proof (pow2_pos k) as Hpos.
  assert (Hm : (2 ^ S k = 2 ^ k + 2 ^ k)%nat) by (simpl; lia).
  rewrite H1, H2.
  destruct (Z.eqb_spec (Z.of_nat (2 ^ S k)) (2 * Z.of_nat (2 ^ k))) as [_ | N]; [ | lia].
  simpl orb. cbv iota.
  set (g1 := Γ1Prime (pp_ReducePP pp)) in *. set (g2 := Γ2Prime (pp_ReducePP pp)) in *.
  destruct (InnerProd_is_Ok g1 g2) as (x & Hx); [lia | lia | ].
  rewrite Hx. cbn [mbind result_bind].
  destruct (reducePP_wf k g1 g2 Hp1 Hp2) as (rpp & -> & Hr). cbn [mbind result_bind].
  destruct (PP_Digest_Ok k rpp g1 g2 x (pp_digest pp) Hp1 Hp2 Hr) as (dg & ->).
  cbn [mbind result_bind].
  eexists. split; [reflexivity | ]. split; [ | split; reflexivity].
  repeat split; assumption.
Qed.

(** Enough fuel: the loop started at a well-formed level of [2^k] generators
    returns, within [k + 1] iterations, a well-formed chain appended to [res]. *)
Lemma GeneratePublicParams_loop_wf (k fuel : nat) (pp : PP) (res : list PP) :
  (k < fuel)%nat -> pp_wf k pp ->
  exists chain, GeneratePublicParams_loop fuel (Z.of_nat (2 ^ k)) pp res = Some (Ok (res ++ chain))
                /\ chain_wf k chain /\ head chain = Some pp.
Proof.
  revert fuel pp res. induction k as [ | k IH]; intros fuel pp res Hf Hpp;
    (destruct fuel as [ | fuel]; [lia | ]); cbn [GeneratePublicParams_loop].
  - exists [pp]. split; [reflexivity | ]. split; [ | reflexivity]. split; [exact Hpp | reflexivity].
  - pose proof (pow2_pos (S k)) as Hpos. pose proof (pow2_pos k) as Hpos'.
    destruct (Z.ltb_spec 0 (Z.of_nat (2 ^ S k))) as [_ | N]; [ | lia].
    rewrite pow2_quot.
    destruct (Z.eqb_spec (Z.of_nat (2 ^ k)) 0) as [E | _]; [lia | ].
    destruct (PP_NewPublicParams_wf k pp Hpp) as (pp' & -> & Hpp' & Hg1 & Hg2).
    destruct (IH fuel pp' (res ++ [pp]) ltac:(lia) Hpp') as (chain & -> & Hc & Hh).
    exists (pp :: chain). rewrite <- app_assoc. split; [reflexivity | ].
    split; [ | reflexivity]. split; [exact Hpp | ]. split; [ | exact Hc].
    exists pp'. auto.
Qed.

(** The fuel of [GeneratePublicParams] is never exhausted on a Go [int]. *)
Lemma GeneratePublicParams_loop_fuel (fuel : nat) (n : Z) (pp : PP) (res : list PP) :
  (0 < fuel)%nat -> n < 2 ^ Z.of_nat fuel ->
  GeneratePublicParams_loop fuel n pp res <> None.
Proof.
  revert n pp res. induction fuel as [ | fuel IH]; intros n pp res Hf Hn; [lia | ].
  simpl. destruct (Z.ltb_spec 0 n) as [Hpos | _]; [ | discriminate].
  destruct (Z.eqb_spec (n ÷ 2) 0) as [_ | Hq]; [discriminate | ].
  destruct (PP_NewPublicParams pp (n ÷ 2)); [ | discriminate].
  assert (Hq' : n ÷ 2 = n / 2) by (apply Z.quot_div_nonneg; lia).
  assert (0 < n / 2) by (pose proof (Z.div_pos n 2); lia).
  assert (Hlt : n / 2 < 2 ^ Z.of_nat fuel).
  { apply Z.div_lt_upper_bound; [lia | ].
    replace (Z.of_nat (S fuel)) with (1 + Z.of_nat fuel) in Hn by lia.
    rewrite Z.pow_add_r in Hn by lia. exact Hn. }
  apply IH; [ | lia].
  destruct fuel; [simpl in Hlt; lia | lia].
Qed.

Lemma GeneratePublicParams_total (n : Z) : n < 2 ^ 63 -> GeneratePublicParams n <> None.
Proof.
  intros Hn. unfold GeneratePublicParams. destruct (NewPublicParams n); [ | discriminate].
  apply GeneratePublicParams_loop_fuel; [lia | ].
  assert (2 ^ 63 < 2 ^ Z.of_nat 64) by reflexivity. lia.
Qed.

Lemma GeneratePublicParams_wf (k : nat) :
  (k < 64)%nat ->
  exists chain, GeneratePublicParams (Z.of_nat (2 ^ k)) = Some (Ok chain) /\ chain_wf k chain.
Proof.
  intros Hk. unfold GeneratePublicParams.
  destruct (NewPublicParams_wf k) as (pp & -> & Hpp).
  destruct (GeneratePublicParams_loop_wf k 64 pp [] Hk Hpp) as (chain & -> & Hc & _).
  exists chain. split; [reflexivity | exact Hc].
Qed.

Lemma chain_wf_lookup (k : nat) (pps : list PP) (l : nat) (pp : PP) :
  chain_wf k pps -> pps !! l = Some pp -> (l <= k)%nat /\ pp_wf (k - l) pp.
Proof.
  revert pps l. induction k as [ | k IH]; intros [ | pp0 rest] l; simpl; try tauto.
  - intros [Hpp ->]. destruct l as [ | l]; simpl; [ | discriminate].
    intros [= <-]. split; [lia | exact Hpp].
  - intros (Hpp & _ & Hr). destruct l as [ | l]; simpl.
    + intros [= <-]. split; [lia | exact Hpp].
    + intros Hl. destruct (IH rest l Hr Hl) as [Hle Hw]. split; [lia | exact Hw].
Qed.

(** *** C8

    For [1 <= k <= 62] (so that [2^k] is a Go [int]),
    [GeneratePublicParams (2^k)] returns a chain of [k + 1] levels; at level
    [l] the generator vectors have length [2^(k-l)]; the reduction
    sub-parameters have length [2^(k-l-1)] below the last level and are
    empty at the last level. *)
Theorem C8_parameter_lengths (k : nat) :
  (1 <= k <= 62)%nat ->
  exists chain,
    GeneratePublicParams (2 ^ Z.of_nat k) = Some (Ok chain) /\
    length chain = (k + 1)%nat /\
    forall (l : nat) (pp : PP),
      chain !! l = Some pp ->
      length (Γ1 pp) = (2 ^ (k - l))%nat /\
      length (Γ2 pp) = (2 ^ (k - l))%nat /\
      ((l < k)%nat ->
       length (Γ1Prime (pp_ReducePP pp)) = (2 ^ (k - l - 1))%nat /\
       length (Γ2Prime (pp_ReducePP pp)) = (2 ^ (k - l - 1))%nat) /\
      (l = k -> Γ1Prime (pp_ReducePP pp) = [] /\ Γ2Prime (pp_ReducePP pp) = []).
Proof.
  intros Hk. destruct (GeneratePublicParams_wf k ltac:(lia)) as (chain & Hg & Hc).
  exists chain. split.
  { rewrite <- Hg. f_equal. rewrite Nat2Z.inj_pow. reflexivity. }
  split; [rewrite (chain_wf_length k chain Hc); lia | ].
  intros l pp Hl. destruct (chain_wf_lookup k chain l pp Hc Hl) as (Hle & H1 & H2 & _ & Hr).
  split; [exact H1 | ]. split; [exact H2 | ]. split.
  - intros Hlt. destruct (k - l)%nat as [ | j] eqn:E; [lia | ].
    replace (S j - 1)%nat with j by lia.
    destruct Hr as (Hp1 & Hp2 & _). split; assumption.
  - intros ->. rewrite Nat.sub_diag in Hr. simpl in Hr. rewrite Hr. split; reflexivity.
Qed.

End Chain.

Lemma C8_parameter_lengths_witness :
  exists chain,
    dory.GeneratePublicParams (C := Model.toy) (2 ^ Z.of_nat 3) = Some (Ok chain) /\
    length chain = (3 + 1)%nat /\
    forall (l : nat) (pp : dory.PP),
      chain !! l = Some pp ->
      length (dory.Γ1 pp) = (2 ^ (3 - l))%nat /\
      length (dory.Γ2 pp) = (2 ^ (3 - l))%nat /\
      ((l < 3)%nat ->
       length (dory.Γ1Prime (dory.pp_ReducePP pp)) = (2 ^ (3 - l - 1))%nat /\
       length (dory.Γ2Prime (dory.pp_ReducePP pp)) = (2 ^ (3 - l - 1))%nat) /\
      (l = 3%nat -> dory.Γ1Prime (dory.pp_ReducePP pp) = [] /\
                    dory.Γ2Prime (dory.pp_ReducePP pp) = []).
Proof.
  apply (C8_parameter_lengths (C := Model.toy) 3). lia.
Defined.

(** ** The inner pairing product *)

Section InnerProduct.
Context {C : Curve} {L : CurveLaws C}.

(** The product of the pairings of two vectors, index by index. *)
Definition ip (a : G1v) (b : G2v) : Gt :=
  foldr (fun xy acc => GtMul (e (fst xy) (snd xy)) acc) GtOne (zip a b).

Lemma GtMul_one_r (u : Gt) : GtMul u GtOne = u.
Proof. rewrite GtMul_comm. apply GtMul_one_l. Qed.

Lemma GtExp_one (x : Z) : GtExp GtOne x = GtOne.
Proof. rewrite <- (GtExp_0 GtOne), GtExp_exp. reflexivity. Qed.

Lemma ip_cons (x : G1) (a : G1v) (y : G2) (b : G2v) :
  ip (x :: a) (y :: b) = GtMul (e x y) (ip a b).
Proof. reflexivity. Qed.

Lemma FExp_fold (l : list (G1 * G2)) (acc : Gt) :
  FExp (fold_left (fun prod xy => GtMul prod (Pairing (snd xy) (fst xy))) l acc)
  = GtMul (FExp acc) (foldr (fun xy acc => GtMul (e (fst xy) (snd xy)) acc) GtOne l).
Proof.
  revert acc. induction l as [ | xy l IH]; intros acc; simpl.
  - rewrite GtMul_one_r. reflexivity.
  - rewrite IH, FExp_mul, <- GtMul_assoc. reflexivity.
Qed.

Lemma InnerProd_ip (a : G1v) (b : G2v) :
  length a = length b -> (0 < length a)%nat -> InnerProd a b = Ok (ip a b).
Proof.
  intros Hl Hp. unfold InnerProd. rewrite Hl, Nat.eqb_refl. simpl negb. cbv iota.
  destruct a as [ | x a]; [simpl in Hp; lia | ].
  destruct b as [ | y b]; [discriminate Hl | ].
  destruct a as [ | x' a].
  - destruct b; [ | discriminate Hl]. rewrite ip_cons. unfold ip. simpl.
    rewrite GtMul_one_r. reflexivity.
  - cbv zeta. rewrite FExp_fold. reflexivity.
Qed.

Lemma InnerProd_Ok_ip (a : G1v) (b : G2v) (g : Gt) :
  InnerProd a b = Ok g -> g = ip a b /\ length a = length b /\ (0 < length a)%nat.
Proof.
  intros Hg. assert (Hl : length a = length b).
  { unfold InnerProd in Hg. destruct (Nat.eqb_spec (length a) (length b)); [assumption | ].
    discriminate Hg. }
  assert (Hp : (0 < length a)%nat).
  { unfold InnerProd in Hg. rewrite Hl, Nat.eqb_refl in Hg. simpl in Hg.
    destruct a; [discriminate Hg | simpl; lia]. }
  rewrite (InnerProd_ip a b Hl Hp) in Hg. injection Hg as <-. auto.
Qed.

Lemma ip_add_l (a a' : G1v) (b : G2v) :
  length a = length a' -> ip (zip_with G1Add a a') b = GtMul (ip a b) (ip a' b).
Proof.
  revert a' b. induction a as [ | x a IH]; intros [ | x' a'] b Hl; try discriminate Hl.
  - unfold ip. simpl. rewrite GtMul_one_l. reflexivity.
  - destruct b as [ | y b].
    + unfold ip. simpl. rewrite GtMul_one_l. reflexivity.
    + simpl zip_with. rewrite !ip_cons, IH by (simpl in Hl; lia). rewrite e_add_l. gt_solve.
Qed.

Lemma ip_add_r (a : G1v) (b b' : G2v) :
  length b = length b' -> ip a (zip_with G2Add b b') = GtMul (ip a b) (ip a b').
Proof.
  revert b b'. induction a as [ | x a IH]; intros b b' Hl.
  - unfold ip. simpl. rewrite GtMul_one_l. reflexivity.
  - destruct b as [ | y b]; destruct b' as [ | y' b']; try discriminate Hl.
    + unfold ip. simpl. rewrite GtMul_one_l. reflexivity.
    + simpl zip_with. rewrite !ip_cons, IH by (simpl in Hl; lia). rewrite e_add_r. gt_solve.
Qed.

Lemma ip_mul_l (a : G1v) (b : G2v) (x : Z) : ip (G1v_Mul a x) b = GtExp (ip a b) x.
Proof.
  revert b. induction a as [ | g a IH]; intros b.
  - unfold ip. simpl. rewrite GtExp_one. reflexivity.
  - destruct b as [ | y b].
    + unfold ip. simpl. rewrite GtExp_one. reflexivity.
    + unfold G1v_Mul in *. simpl map. rewrite !ip_cons, IH, e_mul_l, GtExp_mul_base.
      reflexivity.
Qed.

Lemma ip_mul_r (a : G1v) (b : G2v) (x : Z) : ip a (G2v_Mul b x) = GtExp (ip a b) x.
Proof.
  revert b. induction a as [ | g a IH]; intros b.
  - unfold ip. simpl. rewrite GtExp_one. reflexivity.
  - destruct b as [ | y b].
    + unfold ip. simpl. rewrite GtExp_one. reflexivity.
    + unfold G2v_Mul in *. simpl map. rewrite !ip_cons, IH, e_mul_r, GtExp_mul_base.
      reflexivity.
Qed.

Lemma ip_app (a a' : G1v) (b b' : G2v) :
  length a = length b -> ip (a ++ a') (b ++ b') = GtMul (ip a b) (ip a' b').
Proof.
  revert b. induction a as [ | x a IH]; intros [ | y b] Hl; try discriminate Hl.
  - unfold ip at 2. simpl. rewrite GtMul_one_l. reflexivity.
  - simpl app. rewrite !ip_cons, IH by (simpl in Hl; lia). apply GtMul_assoc.
Qed.

(** A pairing value has order [GroupOrder]. *)
Lemma e_order (a : G1) (b : G2) (x : Z) : GtExp (e a b) (x mod GroupOrder) = GtExp (e a b) x.
Proof. rewrite <- !e_mul_l, G1Mul_order. reflexivity. Qed.

Lemma ip_order (a : G1v) (b : G2v) (x : Z) :
  GtExp (ip a b) (x mod GroupOrder) = GtExp (ip a b) x.
Proof.
  revert b. induction a as [ | g a IH]; intros b.
  - unfold ip. simpl. rewrite !GtExp_one. reflexivity.
  - destruct b as [ | y b].
    + unfold ip. simpl. rewrite !GtExp_one. reflexivity.
    + rewrite ip_cons, !GtExp_mul_base, IH, e_order. reflexivity.
Qed.

Lemma ip_cancel (a : G1v) (b : G2v) (x xi : Z) :
  (x * xi) mod GroupOrder = 1 -> GtExp (GtExp (ip a b) x) xi = ip a b.
Proof. intros Hx. rewrite GtExp_exp, <- ip_order, Hx. apply GtExp_1. Qed.

Lemma e_cancel (a : G1) (b : G2) (x xi : Z) :
  (x * xi) mod GroupOrder = 1 -> GtExp (GtExp (e a b) x) xi = e a b.
Proof. intros Hx. rewrite GtExp_exp, <- e_order, Hx. apply GtExp_1. Qed.

End InnerProduct.

(** ** One round of the Dory reduction *)

Section Round.
Context {C : Curve} {L : CurveLaws C}.
Import dory.

Definition invertible (x : Z) : Prop := Z.gcd x GroupOrder = 1.

Definition invertibleb (x : Z) : bool := Z.gcd x GroupOrder =? 1.

Lemma invertibleb_spec (x : Z) : invertibleb x = true <-> invertible x.
Proof. apply Z.eqb_eq. Qed.

Lemma inverse_spec (x : Z) : invertible x -> (x * inverse x) mod GroupOrder = 1.
Proof.
  intros Hx. unfold inverse, Zr.InvModP. unfold invertible in Hx. rewrite Hx.
  change (1 =? 1) with true. cbv iota.
  rewrite Z.mul_comm, Z.invmod_ok, Hx. reflexivity.
Qed.

Lemma slice_take {A} (s : list A) (m : nat) :
  (m <= length s)%nat -> slice s 0 m = Ok (take m s).
Proof. intros Hm. rewrite slice_ok by lia. rewrite Nat.sub_0_r, drop_0. reflexivity. Qed.

Lemma slice_drop {A} (s : list A) (m : nat) :
  (m <= length s)%nat -> slice s m (length s) = Ok (drop m s).
Proof.
  intros Hm. rewrite slice_ok by lia. f_equal. apply firstn_all2. rewrite length_drop. lia.
Qed.

Lemma G1v_Add_Ok (a b : G1v) : length a = length b -> G1v_Add a b = Ok (zip_with G1Add a b).
Proof.
  revert b. induction a as [ | x a IH]; intros [ | y b] Hl; try discriminate Hl; simpl.
  - reflexivity.
  - rewrite IH by (simpl in Hl; lia). reflexivity.
Qed.

Lemma G2v_Add_Ok (a b : G2v) : length a = length b -> G2v_Add a b = Ok (zip_with G2Add a b).
Proof.
  revert b. induction a as [ | x a IH]; intros [ | y b] Hl; try discriminate Hl; simpl.
  - reflexivity.
  - rewrite IH by (simpl in Hl; lia). reflexivity.
Qed.

Lemma length_G1v_Mul (a : G1v) (x : Z) : length (G1v_Mul a x) = length a.
Proof. apply length_map. Qed.

Lemma length_G2v_Mul (a : G2v) (x : Z) : length (G2v_Mul a x) = length a.
Proof. apply length_map. Qed.

Lemma mulGt_cons (x : Gt) (rest : list Gt) : mulGt (x :: rest) = Ok (fold_left GtMul rest x).
Proof. unfold mulGt. rewrite NewGtFromBytes_GtBytes. reflexivity. Qed.

Lemma Step1_RO_Ok (x : ReduceProverStep1Elements) :
  exists β,
    Step1_RO x = Ok (mkStep1 (ppDigest x) (sha256Digest (Step1_Bytes x)) (D1L x) (D1R x)
                             (D2L x) (D2R x) (s1_C x) (s1_D1 x) (s1_D2 x), β) /\
    FieldElementFromBytes (sha256Digest (Step1_Bytes x)) = Ok β.
Proof.
  unfold Step1_RO. destruct (hashToZr_Ok (Step1_Bytes x)) as (β & Hβ & _).
  exists β. unfold sha256Digest. rewrite Hβ. split; reflexivity.
Qed.

Lemma Step2_RO_Ok (x : ReduceProverStep2Elements) :
  length (ReduceProverStep1ElementsDigest x) = 32%nat -> exists α, Step2_RO x = Ok α.
Proof.
  intros Hl. unfold Step2_RO, Step2_Bytes. rewrite Hl. simpl.
  destruct (hashToZr_Ok [GtBytes (Cplus x); GtBytes (Cminus x);
                         ReduceProverStep1ElementsDigest x]) as (α & Hα & _).
  exists α. exact Hα.
Qed.

(** A commitment to a witness under the generators [g1], [g2]. *)
Definition commits (g1 : G1v) (g2 : G2v) (w : Witness) (cmt : Commitment) : Prop :=
  cC cmt = ip (V1 w) (V2 w) /\ cD1 cmt = ip (V1 w) g2 /\ cD2 cmt = ip g1 (V2 w).

Lemma zip_with_halves {A B D} (f : A -> B -> D) (a1 a2 : list A) (b1 b2 : list B) (m : nat) :
  length a1 = m -> length b1 = m ->
  take m (zip_with f (a1 ++ a2) (b1 ++ b2)) = zip_with f a1 b1 /\
  drop m (zip_with f (a1 ++ a2) (b1 ++ b2)) = zip_with f a2 b2.
Proof.
  intros Ha Hb. rewrite zip_with_app by lia.
  assert (Hl : length (zip_with f a1 b1) = m) by (rewrite length_zip_with; lia).
  split.
  - rewrite take_app_le by lia. apply firstn_all2. lia.
  - rewrite drop_app_ge by lia. rewrite Hl, Nat.sub_diag. reflexivity.
Qed.

Lemma round_algebra (a1 a2 g1 g2 p1 : G1v) (b1 b2 h1 h2 p2 : G2v) (β βi α αi : Z) (m : nat) :
  length a1 = m -> length a2 = m -> length g1 = m -> length g2 = m -> length p1 = m ->
  length b1 = m -> length b2 = m -> length h1 = m -> length h2 = m -> length p2 = m ->
  (β * βi) mod GroupOrder = 1 -> (α * αi) mod GroupOrder = 1 ->
  let v1L := zip_with G1Add a1 (G1v_Mul g1 β) in
  let v1R := zip_with G1Add a2 (G1v_Mul g2 β) in
  let v2L := zip_with G2Add b1 (G2v_Mul h1 βi) in
  let v2R := zip_with G2Add b2 (G2v_Mul h2 βi) in
  let v1' := zip_with G1Add (G1v_Mul v1L α) v1R in
  let v2' := zip_with G2Add (G2v_Mul v2L αi) v2R in
  fold_left GtMul [ip (g1 ++ g2) (h1 ++ h2); GtExp (ip (g1 ++ g2) (b1 ++ b2)) β;
                   GtExp (ip (a1 ++ a2) (h1 ++ h2)) βi;
                   GtExp (ip v1L v2R) α; GtExp (ip v1R v2L) αi]
            (ip (a1 ++ a2) (b1 ++ b2)) = ip v1' v2' /\
  fold_left GtMul [ip a2 p2; GtExp (GtExp (ip g1 p2) α) β; GtExp (ip g2 p2) β]
            (GtExp (ip a1 p2) α) = ip v1' p2 /\
  fold_left GtMul [ip p1 b2; GtExp (GtExp (ip p1 h1) αi) βi; GtExp (ip p1 h2) βi]
            (GtExp (ip p1 b1) αi) = ip p1 v2'.
Proof.
  intros Ha1 Ha2 Hg1 Hg2 Hp1 Hb1 Hb2 Hh1 Hh2 Hp2 Hβ Hα v1L v1R v2L v2R v1' v2'.
  assert (Hv1L : length v1L = m) by (unfold v1L; rewrite length_zip_with, length_G1v_Mul; lia).
  assert (Hv1R : length v1R = m) by (unfold v1R; rewrite length_zip_with, length_G1v_Mul; lia).
  assert (Hv2L : length v2L = m) by (unfold v2L; rewrite length_zip_with, length_G2v_Mul; lia).
  assert (Hv2R : length v2R = m) by (unfold v2R; rewrite length_zip_with, length_G2v_Mul; lia).
  split; [ | split].
  - (* the cross terms of the second step *)
    assert (E2 : ip v1' v2' = fold_left GtMul [ip v1R v2R; GtExp (ip v1L v2R) α;
                                               GtExp (ip v1R v2L) αi] (ip v1L v2L)).
    { unfold v1', v2'.
      rewrite ip_add_l by (rewrite length_G1v_Mul; lia).
      rewrite !ip_add_r by (rewrite length_G2v_Mul; lia).
      rewrite !ip_mul_l, !ip_mul_r.
      rewrite (ip_cancel v1L v2L αi α) by (rewrite Z.mul_comm; exact Hα).
      simpl fold_left. gt_solve. }
    (* the cross terms of the first step *)
    assert (E1 : GtMul (ip v1L v2L) (ip v1R v2R)
                 = fold_left GtMul [ip (g1 ++ g2) (h1 ++ h2); GtExp (ip (g1 ++ g2) (b1 ++ b2)) β;
                                    GtExp (ip (a1 ++ a2) (h1 ++ h2)) βi]
                             (ip (a1 ++ a2) (b1 ++ b2))).
    { rewrite !ip_app by lia. unfold v1L, v1R, v2L, v2R.
      rewrite !ip_add_l by (rewrite length_G1v_Mul; lia).
      rewrite !ip_add_r by (rewrite length_G2v_Mul; lia).
      rewrite !ip_mul_l, !ip_mul_r.
      rewrite (ip_cancel g1 h1 βi β), (ip_cancel g2 h2 βi β) by (rewrite Z.mul_comm; exact Hβ).
      simpl fold_left. rewrite !GtExp_mul_base. gt_solve. }
    rewrite E2. simpl fold_left in *. rewrite <- E1. gt_solve.
  - unfold v1', v1L, v1R.
    rewrite ip_add_l by (rewrite length_G1v_Mul, !length_zip_with, !length_G1v_Mul; lia).
    rewrite ip_mul_l. rewrite !ip_add_l by (rewrite length_G1v_Mul; lia).
    rewrite !ip_mul_l. simpl fold_left. gt_solve.
  - unfold v2', v2L, v2R.
    rewrite ip_add_r by (rewrite length_G2v_Mul, !length_zip_with, !length_G2v_Mul; lia).
    rewrite ip_mul_r. rewrite !ip_add_r by (rewrite length_G2v_Mul; lia).
    rewrite !ip_mul_r. simpl fold_left. gt_solve.
Qed.


(** The body of [reduce] up to the reduced witness and commitment. *)
Definition reduce_round (pp : PP) (w : Witness) (commitment : Commitment)
  : result (ReduceProverStep1Elements * ReduceProverStep2Elements * Witness * Commitment) :=
  let m := (length (Γ1 pp) / 2)%nat in
  let Γ1Prime := Γ1Prime (pp_ReducePP pp) in
  let Γ2Prime := Γ2Prime (pp_ReducePP pp) in
  v1L ← slice (V1 w) 0 m;
  v1R ← slice (V1 w) m (length (V1 w));
  v2L ← slice (V2 w) 0 m;
  v2R ← slice (V2 w) m (length (V2 w));
  D1L ← InnerProd v1L Γ2Prime;
  D1R ← InnerProd v1R Γ2Prime;
  D2L ← InnerProd Γ1Prime v2L;
  D2R ← InnerProd Γ1Prime v2R;
  let step1Elements :=
    mkStep1 (pp_digest pp) [] D1L D1R D2L D2R
            (cC commitment) (cD1 commitment) (cD2 commitment) in
  '(step1Elements, β) ← Step1_RO step1Elements;
  let inverse_β := inverse β in
  v1 ← G1v_Add (V1 w) (G1v_Mul (Γ1 pp) β);
  v2 ← G2v_Add (V2 w) (G2v_Mul (Γ2 pp) inverse_β);
  v1L ← slice v1 0 m;
  v1R ← slice v1 m (length v1);
  v2L ← slice v2 0 m;
  v2R ← slice v2 m (length v2);
  Cplus ← InnerProd v1L v2R;
  Cminus ← InnerProd v1R v2L;
  let step2Elements := mkStep2 (s1_digest step1Elements) Cplus Cminus in
  α ← Step2_RO step2Elements;
  let inverse_α := inverse α in
  v1prime ← G1v_Add (G1v_Mul v1L α) v1R;
  v2prime ← G2v_Add (G2v_Mul v2L inverse_α) v2R;
  let nextWitness := mkWitness v1prime v2prime in
  next ← nextCommitment pp commitment β α D1L D1R D2L D2R Cplus Cminus;
  Ok (step1Elements, step2Elements, nextWitness, next).

Ltac bind_head :=
  repeat lazymatch goal with
         | |- @eq _ (mbind _ ?m) _ =>
             destruct m as [? | ?]; cbn [mbind result_bind]; try reflexivity
         | |- @eq _ (let '(_, _) := ?p in _) _ => destruct p
         end.

Lemma reduce_cons (pp : PP) (pps' : list PP) (w : Witness) (commitment : Commitment) :
  reduce (pp :: pps') w commitment =
    r ← reduce_round pp w commitment;
    let '(step1Elements, step2Elements, nextWitness, next) := r in
    if (length (Γ1 pp) / 2 =? 1)%nat then
      pp1 ← index (pp :: pps') 1;
      Ok ([step1Elements], [step2Elements], ScalarProductProof pp1 nextWitness)
    else
      '(step1Aggregated, step2Aggregated, scalarProductProof) ← reduce pps' nextWitness next;
      Ok (step1Elements :: step1Aggregated, step2Elements :: step2Aggregated,
          scalarProductProof).
Proof.
  cbn [reduce]. unfold reduce_round. cbv zeta.
  bind_head.
Qed.


Lemma pow2_half (k : nat) : (2 ^ S k / 2 = 2 ^ k)%nat.
Proof.
  replace (2 ^ S k)%nat with (2 ^ k * 2)%nat by (simpl; lia). apply Nat.div_mul. lia.
Qed.

Lemma G1v_Mul_app (a a' : G1v) (x : Z) : G1v_Mul (a ++ a') x = G1v_Mul a x ++ G1v_Mul a' x.
Proof. apply map_app. Qed.

Lemma G2v_Mul_app (a a' : G2v) (x : Z) : G2v_Mul (a ++ a') x = G2v_Mul a x ++ G2v_Mul a' x.
Proof. apply map_app. Qed.

Lemma reduce_round_Ok (k : nat) (pp : PP) (w : Witness) (cmt : Commitment) :
  pp_wf (S k) pp ->
  length (V1 w) = (2 ^ S k)%nat -> length (V2 w) = (2 ^ S k)%nat ->
  exists s1 s2 w' next β α,
    reduce_round pp w cmt = Ok (s1, s2, w', next) /\
    Step1_RO (mkStep1 (pp_digest pp) [] (D1L s1) (D1R s1) (D2L s1) (D2R s1)
                      (cC cmt) (cD1 cmt) (cD2 cmt)) = Ok (s1, β) /\
    FieldElementFromBytes (s1_digest s1) = Ok β /\
    s2 = mkStep2 (s1_digest s1) (Cplus s2) (Cminus s2) /\
    Step2_RO s2 = Ok α /\
    nextCommitment pp cmt β α (D1L s1) (D1R s1) (D2L s1) (D2R s1) (Cplus s2) (Cminus s2)
      = Ok next /\
    length (V1 w') = (2 ^ k)%nat /\ length (V2 w') = (2 ^ k)%nat /\
    (commits (Γ1 pp) (Γ2 pp) w cmt -> invertible β -> invertible α ->
     commits (Γ1Prime (pp_ReducePP pp)) (Γ2Prime (pp_ReducePP pp)) w' next).
Proof.
  intros (Hg1 & Hg2 & Hχ & Hp1 & Hp2 & d1l & d1r & d2l & d2r & EΔ1L & EΔ1R & EΔ2L & EΔ2R
          & Hd1l & Hd1r & Hd2l & Hd2r) Hv1 Hv2.
  pose proof (pow2_pos k) as Hpos.
  assert (Hm : (2 ^ S k = 2 ^ k + 2 ^ k)%nat) by (simpl; lia).
  set (m := (2 ^ k)%nat) in *.
  set (p1 := Γ1Prime (pp_ReducePP pp)) in *. set (p2 := Γ2Prime (pp_ReducePP pp)) in *.
  (* the halves of the witness and of the generators *)
  set (a1 := take m (V1 w)). set (a2 := drop m (V1 w)).
  set (b1 := take m (V2 w)). set (b2 := drop m (V2 w)).
  set (g1 := take m (Γ1 pp)) in *. set (g2 := drop m (Γ1 pp)) in *.
  set (h1 := take m (Γ2 pp)) in *. set (h2 := drop m (Γ2 pp)) in *.
  assert (Ea : V1 w = a1 ++ a2) by (symmetry; apply take_drop).
  assert (Eb : V2 w = b1 ++ b2) by (symmetry; apply take_drop).
  assert (Eg : Γ1 pp = g1 ++ g2) by (symmetry; apply take_drop).
  assert (Eh : Γ2 pp = h1 ++ h2) by (symmetry; apply take_drop).
  assert (La1 : length a1 = m) by (unfold a1; rewrite length_take; lia).
  assert (La2 : length a2 = m) by (unfold a2; rewrite length_drop; lia).
  assert (Lb1 : length b1 = m) by (unfold b1; rewrite length_take; lia).
  assert (Lb2 : length b2 = m) by (unfold b2; rewrite length_drop; lia).
  assert (Lg1 : length g1 = m) by (unfold g1; rewrite length_take; lia).
  assert (Lg2 : length g2 = m) by (unfold g2; rewrite length_drop; lia).
  assert (Lh1 : length h1 = m) by (unfold h1; rewrite length_take; lia).
  assert (Lh2 : length h2 = m) by (unfold h2; rewrite length_drop; lia).
  apply InnerProd_Ok_ip in Hχ as (Hχ & _ & _).
  apply InnerProd_Ok_ip in Hd1l as (-> & _ & _). apply InnerProd_Ok_ip in Hd1r as (-> & _ & _).
  apply InnerProd_Ok_ip in Hd2l as (-> & _ & _). apply InnerProd_Ok_ip in Hd2r as (-> & _ & _).
  unfold reduce_round. rewrite Hg1, pow2_half. fold m. cbv zeta. fold p1 p2.
  rewrite (slice_take (V1 w)), (slice_drop (V1 w)), (slice_take (V2 w)), (slice_drop (V2 w))
    by lia.
  cbn [mbind result_bind]. fold a1 a2 b1 b2.
  rewrite (InnerProd_ip a1 p2), (InnerProd_ip a2 p2), (InnerProd_ip p1 b1), (InnerProd_ip p1 b2)
    by lia.
  cbn [mbind result_bind].
  set (pre := mkStep1 (pp_digest pp) [] (ip a1 p2) (ip a2 p2) (ip p1 b1) (ip p1 b2)
                      (cC cmt) (cD1 cmt) (cD2 cmt)).
  destruct (Step1_RO_Ok pre) as (β & HRO1 & Hβ).
  set (s1 := mkStep1 (ppDigest pre) (sha256Digest (Step1_Bytes pre)) (D1L pre) (D1R pre)
                     (D2L pre) (D2R pre) (s1_C pre) (s1_D1 pre) (s1_D2 pre)) in *.
  rewrite HRO1. cbn [mbind result_bind].
  rewrite G1v_Add_Ok by (rewrite length_G1v_Mul; lia).
  rewrite G2v_Add_Ok by (rewrite length_G2v_Mul; lia).
  cbn [mbind result_bind].
  set (v1 := zip_with G1Add (V1 w) (G1v_Mul (Γ1 pp) β)).
  set (v2 := zip_with G2Add (V2 w) (G2v_Mul (Γ2 pp) (inverse β))).
  assert (Lv1 : length v1 = (m + m)%nat)
    by (unfold v1; rewrite length_zip_with, length_G1v_Mul; lia).
  assert (Lv2 : length v2 = (m + m)%nat)
    by (unfold v2; rewrite length_zip_with, length_G2v_Mul; lia).
  rewrite (slice_take v1), (slice_drop v1), (slice_take v2), (slice_drop v2) by lia.
  cbn [mbind result_bind].
  destruct (zip_with_halves G1Add a1 a2 (G1v_Mul g1 β) (G1v_Mul g2 β) m La1
              ltac:(rewrite length_G1v_Mul; exact Lg1)) as [Ev1L Ev1R].
  destruct (zip_with_halves G2Add b1 b2 (G2v_Mul h1 (inverse β)) (G2v_Mul h2 (inverse β)) m Lb1
              ltac:(rewrite length_G2v_Mul; exact Lh1)) as [Ev2L Ev2R].
  rewrite <- G1v_Mul_app, <- Ea, <- Eg in Ev1L, Ev1R.
  rewrite <- G2v_Mul_app, <- Eb, <- Eh in Ev2L, Ev2R.
  fold v1 in Ev1L, Ev1R. fold v2 in Ev2L, Ev2R. rewrite Ev1L, Ev1R, Ev2L, Ev2R.
  set (v1L := zip_with G1Add a1 (G1v_Mul g1 β)). set (v1R := zip_with G1Add a2 (G1v_Mul g2 β)).
  set (v2L := zip_with G2Add b1 (G2v_Mul h1 (inverse β))).
  set (v2R := zip_with G2Add b2 (G2v_Mul h2 (inverse β))).
  assert (Lv1L : length v1L = m) by (unfold v1L; rewrite length_zip_with, length_G1v_Mul; lia).
  assert (Lv1R : length v1R = m) by (unfold v1R; rewrite length_zip_with, length_G1v_Mul; lia).
  assert (Lv2L : length v2L = m) by (unfold v2L; rewrite length_zip_with, length_G2v_Mul; lia).
  assert (Lv2R : length v2R = m) by (unfold v2R; rewrite length_zip_with, length_G2v_Mul; lia).
  rewrite (InnerProd_ip v1L v2R), (InnerProd_ip v1R v2L) by lia.
  cbn [mbind result_bind].
  destruct (Step2_RO_Ok (mkStep2 (s1_digest s1) (ip v1L v2R) (ip v1R v2L))) as (α & Hα).
  { apply sha256_of_length. }
  rewrite Hα. cbn [mbind result_bind].
  rewrite G1v_Add_Ok by (rewrite length_G1v_Mul; lia).
  rewrite G2v_Add_Ok by (rewrite length_G2v_Mul; lia).
  cbn [mbind result_bind].
  assert (Hnext : exists next,
             nextCommitment pp cmt β α (ip a1 p2) (ip a2 p2) (ip p1 b1) (ip p1 b2)
                            (ip v1L v2R) (ip v1R v2L) = Ok next /\
             next = mkCommitment
               (fold_left GtMul [χ pp; GtExp (cD2 cmt) β; GtExp (cD1 cmt) (inverse β);
                                 GtExp (ip v1L v2R) α; GtExp (ip v1R v2L) (inverse α)]
                          (cC cmt))
               (fold_left GtMul [ip a2 p2; GtExp (GtExp (ip g1 p2) α) β; GtExp (ip g2 p2) β]
                          (GtExp (ip a1 p2) α))
               (fold_left GtMul [ip p1 b2; GtExp (GtExp (ip p1 h1) (inverse α)) (inverse β);
                                 GtExp (ip p1 h2) (inverse β)]
                          (GtExp (ip p1 b1) (inverse α)))).
  { unfold nextCommitment. fold p1 p2. rewrite EΔ1L, EΔ1R, EΔ2L, EΔ2R.
    cbv zeta. rewrite mulGt_cons. cbn [deref mbind result_bind].
    rewrite mulGt_cons. cbn [deref mbind result_bind].
    rewrite mulGt_cons. cbn [deref mbind result_bind].
    eexists. split; reflexivity. }
  destruct Hnext as (next & Hnext & Enext). rewrite Hnext. cbn [mbind result_bind].
  do 6 eexists. split; [reflexivity | ].
  split; [exact HRO1 | ]. split; [exact Hβ | ]. split; [reflexivity | ].
  split; [exact Hα | ]. split; [exact Hnext | ]. subst next.
  cbn [V1 V2]. split; [rewrite length_zip_with, length_G1v_Mul; lia | ].
  split; [rewrite length_zip_with, length_G2v_Mul; lia | ].
  intros (HC & HD1 & HD2) Iβ Iα. apply inverse_spec in Iβ, Iα.
  destruct (round_algebra a1 a2 g1 g2 p1 b1 b2 h1 h2 p2 β (inverse β) α (inverse α) m)
    as (RC & RD1 & RD2); try assumption.
  fold v1L v1R v2L v2R in RC, RD1, RD2.
  unfold commits. cbn [cC cD1 cD2 V1 V2 D1L D1R D2L D2R s1].
  rewrite HC, HD1, HD2, Hχ, Ea, Eb, Eg, Eh.
  split; [exact RC | ]. split; [exact RD1 | exact RD2].
Qed.


(** ** Completeness of the Dory reduction *)

Definition step1_challenge_ok (s : ReduceProverStep1Elements) : bool :=
  match FieldElementFromBytes (s1_digest s) with
  | Ok β => invertibleb β
  | Panic _ => false
  end.

Definition step2_challenge_ok (s : ReduceProverStep2Elements) : bool :=
  match Step2_RO s with
  | Ok α => invertibleb α
  | Panic _ => false
  end.

(** No Fiat-Shamir challenge of the transcript is zero: each one is
    invertible modulo the group order. *)
Definition good_challenges (p : Proof) : bool :=
  forallb step1_challenge_ok (Step1Elements p) && forallb step2_challenge_ok (Step2Elements p).

Lemma ip_singleton (x : G1) (y : G2) : ip [x] [y] = e x y.
Proof. unfold ip. simpl. apply GtMul_one_r. Qed.

Lemma ScalarProduct_complete (pp : PP) (w : Witness) (cmt : Commitment) (d : Z) :
  pp_wf 0 pp -> length (V1 w) = 1%nat -> length (V2 w) = 1%nat ->
  commits (Γ1 pp) (Γ2 pp) w cmt -> invertible d ->
  ScalarProductProofElements_Verify (ScalarProductProof pp w) cmt d = Ok None.
Proof.
  intros (Hg1 & Hg2 & Hχ & _) Hv1 Hv2 (HC & HD1 & HD2) Hd.
  apply InnerProd_Ok_ip in Hχ as (Hχ & _ & _).
  destruct w as [v1 v2]. cbn [V1 V2] in *.
  destruct v1 as [ | x [ | ? ?]]; try discriminate Hv1.
  destruct v2 as [ | y [ | ? ?]]; try discriminate Hv2.
  destruct (Γ1 pp) as [ | g [ | ? ?]] eqn:Eg1; try discriminate Hg1.
  destruct (Γ2 pp) as [ | h [ | ? ?]] eqn:Eg2; try discriminate Hg2.
  rewrite !ip_singleton in *.
  unfold ScalarProductProofElements_Verify, ScalarProductProof.
  cbn [E1 E2 sp_PP V1 V2 index lookup list_lookup mbind result_bind].
  rewrite Eg1, Eg2. cbn [index lookup list_lookup mbind result_bind addG1 addG2 fold_left].
  rewrite mulGt_cons. cbn [mbind result_bind fold_left].
  apply inverse_spec in Hd.
  rewrite decide_True; [reflexivity | ].
  rewrite HC, HD1, HD2, Hχ.
  rewrite e_add_l, !e_add_r, !e_mul_l, !e_mul_r.
  rewrite (e_cancel g h (inverse d) d) by (rewrite Z.mul_comm; exact Hd).
  gt_solve.
Qed.


Lemma verifyReduce_cons (pp pp' : PP) (rest : list PP) (cmt next : Commitment)
    (s1 : ReduceProverStep1Elements) (a : list ReduceProverStep1Elements)
    (s2 : ReduceProverStep2Elements) (b : list ReduceProverStep2Elements)
    (sp : ScalarProductProofElements) (d β α : Z) :
  Step1_RO (mkStep1 (pp_digest pp) [] (D1L s1) (D1R s1) (D2L s1) (D2R s1)
                    (cC cmt) (cD1 cmt) (cD2 cmt)) = Ok (s1, β) ->
  s2 = mkStep2 (s1_digest s1) (Cplus s2) (Cminus s2) ->
  Step2_RO s2 = Ok α ->
  nextCommitment pp cmt β α (D1L s1) (D1R s1) (D2L s1) (D2R s1) (Cplus s2) (Cminus s2)
    = Ok next ->
  verifyReduce (pp :: pp' :: rest) cmt (s1 :: a) (s2 :: b) sp d
  = verifyReduce (pp' :: rest) next a b sp d.
Proof.
  intros H1 E2 H2 Hn.
  change (verifyReduce (pp :: pp' :: rest) cmt (s1 :: a) (s2 :: b) sp d) with
    (p1 ← index (s1 :: a) 0;
     let step1Elements :=
       mkStep1 (pp_digest pp) [] (D1L p1) (D1R p1) (D2L p1) (D2R p1)
               (cC cmt) (cD1 cmt) (cD2 cmt) in
     '(step1Elements, β) ← Step1_RO step1Elements;
     p2 ← index (s2 :: b) 0;
     let step2Elements := mkStep2 (s1_digest step1Elements) (Cplus p2) (Cminus p2) in
     α ← Step2_RO step2Elements;
     next ← nextCommitment pp cmt β α
              (D1L step1Elements) (D1R step1Elements) (D2L step1Elements)
              (D2R step1Elements) (Cplus p2) (Cminus p2);
     verifyReduce (pp' :: rest) next (drop 1 (s1 :: a)) (drop 1 (s2 :: b)) sp d).
  cbn [index lookup list_lookup mbind result_bind]. cbv zeta.
  rewrite H1. cbn [mbind result_bind]. rewrite <- E2, H2. cbn [mbind result_bind].
  rewrite Hn. reflexivity.
Qed.

Lemma step1_challenge_ok_inv (s : ReduceProverStep1Elements) (β : Z) :
  FieldElementFromBytes (s1_digest s) = Ok β -> step1_challenge_ok s = true -> invertible β.
Proof. unfold step1_challenge_ok. intros ->. apply invertibleb_spec. Qed.

Lemma step2_challenge_ok_inv (s : ReduceProverStep2Elements) (α : Z) :
  Step2_RO s = Ok α -> step2_challenge_ok s = true -> invertible α.
Proof. unfold step2_challenge_ok. intros ->. apply invertibleb_spec. Qed.

Lemma reduce_verify (k : nat) (pps : list PP) (w : Witness) (cmt : Commitment) :
  chain_wf (S k) pps ->
  length (V1 w) = (2 ^ S k)%nat -> length (V2 w) = (2 ^ S k)%nat ->
  exists s1 s2 sp,
    reduce pps w cmt = Ok (s1, s2, sp) /\
    length s1 = S k /\ length s2 = S k /\
    length (E1 sp) = 1%nat /\ length (E2 sp) = 1%nat /\
    ((forall pp, head pps = Some pp -> commits (Γ1 pp) (Γ2 pp) w cmt) ->
     forallb step1_challenge_ok s1 = true -> forallb step2_challenge_ok s2 = true ->
     forall d, invertible d -> verifyReduce pps cmt s1 s2 sp d = Ok None).
Proof.
  revert pps w cmt. induction k as [ | k IH]; intros pps w cmt Hc Hv1 Hv2.
  - destruct pps as [ | pp rest]; [destruct Hc | ].
    destruct Hc as (Hpp & (pp' & Hh & Hn1 & Hn2) & Hrest).
    destruct rest as [ | pp'' rest']; [discriminate Hh | ]. injection Hh as ->.
    destruct Hrest as (Hpp' & ->).
    rewrite reduce_cons.
    destruct (reduce_round_Ok 0 pp w cmt Hpp Hv1 Hv2)
      as (s1 & s2 & w' & next & β & α & -> & HRO1 & Hβ & Es2 & Hα & Hnext & Lw1 & Lw2 & Hcm).
    cbn [mbind result_bind]. destruct Hpp as (Hg1 & _). rewrite Hg1.
    change (2 ^ 1 / 2 =? 1)%nat with true. cbv iota.
    cbn [index lookup list_lookup mbind result_bind].
    do 3 eexists. split; [reflexivity | ]. split; [reflexivity | ]. split; [reflexivity | ].
    split; [exact Lw1 | ]. split; [exact Lw2 | ].
    intros Hcommits Hs1 Hs2 d Hd.
    rewrite (verifyReduce_cons pp pp' [] cmt next s1 [] s2 [] _ d β α HRO1 Es2 Hα Hnext).
    cbn [verifyReduce].
    simpl in Hs1, Hs2. apply andb_prop in Hs1 as [Hs1 _]. apply andb_prop in Hs2 as [Hs2 _].
    apply ScalarProduct_complete; try assumption.
    rewrite Hn1, Hn2. apply Hcm.
    + apply Hcommits. reflexivity.
    + apply (step1_challenge_ok_inv s1 β Hβ Hs1).
    + apply (step2_challenge_ok_inv s2 α Hα Hs2).
  - destruct pps as [ | pp rest]; [destruct Hc | ].
    destruct Hc as (Hpp & (pp' & Hh & Hn1 & Hn2) & Hrest).
    destruct rest as [ | pp'' rest']; [discriminate Hh | ]. injection Hh as ->.
    rewrite reduce_cons.
    destruct (reduce_round_Ok (S k) pp w cmt Hpp Hv1 Hv2)
      as (s1 & s2 & w' & next & β & α & -> & HRO1 & Hβ & Es2 & Hα & Hnext & Lw1 & Lw2 & Hcm).
    cbn [mbind result_bind]. destruct Hpp as (Hg1 & _). rewrite Hg1, pow2_half.
    pose proof (pow2_pos k) as Hpos.
    destruct (Nat.eqb_spec (2 ^ S k) 1) as [E | _]; [simpl in E; lia | ].
    destruct (IH (pp' :: rest') w' next Hrest Lw1 Lw2)
      as (a & b & sp & -> & La & Lb & Le1 & Le2 & Hver).
    cbn [mbind result_bind].
    do 3 eexists. split; [reflexivity | ].
    split; [simpl; lia | ]. split; [simpl; lia | ]. split; [exact Le1 | ]. split; [exact Le2 | ].
    intros Hcommits Hs1 Hs2 d Hd.
    rewrite (verifyReduce_cons pp pp' rest' cmt next s1 a s2 b sp d β α HRO1 Es2 Hα Hnext).
    simpl in Hs1, Hs2. apply andb_prop in Hs1 as [Hs1 Hs1']. apply andb_prop in Hs2 as [Hs2 Hs2'].
    apply Hver; try assumption.
    intros pp0 [= <-]. rewrite Hn1, Hn2. apply Hcm.
    + apply Hcommits. reflexivity.
    + apply (step1_challenge_ok_inv s1 β Hβ Hs1).
    + apply (step2_challenge_ok_inv s2 α Hα Hs2).
Qed.

End Round.

Section DoryComplete.
Context {C : Curve} {L : CurveLaws C}.
Import dory.

Lemma Commit_Ok (v1 : G1v) (v2 : G2v) (pp : PP) (n : nat) :
  (0 < n)%nat -> length v1 = n -> length v2 = n ->
  length (Γ1 pp) = n -> length (Γ2 pp) = n ->
  exists cmt, Commit v1 v2 pp = Ok (cmt, mkWitness v1 v2) /\
              commits (Γ1 pp) (Γ2 pp) (mkWitness v1 v2) cmt.
Proof.
  intros Hn H1 H2 Hg1 Hg2. unfold Commit.
  rewrite (InnerProd_ip v1 (Γ2 pp)), (InnerProd_ip (Γ1 pp) v2), (InnerProd_ip v1 v2) by lia.
  cbn [mbind result_bind]. eexists. split; [reflexivity | ]. repeat split.
Qed.

(** At one generator [Reduce] panics: the reduction sub-parameters of the
    last level are empty. *)
Lemma reduce_level0_panics (pp : PP) (rest : list PP) (w : Witness) (cmt : Commitment) :
  pp_wf 0 pp -> reduce (pp :: rest) w cmt = Panic "empty vectors".
Proof.
  intros (Hg1 & _ & _ & Hr). simpl in Hr. cbn [reduce]. rewrite Hg1, Hr.
  change (2 ^ 0 / 2)%nat with 0%nat. cbv zeta. cbn [Γ1Prime Γ2Prime].
  rewrite (slice_take (V1 w) 0), (slice_drop (V1 w) 0) by lia.
  rewrite (slice_take (V2 w) 0), (slice_drop (V2 w) 0) by lia.
  reflexivity.
Qed.

(** *** C2, for rings of two and more

    For [n = 2^k] with [1 <= k <= 62] and vectors of length [n], the chain
    is generated, the commitment is computed and [Reduce] returns a proof of
    [k] rounds; [VerifyReduce] accepts it for every base-case scalar [d]
    invertible modulo the group order, provided every Fiat-Shamir challenge of
    the proof is invertible modulo the group order. *)
Theorem C2_dory_complete (k : nat) (v1 : G1v) (v2 : G2v) :
  (1 <= k <= 62)%nat -> length v1 = (2 ^ k)%nat -> length v2 = (2 ^ k)%nat ->
  exists chain pp0 cmt w proof,
    GeneratePublicParams (2 ^ Z.of_nat k) = Some (Ok chain) /\
    head chain = Some pp0 /\
    Commit v1 v2 pp0 = Ok (cmt, w) /\
    Reduce chain w cmt = Ok proof /\
    length (Step1Elements proof) = k /\ length (Step2Elements proof) = k /\
    (good_challenges proof = true ->
     forall d, invertible d -> VerifyReduce chain cmt proof d = Ok None).
Proof.
  intros Hk H1 H2. destruct k as [ | k]; [lia | ].
  destruct (GeneratePublicParams_wf (S k) ltac:(lia)) as (chain & Hg & Hc).
  rewrite Nat2Z.inj_pow in Hg. change (Z.of_nat 2) with 2 in Hg.
  destruct chain as [ | pp0 rest]; [destruct Hc | ].
  pose proof Hc as (Hpp & _). destruct Hpp as (Hg1 & Hg2 & _).
  destruct (Commit_Ok v1 v2 pp0 (2 ^ S k) (pow2_pos (S k)) H1 H2 Hg1 Hg2) as (cmt & HC & Hcm).
  destruct (reduce_verify k (pp0 :: rest) (mkWitness v1 v2) cmt Hc H1 H2)
    as (s1 & s2 & sp & Hr & L1 & L2 & _ & _ & Hv).
  exists (pp0 :: rest), pp0, cmt, (mkWitness v1 v2), (mkProof s1 s2 sp []).
  split; [exact Hg | ]. split; [reflexivity | ]. split; [exact HC | ].
  split; [unfold Reduce; rewrite Hr; reflexivity | ].
  split; [exact L1 | ]. split; [exact L2 | ].
  intros Hgood d Hd. unfold good_challenges in Hgood. cbn [Step1Elements Step2Elements] in Hgood.
  apply andb_prop in Hgood as [G1' G2']. unfold VerifyReduce.
  cbn [Step1Elements Step2Elements ScalarProductProofElements_].
  apply Hv; try assumption. intros pp [= <-]. exact Hcm.
Qed.

End DoryComplete.

(** ** Runs in the model of the interface *)

Module Examples.
Import Model dory.

(** What is left of a result when the value is dropped. *)
Definition outcome {A} (r : result A) : result unit :=
  match r with
  | Ok _ => Ok tt
  | Panic msg => Panic msg
  end.

Definition v1_1 : G1v := [G1Mul GenG1 5].
Definition v2_1 : G2v := [G2Mul GenG2 7].
Definition v1_2 : G1v := [G1Mul GenG1 5; G1Mul GenG1 6].
Definition v2_2 : G2v := [G2Mul GenG2 7; G2Mul GenG2 8].

(** Generate the chain for [n], commit to [(v1, v2)], reduce, and hand the
    chain, the commitment and the proof to [k]. *)
Definition with_proof {A} (n : Z) (v1 : G1v) (v2 : G2v)
    (k : list PP -> Commitment -> Proof -> result A) : result A :=
  match GeneratePublicParams n with
  | Some (Ok chain) =>
      pp0 ← index chain 0;
      cw ← Commit v1 v2 pp0;
      proof ← Reduce chain (snd cw) (fst cw);
      k chain (fst cw) proof
  | Some (Panic msg) => Panic msg
  | None => Panic "out of fuel"
  end.

End Examples.

(** *** C2 at one generator

    With [n = 1] the chain is generated and the commitment is computed, and
    [Reduce] panics: there is no proof to verify. *)
Lemma C2_counterexample :
  exists chain pp0 cmt w,
    dory.GeneratePublicParams (C := Model.toy) 1 = Some (Ok chain) /\
    head chain = Some pp0 /\
    dory.Commit Examples.v1_1 Examples.v2_1 pp0 = Ok (cmt, w) /\
    dory.Reduce chain w cmt = Panic "empty vectors".
Proof.
  destruct (GeneratePublicParams_wf (C := Model.toy) 0 ltac:(lia)) as (chain & Hg & Hc).
  destruct chain as [ | pp0 rest]; [destruct Hc | ].
  pose proof Hc as ((Hg1 & Hg2 & _) & _).
  destruct (Commit_Ok (L := ModelLaws.toy_laws) Examples.v1_1 Examples.v2_1 pp0 1
              ltac:(lia) eq_refl eq_refl Hg1 Hg2) as (cmt & HC & _).
  exists (pp0 :: rest), pp0, cmt, (dory.mkWitness Examples.v1_1 Examples.v2_1).
  split; [exact Hg | ]. split; [reflexivity | ]. split; [exact HC | ].
  unfold dory.Reduce. rewrite reduce_level0_panics by apply Hc. reflexivity.
Qed.

Lemma C2_witness_challenges :
  Examples.with_proof (2 ^ Z.of_nat 1) Examples.v1_2 Examples.v2_2
    (fun _ _ proof => Ok (good_challenges proof)) = Ok true.
Proof. vm_compute. reflexivity. Qed.

Lemma C2_dory_complete_witness :
  exists chain cmt proof,
    dory.GeneratePublicParams (2 ^ Z.of_nat 1) = Some (Ok chain) /\
    (exists pp0 w, head chain = Some pp0 /\
                   dory.Commit Examples.v1_2 Examples.v2_2 pp0 = Ok (cmt, w) /\
                   dory.Reduce chain w cmt = Ok proof) /\
    good_challenges proof = true /\
    invertible 3 /\
    dory.VerifyReduce chain cmt proof 3 = Ok None.
Proof.
  destruct (C2_dory_complete (C := Model.toy) (L := ModelLaws.toy_laws) 1
              Examples.v1_2 Examples.v2_2 ltac:(lia) eq_refl eq_refl)
    as (chain & pp0 & cmt & w & proof & Hg & Hh & Hc & Hr & _ & _ & Hv).
  assert (Hgood : good_challenges proof = true).
  { pose proof C2_witness_challenges as Hw. unfold Examples.with_proof in Hw.
    rewrite Hg in Hw. destruct chain as [ | pp0' rest]; [discriminate Hh | ].
    injection Hh as ->. cbn [index lookup list_lookup mbind result_bind] in Hw.
    rewrite Hc in Hw. cbn [mbind result_bind fst snd] in Hw. rewrite Hr in Hw.
    cbn [mbind result_bind] in Hw. injection Hw as Hw. exact Hw. }
  exists chain, cmt, proof. split; [exact Hg | ]. split; [exists pp0, w; auto | ].
  split; [exact Hgood | ]. split; [reflexivity | ].
  apply Hv; [exact Hgood | reflexivity].
Defined.

(** ** The errors of [RingSignature.Verify] *)

Section VerifyErrors.
Context {C : Curve}.
Import threshold.

Lemma atomic_last_acc (sched : list nat) (errs : list error) (cur : error) :
  fold_left (fun cur i => match errs !! i with
                          | Some (Some err) => Some err
                          | _ => cur
                          end) sched cur = cur \/
  exists i err, In i sched /\ errs !! i = Some (Some err) /\
    fold_left (fun cur i => match errs !! i with
                            | Some (Some err) => Some err
                            | _ => cur
                            end) sched cur = Some err.
Proof.
  revert cur. induction sched as [ | i sched IH]; intros cur; simpl; [left; reflexivity | ].
  destruct (errs !! i) as [[err | ] | ] eqn:E.
  - destruct (IH (Some err)) as [-> | (j & err' & Hj & Hl & ->)].
    + right. exists i, err. auto.
    + right. exists j, err'. auto.
  - destruct (IH cur) as [-> | (j & err' & Hj & Hl & ->)]; [left; reflexivity | ].
    right. exists j, err'. auto.
  - destruct (IH cur) as [-> | (j & err' & Hj & Hl & ->)]; [left; reflexivity | ].
    right. exists j, err'. auto.
Qed.

(** What the [atomic.Value] holds was stored by one of the tasks. *)
Lemma atomic_last_Some (sched : list nat) (errs : list error) (err : string) :
  atomic_last sched errs = Some err -> exists i, In i sched /\ errs !! i = Some (Some err).
Proof.
  unfold atomic_last. intros Hl.
  destruct (atomic_last_acc sched errs None) as [E | (i & err' & Hi & Hl' & E)];
    rewrite E in Hl; [discriminate Hl | ].
  injection Hl as <-. exists i. auto.
Qed.

(** When no task fails nothing is stored. *)
Lemma atomic_last_None (sched : list nat) (errs : list error) :
  Forall (fun err => err = None) errs -> atomic_last sched errs = None.
Proof.
  intros Hn. destruct (atomic_last sched errs) as [err | ] eqn:E; [ | reflexivity].
  apply atomic_last_Some in E as (i & _ & Hi).
  rewrite Forall_forall in Hn. apply list_elem_of_lookup_2 in Hi. apply Hn in Hi. discriminate Hi.
Qed.

(** When a task that fails has stored, an error is held. *)
Lemma atomic_last_stored (sched : list nat) (errs : list error) (i : nat) (err : string) :
  In i sched -> errs !! i = Some (Some err) -> exists err', atomic_last sched errs = Some err'.
Proof.
  unfold atomic_last. generalize (@None string). induction sched as [ | j sched IH];
    intros cur Hi Hl; [destruct Hi | ].
  simpl. destruct Hi as [-> | Hi].
  - rewrite Hl. destruct (atomic_last_acc sched errs (Some err)) as [E | (k & err' & _ & _ & E)];
      rewrite E; eauto.
  - apply IH; assumption.
Qed.

(** The two commitments that [Verify] hands to the Dory verifier. *)
Definition first_commitment (rs : RingSignature) (pp : PublicParams) : dory.Commitment :=
  dory.mkCommitment
    (e (G1Sub (G1Mul H (rs_Z rs)) (rs_Y rs)) GenG2)
    (GtMul (e (TagCommitment rs) (ppp_Γ2 (PreProcessedParams_ pp)))
           (A0Inverse (PreProcessedParams_ pp)))
    (rs_B rs).

Definition second_commitment (rs : RingSignature) (pp : PublicParams) (h : Zr)
  : dory.Commitment :=
  dory.mkCommitment (e (G1Mul H h) GenG2) (ppp_D (PreProcessedParams_ pp)) (rs_B rs).

(** The hash [h] of [Verify]. *)
Definition verify_hash (rs : RingSignature) (pp : PublicParams) : result Zr :=
  hashToZr [GtBytes (dory.cD1 (first_commitment rs pp)); G1Bytes (rs_Y rs);
            ppp_digest (PreProcessedParams_ pp)].

Lemma wrap_Some (err : error) (msg err' : string) : wrap err msg = Some err' -> err' = msg.
Proof. destruct err; simpl; [intros [= <-]; reflexivity | discriminate]. Qed.

Lemma Verify_errors (rs : RingSignature) (pp : PublicParams) (m prefix : bytes)
    (d1 d2 : Zr) (sched : list nat) (err : string) :
  Verify rs pp m prefix d1 d2 sched = Ok (Some err) ->
  err = "first Dory proof invalid"%string \/ err = "second Dory proof invalid"%string \/
  err = "tag proof invalid"%string.
Proof.
  unfold Verify. intros Hv.
  repeat match type of Hv with
         | (mbind _ ?m) = _ => destruct m; cbn [mbind result_bind] in Hv; [ | discriminate Hv]
         end.
  injection Hv as Hv. apply atomic_last_Some in Hv as (i & _ & Hi).
  destruct i as [ | [ | [ | i]]]; simpl in Hi; try discriminate Hi;
    injection Hi as Hi; apply wrap_Some in Hi; auto.
Qed.

Lemma Verify_tag_failure (rs : RingSignature) (pp : PublicParams) (m prefix : bytes)
    (d1 d2 : Zr) (sched : list nat) (h : Zr) (dg1 dg2 : bytes) (πt : tag.Proof) (t : G1)
    (terr : string) :
  verify_hash rs pp = Ok h ->
  dory.VerifyReduce (DoryParams pp) (first_commitment rs pp) (DoryProof1 rs) d1 = Ok None ->
  dory.VerifyReduce (DoryParams pp) (second_commitment rs pp h) (DoryProof2 rs) d2 = Ok None ->
  dory.Proof_Digest (DoryProof1 rs) = Ok dg1 ->
  dory.Proof_Digest (DoryProof2 rs) = Ok dg2 ->
  TagProof rs = Some πt -> TagValue rs = Some t ->
  tag.Verify πt t (TagCommitment rs) prefix [m; dg1; dg2] = Ok (Some terr) ->
  In 2%nat sched ->
  Verify rs pp m prefix d1 d2 sched = Ok (Some "tag proof invalid"%string).
Proof.
  intros Hh H1 H2 Hd1 Hd2 Hπ Ht HT Hs. unfold Verify.
  unfold verify_hash, first_commitment in Hh. cbn [dory.cD1] in Hh. rewrite Hh.
  cbn [mbind result_bind]. unfold first_commitment in H1. rewrite H1. cbn [mbind result_bind].
  unfold second_commitment in H2. rewrite H2. cbn [mbind result_bind].
  rewrite Hd1, Hd2, Hπ, Ht. cbn [mbind result_bind]. rewrite HT. cbn [mbind result_bind].
  f_equal. simpl wrap.
  match goal with
  | |- atomic_last sched ?l = _ =>
      destruct (atomic_last_stored sched l 2 "tag proof invalid" Hs eq_refl) as (err' & E)
  end.
  rewrite E. f_equal. apply atomic_last_Some in E as (i & _ & Hi).
  destruct i as [ | [ | [ | i]]]; simpl in Hi; try discriminate Hi. injection Hi as <-. reflexivity.
Qed.

End VerifyErrors.

(** ** [RingSignature.Verify] on signatures of any shape *)

Section VerifyTotal.
Context {C : Curve} {L : CurveLaws C}.
Import threshold.

(** The base case can be indexed: the prover's [PP] pointer is set and its
    generators, [E1] and [E2] are not empty. *)
Definition base_case_shape (sp : dory.ScalarProductProofElements) : bool :=
  match dory.sp_PP sp with
  | Some pp => (0 <? length (dory.Γ1 pp))%nat && (0 <? length (dory.Γ2 pp))%nat
  | None => false
  end && (0 <? length (dory.E1 sp))%nat && (0 <? length (dory.E2 sp))%nat.

(** The digest of the proof can be computed: it is cached, or every step-2
    element carries the digest of its step 1. *)
Definition digest_shape (p : dory.Proof) : bool :=
  (0 <? length (dory.proof_digest p))%nat ||
  forallb (fun s => (0 <? length (dory.ReduceProverStep1ElementsDigest s))%nat)
          (dory.Step2Elements p).

(** A proof with at least [k] rounds, for a chain of [k + 1] levels. *)
Definition proof_shape (k : nat) (p : dory.Proof) : bool :=
  (k <=? length (dory.Step1Elements p))%nat && (k <=? length (dory.Step2Elements p))%nat &&
  base_case_shape (dory.ScalarProductProofElements_ p) && digest_shape p.

Definition well_shaped (k : nat) (rs : RingSignature) : bool :=
  proof_shape k (DoryProof1 rs) && proof_shape k (DoryProof2 rs) &&
  bool_decide (is_Some (TagProof rs)) && bool_decide (is_Some (TagValue rs)).

Lemma ScalarProductProofElements_Verify_total (sp : dory.ScalarProductProofElements)
    (cmt : dory.Commitment) (d : Zr) :
  base_case_shape sp = true ->
  exists err, dory.ScalarProductProofElements_Verify sp cmt d = Ok err.
Proof.
  unfold base_case_shape. intros Hs.
  apply andb_prop in Hs as [Hs He2]. apply andb_prop in Hs as [Hs He1].
  destruct (dory.sp_PP sp) as [pp | ] eqn:Epp; [ | discriminate Hs].
  apply andb_prop in Hs as [Hg1 Hg2].
  apply Nat.ltb_lt in He1, He2, Hg1, Hg2.
  unfold dory.ScalarProductProofElements_Verify. rewrite Epp.
  destruct (dory.E1 sp) as [ | e1 e1s]; [simpl in He1; lia | ].
  destruct (dory.E2 sp) as [ | e2 e2s]; [simpl in He2; lia | ].
  cbn [index lookup list_lookup mbind result_bind].
  destruct (dory.Γ1 pp) as [ | γ1 γ1s]; [simpl in Hg1; lia | ].
  destruct (dory.Γ2 pp) as [ | γ2 γ2s]; [simpl in Hg2; lia | ].
  cbn [index lookup list_lookup mbind result_bind dory.addG1 dory.addG2].
  rewrite mulGt_cons. cbn [mbind result_bind]. cbv zeta.
  match goal with |- context [decide ?P] => destruct (decide P) end; eauto.
Qed.

Lemma nextCommitment_total (k : nat) (pp : dory.PP) (cmt : dory.Commitment) (β α : Zr)
    (D1L D1R D2L D2R Cplus Cminus : Gt) :
  pp_wf (S k) pp ->
  exists next, dory.nextCommitment pp cmt β α D1L D1R D2L D2R Cplus Cminus = Ok next.
Proof.
  intros (_ & _ & _ & _ & _ & d1l & d1r & d2l & d2r & E1 & E2 & E3 & E4 & _).
  unfold dory.nextCommitment. rewrite E1, E2, E3, E4. cbv zeta.
  rewrite mulGt_cons. cbn [dory.deref mbind result_bind].
  rewrite mulGt_cons. cbn [dory.deref mbind result_bind].
  rewrite mulGt_cons. cbn [dory.deref mbind result_bind]. eauto.
Qed.

Lemma verifyReduce_total (k : nat) (pps : list dory.PP) (cmt : dory.Commitment)
    (f1 : list dory.ReduceProverStep1Elements) (f2 : list dory.ReduceProverStep2Elements)
    (sp : dory.ScalarProductProofElements) (d : Zr) :
  chain_wf k pps -> (k <= length f1)%nat -> (k <= length f2)%nat ->
  base_case_shape sp = true ->
  exists err, dory.verifyReduce pps cmt f1 f2 sp d = Ok err.
Proof.
  revert pps cmt f1 f2. induction k as [ | k IH]; intros pps cmt f1 f2 Hc H1 H2 Hs.
  - destruct pps as [ | pp rest]; [destruct Hc | ]. destruct Hc as (_ & ->).
    cbn [dory.verifyReduce]. apply ScalarProductProofElements_Verify_total. exact Hs.
  - destruct pps as [ | pp rest]; [destruct Hc | ].
    destruct Hc as (Hpp & (pp' & Hh & _) & Hrest).
    destruct rest as [ | pp'' rest']; [discriminate Hh | ]. injection Hh as ->.
    destruct f1 as [ | s1 f1]; [simpl in H1; lia | ].
    destruct f2 as [ | s2 f2]; [simpl in H2; lia | ].
    set (pre := dory.mkStep1 (dory.pp_digest pp) [] (dory.D1L s1) (dory.D1R s1) (dory.D2L s1)
                             (dory.D2R s1) (dory.cC cmt) (dory.cD1 cmt) (dory.cD2 cmt)).
    destruct (Step1_RO_Ok pre) as (β & HRO & _).
    destruct (Step2_RO_Ok (dory.mkStep2 (sha256_of (dory.Step1_Bytes pre)) (dory.Cplus s2)
                                        (dory.Cminus s2))) as (α & Hα).
    { apply sha256_of_length. }
    destruct (nextCommitment_total k pp cmt β α (dory.D1L s1) (dory.D1R s1) (dory.D2L s1)
                (dory.D2R s1) (dory.Cplus s2) (dory.Cminus s2) Hpp) as (next & Hnext).
    change (dory.verifyReduce (pp :: pp' :: rest') cmt (s1 :: f1) (s2 :: f2) sp d) with
      (p1 ← index (s1 :: f1) 0;
       let step1Elements :=
         dory.mkStep1 (dory.pp_digest pp) [] (dory.D1L p1) (dory.D1R p1) (dory.D2L p1)
                      (dory.D2R p1) (dory.cC cmt) (dory.cD1 cmt) (dory.cD2 cmt) in
       '(step1Elements, β) ← dory.Step1_RO step1Elements;
       p2 ← index (s2 :: f2) 0;
       let step2Elements :=
         dory.mkStep2 (dory.s1_digest step1Elements) (dory.Cplus p2) (dory.Cminus p2) in
       α ← dory.Step2_RO step2Elements;
       next ← dory.nextCommitment pp cmt β α
                (dory.D1L step1Elements) (dory.D1R step1Elements) (dory.D2L step1Elements)
                (dory.D2R step1Elements) (dory.Cplus p2) (dory.Cminus p2);
       dory.verifyReduce (pp' :: rest') next (drop 1 (s1 :: f1)) (drop 1 (s2 :: f2)) sp d).
    cbn [index lookup list_lookup mbind result_bind]. cbv zeta. fold pre.
    rewrite HRO. cbn [mbind result_bind dory.s1_digest dory.D1L dory.D1R dory.D2L dory.D2R].
    unfold dory.sha256Digest. rewrite Hα. cbn [mbind result_bind].
    cbn [dory.ppDigest dory.D1L dory.D1R dory.D2L dory.D2R pre]. rewrite Hnext.
    cbn [mbind result_bind drop].
    apply IH; try assumption; rewrite drop_0; simpl in H1, H2; lia.
Qed.

Lemma Step2_Bytes_all_total (l : list dory.ReduceProverStep2Elements) :
  forallb (fun s => (0 <? length (dory.ReduceProverStep1ElementsDigest s))%nat) l = true ->
  exists bs, dory.Step2_Bytes_all l = Ok bs.
Proof.
  induction l as [ | s l IH]; simpl; [eauto | ].
  intros Hs. apply andb_prop in Hs as [Hs Hl]. destruct (IH Hl) as (bs & ->).
  unfold dory.Step2_Bytes. apply Nat.ltb_lt in Hs.
  destruct (Nat.eqb_spec (length (dory.ReduceProverStep1ElementsDigest s)) 0) as [E | _]; [lia | ].
  cbn [mbind result_bind]. eauto.
Qed.

Lemma Proof_Digest_total (p : dory.Proof) :
  digest_shape p = true -> exists dg, dory.Proof_Digest p = Ok dg.
Proof.
  unfold digest_shape, dory.Proof_Digest. intros Hs.
  destruct (Nat.eqb_spec (length (dory.proof_digest p)) 0) as [E | _]; [ | eauto].
  rewrite E in Hs. simpl in Hs. unfold dory.Proof_Bytes, dory.ScalarProductProofElements_Bytes.
  destruct (asn1_RawScalarProductProofElements_ok [] []
              (G1v_Bytes (dory.E1 (dory.ScalarProductProofElements_ p)))
              (G2v_Bytes (dory.E2 (dory.ScalarProductProofElements_ p)))) as (sp & ->).
  cbn [mbind result_bind]. destruct (Step2_Bytes_all_total _ Hs) as (bs & ->).
  cbn [mbind result_bind].
  destruct (asn1_RawProof_ok (map dory.Step1_Bytes (dory.Step1Elements p)) bs sp) as (b & ->).
  cbn [mbind result_bind]. eauto.
Qed.

Lemma tag_Verify_total (p : tag.Proof) (t com : G1) (prefix : bytes) (ctx : list bytes) :
  exists err, tag.Verify p t com prefix ctx = Ok err.
Proof.
  unfold tag.Verify, tag.hashToZr.
  destruct (hashToZr_Ok (tag.buildHashContext (tag.pA p) (tag.pB p) ctx)) as (c & -> & _).
  cbn [mbind result_bind]. cbv zeta.
  destruct (bool_decide _); simpl; [ | eauto]. destruct (bool_decide _); simpl; eauto.
Qed.

Lemma Verify_total (k : nat) (rs : RingSignature) (pp : PublicParams) (m prefix : bytes)
    (d1 d2 : Zr) (sched : list nat) :
  chain_wf k (DoryParams pp) -> well_shaped k rs = true ->
  exists err, Verify rs pp m prefix d1 d2 sched = Ok err.
Proof.
  intros Hc Hs. unfold well_shaped in Hs.
  apply andb_prop in Hs as [Hs Ht]. apply andb_prop in Hs as [Hs Hπ].
  apply andb_prop in Hs as [Hp1 Hp2].
  apply bool_decide_eq_true in Hπ as (πt & Hπ). apply bool_decide_eq_true in Ht as (t & Ht).
  unfold proof_shape in Hp1, Hp2.
  apply andb_prop in Hp1 as [Hp1 Hdg1]. apply andb_prop in Hp1 as [Hp1 Hb1].
  apply andb_prop in Hp1 as [Ha1 Hb1']. apply Nat.leb_le in Ha1, Hb1'.
  apply andb_prop in Hp2 as [Hp2 Hdg2]. apply andb_prop in Hp2 as [Hp2 Hb2].
  apply andb_prop in Hp2 as [Ha2 Hb2']. apply Nat.leb_le in Ha2, Hb2'.
  unfold Verify. unfold hashToZr.
  match goal with
  | |- context [FieldElementFromBytes (sha256_of ?inp)] =>
      destruct (hashToZr_Ok inp) as (h & -> & _)
  end.
  cbn [mbind result_bind]. unfold dory.VerifyReduce.
  match goal with
  | |- context [dory.verifyReduce ?pps ?cmt ?f1 ?f2 ?sp d1] =>
      destruct (verifyReduce_total k pps cmt f1 f2 sp d1 Hc Ha1 Hb1' Hb1) as (err1 & ->)
  end.
  cbn [mbind result_bind].
  match goal with
  | |- context [dory.verifyReduce ?pps ?cmt ?f1 ?f2 ?sp d2] =>
      destruct (verifyReduce_total k pps cmt f1 f2 sp d2 Hc Ha2 Hb2' Hb2) as (err2 & ->)
  end.
  cbn [mbind result_bind].
  destruct (Proof_Digest_total _ Hdg1) as (dg1 & ->).
  destruct (Proof_Digest_total _ Hdg2) as (dg2 & ->).
  rewrite Hπ, Ht. cbn [mbind result_bind].
  destruct (tag_Verify_total πt t (TagCommitment rs) prefix [m; dg1; dg2]) as (err3 & ->).
  cbn [mbind result_bind]. eauto.
Qed.

(** A first Dory proof without step-1 elements, under a chain of two or
    more levels: the verifier indexes the empty list. *)
Lemma Verify_short_proof_panics (rs : RingSignature) (pp : PublicParams) (m prefix : bytes)
    (d1 d2 : Zr) (sched : list nat) :
  (2 <= length (DoryParams pp))%nat -> dory.Step1Elements (DoryProof1 rs) = [] ->
  Verify rs pp m prefix d1 d2 sched = Panic "index out of range".
Proof.
  intros Hl He. unfold Verify. unfold hashToZr.
  match goal with
  | |- context [FieldElementFromBytes (sha256_of ?inp)] =>
      destruct (hashToZr_Ok inp) as (h & -> & _)
  end.
  cbn [mbind result_bind]. unfold dory.VerifyReduce. rewrite He.
  destruct (DoryParams pp) as [ | pp0 [ | pp1 rest]]; simpl in Hl; try lia.
  reflexivity.
Qed.

(** Under a generated chain of [k + 1] levels, a proof with fewer than [k]
    step-1 elements, or fewer than [k] step-2 elements, makes the verifier
    index out of range. *)
Lemma verifyReduce_short (k : nat) (pps : list dory.PP) (cmt : dory.Commitment)
    (f1 : list dory.ReduceProverStep1Elements) (f2 : list dory.ReduceProverStep2Elements)
    (sp : dory.ScalarProductProofElements) (d : Zr) :
  chain_wf k pps -> (length f1 < k)%nat \/ (length f2 < k)%nat ->
  dory.verifyReduce pps cmt f1 f2 sp d = Panic "index out of range".
Proof.
  revert pps cmt f1 f2. induction k as [ | k IH]; intros pps cmt f1 f2 Hc Hs; [lia | ].
  destruct pps as [ | pp rest]; [destruct Hc | ].
  destruct Hc as (Hpp & (pp' & Hh & _) & Hrest).
  destruct rest as [ | pp'' rest']; [discriminate Hh | ]. injection Hh as ->.
  change (dory.verifyReduce (pp :: pp' :: rest') cmt f1 f2 sp d) with
    (p1 ← index f1 0;
     let step1Elements :=
       dory.mkStep1 (dory.pp_digest pp) [] (dory.D1L p1) (dory.D1R p1) (dory.D2L p1)
                    (dory.D2R p1) (dory.cC cmt) (dory.cD1 cmt) (dory.cD2 cmt) in
     '(step1Elements, β) ← dory.Step1_RO step1Elements;
     p2 ← index f2 0;
     let step2Elements :=
       dory.mkStep2 (dory.s1_digest step1Elements) (dory.Cplus p2) (dory.Cminus p2) in
     α ← dory.Step2_RO step2Elements;
     next ← dory.nextCommitment pp cmt β α
              (dory.D1L step1Elements) (dory.D1R step1Elements) (dory.D2L step1Elements)
              (dory.D2R step1Elements) (dory.Cplus p2) (dory.Cminus p2);
     dory.verifyReduce (pp' :: rest') next (drop 1 f1) (drop 1 f2) sp d).
  destruct f1 as [ | s1 f1]; [reflexivity | ].
  cbn [index lookup list_lookup mbind result_bind]. cbv zeta.
  set (pre := dory.mkStep1 (dory.pp_digest pp) [] (dory.D1L s1) (dory.D1R s1) (dory.D2L s1)
                           (dory.D2R s1) (dory.cC cmt) (dory.cD1 cmt) (dory.cD2 cmt)).
  destruct (Step1_RO_Ok pre) as (β & HRO & _). rewrite HRO. cbn [mbind result_bind].
  destruct f2 as [ | s2 f2]; [reflexivity | ].
  cbn [index lookup list_lookup mbind result_bind dory.s1_digest dory.D1L dory.D1R dory.D2L
       dory.D2R].
  destruct (Step2_RO_Ok (dory.mkStep2 (dory.sha256Digest (dory.Step1_Bytes pre))
                                      (dory.Cplus s2) (dory.Cminus s2)))
    as (α & Hα); [apply sha256_of_length | ].
  rewrite Hα. cbn [mbind result_bind].
  destruct (nextCommitment_total k pp cmt β α (dory.D1L pre) (dory.D1R pre) (dory.D2L pre)
              (dory.D2R pre) (dory.Cplus s2) (dory.Cminus s2) Hpp) as (next & Hnext).
  rewrite Hnext. cbn [mbind result_bind drop]. rewrite !drop_0.
  apply IH; [exact Hrest | simpl in Hs; lia].
Qed.

(** A proof with fewer rounds than the chain has reductions. *)
Definition short (k : nat) (p : dory.Proof) : Prop :=
  (length (dory.Step1Elements p) < k)%nat \/ (length (dory.Step2Elements p) < k)%nat.

Lemma Verify_short_panics (k : nat) (rs : RingSignature) (pp : PublicParams) (m prefix : bytes)
    (d1 d2 : Zr) (sched : list nat) :
  chain_wf k (DoryParams pp) -> short k (DoryProof1 rs) \/ short k (DoryProof2 rs) ->
  exists msg, Verify rs pp m prefix d1 d2 sched = Panic msg.
Proof.
  intros Hc Hs. unfold Verify. unfold hashToZr.
  match goal with
  | |- context [FieldElementFromBytes (sha256_of ?inp)] =>
      destruct (hashToZr_Ok inp) as (h & -> & _)
  end.
  cbn [mbind result_bind]. unfold dory.VerifyReduce.
  destruct Hs as [Hs | Hs].
  - match goal with
    | |- context [dory.verifyReduce ?pps ?cmt ?f1 ?f2 ?sp d1] =>
        rewrite (verifyReduce_short k pps cmt f1 f2 sp d1 Hc Hs)
    end.
    eexists. reflexivity.
  - match goal with
    | |- context [dory.verifyReduce ?pps ?cmt ?f1 ?f2 ?sp d1] =>
        destruct (dory.verifyReduce pps cmt f1 f2 sp d1) as [err1 | msg]
    end; cbn [mbind result_bind]; [ | eexists; reflexivity].
    match goal with
    | |- context [dory.verifyReduce ?pps ?cmt ?f1 ?f2 ?sp d2] =>
        rewrite (verifyReduce_short k pps cmt f1 f2 sp d2 Hc Hs)
    end.
    eexists. reflexivity.
Qed.

Lemma GeneratePublicParams_chain_wf (k : nat) (chain : list dory.PP) :
  (k < 64)%nat -> dory.GeneratePublicParams (2 ^ Z.of_nat k) = Some (Ok chain) ->
  chain_wf k chain.
Proof.
  intros Hk Hg. destruct (GeneratePublicParams_wf k Hk) as (chain' & Hg' & Hc).
  rewrite Nat2Z.inj_pow in Hg'. change (Z.of_nat 2) with 2 in Hg'.
  rewrite Hg in Hg'. injection Hg' as <-. exact Hc.
Qed.

(** *** C7, for signatures whose pointers are set

    A [RingSignature] of this development is a Go signature whose pointer
    fields are set: [B], [Z], [Y] and [TagCommitment], the target-group
    elements of every step element, the elements of [E1] and [E2], and the
    generators and [χ] of the base-case [PP]; the three pointers that the
    repository itself leaves nil, [TagValue], the tag proof and the pointer to
    the base-case [PP], may be nil. The public parameters likewise have their
    pointer fields set.

    Under the chain generated for [2^k], such a signature whose two Dory
    proofs have at least [k] step-1 and step-2 elements, a base case that can
    be indexed and a digest that can be computed, and whose tag and tag proof
    are set, is verified without panic: [Verify] returns [nil] or an error
    value. And when one of its two Dory proofs has fewer than [k] step-1
    elements or fewer than [k] step-2 elements, [Verify] panics. *)
Theorem C7_verify_total (k : nat) (rs : RingSignature) (pp : PublicParams) (m prefix : bytes)
    (d1 d2 : Zr) (sched : list nat) :
  (k <= 62)%nat ->
  dory.GeneratePublicParams (2 ^ Z.of_nat k) = Some (Ok (DoryParams pp)) ->
  (well_shaped k rs = true -> exists err, Verify rs pp m prefix d1 d2 sched = Ok err) /\
  (short k (DoryProof1 rs) \/ short k (DoryProof2 rs) ->
   exists msg, Verify rs pp m prefix d1 d2 sched = Panic msg).
Proof.
  intros Hk Hg.
  assert (Hc : chain_wf k (DoryParams pp))
    by (apply GeneratePublicParams_chain_wf; [lia | exact Hg]).
  split.
  - intros Hs. apply (Verify_total k); assumption.
  - intros Hs. apply (Verify_short_panics k); assumption.
Qed.

(** *** C5, as the code has it

    An error returned by [Verify] is one of "first Dory proof invalid",
    "second Dory proof invalid" and "tag proof invalid"; and when the two
    Dory proofs are accepted and the tag proof is rejected, for either of its
    two reasons, [Verify] returns "tag proof invalid". *)
Theorem C5_error_taxonomy (rs : RingSignature) (pp : PublicParams) (m prefix : bytes)
    (d1 d2 : Zr) (sched : list nat) :
  (forall err, Verify rs pp m prefix d1 d2 sched = Ok (Some err) ->
     err = "first Dory proof invalid"%string \/ err = "second Dory proof invalid"%string \/
     err = "tag proof invalid"%string) /\
  (forall h dg1 dg2 πt t terr,
     verify_hash rs pp = Ok h ->
     dory.VerifyReduce (DoryParams pp) (first_commitment rs pp) (DoryProof1 rs) d1 = Ok None ->
     dory.VerifyReduce (DoryParams pp) (second_commitment rs pp h) (DoryProof2 rs) d2
       = Ok None ->
     dory.Proof_Digest (DoryProof1 rs) = Ok dg1 ->
     dory.Proof_Digest (DoryProof2 rs) = Ok dg2 ->
     TagProof rs = Some πt -> TagValue rs = Some t ->
     tag.Verify πt t (TagCommitment rs) prefix [m; dg1; dg2] = Ok (Some terr) ->
     In 2%nat sched ->
     Verify rs pp m prefix d1 d2 sched = Ok (Some "tag proof invalid"%string)).
Proof.
  split.
  - intros err. apply Verify_errors.
  - intros h dg1 dg2 πt t terr. apply Verify_tag_failure.
Qed.

End VerifyTotal.

(** ** Completeness of the ring signature *)

Section SignVerify.
Context {C : Curve} {L : CurveLaws C}.
Import threshold.

Lemma locatePK_loop_In (myPK : G1) (ring : Ring) (i : nat) :
  In myPK ring ->
  exists j, locatePK_loop myPK ring i = Ok (myPK, (i + j)%nat) /\ ring !! j = Some myPK.
Proof.
  revert i. induction ring as [ | pk ring IH]; intros i Hin; [destruct Hin | ].
  cbn [locatePK_loop]. destruct (bool_decide_reflect (pk = myPK)) as [-> | Hne].
  - exists 0%nat. rewrite Nat.add_0_r. split; reflexivity.
  - destruct Hin as [E | Hin]; [contradiction | ].
    destruct (IH (S i) Hin) as (j & Hj & Hl). exists (S j).
    rewrite Hj. split; [f_equal; f_equal; lia | exact Hl].
Qed.

(** The value [computeY] accumulates over the ring members [rs] with the
    challenges [cs]. *)
Definition accY (com : G1) (rs : Ring) (cs : list Zr) (res : G1) : G1 :=
  fold_left (fun acc xc => G1Add acc (G1Mul (G1Sub (fst xc) com) (snd xc))) (zip rs cs) res.

Lemma computeY_loop_after (ring : Ring) (i : nat) (c : list Zr) (com : G1) (skip : nat)
    (res : G1) :
  (skip < i)%nat -> length c = length ring ->
  computeY_loop ring i c com skip res = Ok (accY com ring c res).
Proof.
  revert i c res. induction ring as [ | pk ring IH]; intros i c res Hi Hl; [reflexivity | ].
  destruct c as [ | ck c]; [discriminate Hl | ]. cbn [computeY_loop].
  destruct (Nat.eqb_spec i skip) as [E | _]; [lia | ].
  rewrite IH by (simpl in Hl; lia). reflexivity.
Qed.

Lemma computeY_loop_split (ra rb : Ring) (pk : G1) (i : nat) (ca cb : list Zr) (com : G1)
    (skip : nat) (res : G1) :
  (i + length ra = skip)%nat -> length ca = length ra -> length cb = length rb ->
  computeY_loop (ra ++ pk :: rb) i (ca ++ cb) com skip res
  = Ok (accY com rb cb (accY com ra ca res)).
Proof.
  revert i ca res. induction ra as [ | x ra IH]; intros i ca res Hi Ha Hb.
  - destruct ca; [ | discriminate Ha]. cbn [app computeY_loop]. simpl in Hi.
    destruct (Nat.eqb_spec i skip) as [_ | N]; [ | lia].
    apply computeY_loop_after; [lia | exact Hb].
  - destruct ca as [ | ck ca]; [discriminate Ha | ]. cbn [app computeY_loop].
    simpl in Hi. destruct (Nat.eqb_spec i skip) as [E | _]; [lia | ].
    rewrite IH by (simpl in Ha; lia). reflexivity.
Qed.

(** The pairing product of the differences [pk - com] with the challenges. *)
Definition Q (com : G1) (rs : Ring) (cs : list Zr) : Gt :=
  ip (map (fun pk => G1Sub pk com) rs) (map (G2Mul GenG2) cs).

Lemma e_accY (com : G1) (rs : Ring) (cs : list Zr) (res : G1) :
  e (accY com rs cs res) GenG2 = GtMul (e res GenG2) (Q com rs cs).
Proof.
  unfold accY, Q. revert cs res. induction rs as [ | pk rs IH]; intros cs res.
  - simpl. unfold ip. simpl. symmetry. apply GtMul_one_r.
  - destruct cs as [ | c cs].
    + simpl. unfold ip. simpl. symmetry. apply GtMul_one_r.
    + cbn [zip zip_with fold_left map fst snd]. rewrite IH, ip_cons.
      rewrite e_add_l, e_mul_l, e_mul_r. symmetry. apply GtMul_assoc.
Qed.

Lemma Q_app (com : G1) (ra rb : Ring) (ca cb : list Zr) :
  length ra = length ca -> Q com (ra ++ rb) (ca ++ cb) = GtMul (Q com ra ca) (Q com rb cb).
Proof.
  intros Hl. unfold Q. rewrite !map_app. apply ip_app. rewrite !length_map. exact Hl.
Qed.

Lemma Q_cons (com pk : G1) (rs : Ring) (c : Zr) (cs : list Zr) :
  Q com (pk :: rs) (c :: cs) = GtMul (GtExp (e (G1Sub pk com) GenG2) c) (Q com rs cs).
Proof. unfold Q. cbn [map]. rewrite ip_cons, e_mul_r. reflexivity. Qed.

Lemma G2v_Mulv_replicate (g : G2) (cs : list Zr) :
  G2v_Mulv (replicate (length cs) g) cs = Ok (map (G2Mul g) cs).
Proof.
  induction cs as [ | c cs IH]; [reflexivity | ].
  cbn [length replicate G2v_Mulv]. rewrite IH. reflexivity.
Qed.

(** The first witness of [RingProof] against the challenges. *)
Lemma ip_neg_com (com : G1) (rs : Ring) (cs : list Zr) :
  ip (zip_with G1Add (G1v_Neg rs) (replicate (length rs) com)) (map (G2Mul GenG2) cs)
  = GtExp (Q com rs cs) (-1).
Proof.
  unfold Q, G1v_Neg. revert cs. induction rs as [ | pk rs IH]; intros cs.
  - unfold ip. simpl. symmetry. apply GtExp_one.
  - destruct cs as [ | c cs].
    + unfold ip. simpl. symmetry. apply GtExp_one.
    + cbn [length replicate map zip_with]. rewrite !ip_cons, IH, GtExp_mul_base. f_equal.
      replace (G1Add (G1Sub (G1Sub GenG1 GenG1) pk) com) with (G1Mul (G1Sub pk com) (-1))
        by g1_solve.
      rewrite e_mul_l. reflexivity.
Qed.

Lemma ip_neg_l (rs : G1v) (gs : G2v) : ip (G1v_Neg rs) gs = GtExp (ip rs gs) (-1).
Proof.
  unfold G1v_Neg. revert gs. induction rs as [ | pk rs IH]; intros gs.
  - unfold ip. simpl. symmetry. apply GtExp_one.
  - destruct gs as [ | g gs].
    + unfold ip. simpl. symmetry. apply GtExp_one.
    + cbn [map]. rewrite !ip_cons, IH, GtExp_mul_base. f_equal.
      replace (G1Sub (G1Sub GenG1 GenG1) pk) with (G1Mul pk (-1)) by g1_solve.
      apply e_mul_l.
Qed.

Lemma ip_replicate_l (x : G1) (gs : G2v) (a : G2) :
  e x (fold_left G2Add gs a) = GtMul (e x a) (ip (replicate (length gs) x) gs).
Proof.
  revert a. induction gs as [ | g gs IH]; intros a.
  - unfold ip. simpl. symmetry. apply GtMul_one_r.
  - cbn [fold_left length replicate]. rewrite IH, ip_cons, e_add_r.
    symmetry. apply GtMul_assoc.
Qed.

Lemma ip_replicate_scalars (x : G1) (cs : list Zr) :
  ip (replicate (length cs) x) (map (G2Mul GenG2) cs) = GtExp (e x GenG2) (zsum cs).
Proof.
  induction cs as [ | c cs IH].
  - unfold ip. simpl. symmetry. apply GtExp_0.
  - cbn [length replicate map]. rewrite ip_cons, IH, e_mul_r. unfold zsum. cbn [foldr].
    symmetry. apply GtExp_add.
Qed.


Lemma RingProof_challenges_member (key : PrivateKey) (ring : Ring) (r : Zr) (com : G1)
    (A : Gt) (digest : bytes) (y : Zr) (rand_c : nat -> Zr) :
  (2 <= length ring)%nat -> In (G1Mul GenG1 key) ring ->
  exists ra rb ca cb h,
    ring = ra ++ G1Mul GenG1 key :: rb /\
    length ca = length ra /\ length cb = length rb /\
    hashToZr [GtBytes A; G1Bytes (accY com rb cb (accY com ra ca (G1Mul H y))); digest]
      = Ok h /\
    zsum (ca ++ (h - zsum (ca ++ cb)) mod GroupOrder :: cb) mod GroupOrder = h mod GroupOrder /\
    RingProof_challenges key ring r com A digest y rand_c
      = Ok (accY com rb cb (accY com ra ca (G1Mul H y)), h,
            (y + (((h - zsum (ca ++ cb)) mod GroupOrder) * r) mod GroupOrder) mod GroupOrder,
            ca ++ (h - zsum (ca ++ cb)) mod GroupOrder :: cb).
Proof.
  intros Hn Hin.
  destruct (locatePK_loop_In (G1Mul GenG1 key) ring 0 Hin) as (j & Hloc & Hj).
  pose proof (lookup_lt_Some _ _ _ Hj) as Hjlt.
  set (drawn := map rand_c (seq 0 (length ring - 1))).
  assert (Hld : length drawn = (length ring - 1)%nat)
    by (subst drawn; rewrite length_map, length_seq; reflexivity).
  set (ra := take j ring). set (rb := drop (S j) ring).
  set (ca := take j drawn). set (cb := drop j drawn).
  assert (Hring : ring = ra ++ G1Mul GenG1 key :: rb)
    by (symmetry; apply take_drop_middle; exact Hj).
  assert (Hdrawn : drawn = ca ++ cb) by (symmetry; apply take_drop).
  assert (Hla : length ca = length ra)
    by (subst ca ra; rewrite !length_take; lia).
  assert (Hlb : length cb = length rb)
    by (subst cb rb; rewrite !length_drop; lia).
  assert (Hra : length ra = j) by (subst ra; rewrite length_take; lia).
  set (Y := accY com rb cb (accY com ra ca (G1Mul H y))).
  destruct (hashToZr_Ok [GtBytes A; G1Bytes Y; digest]) as (h & Hh & Hhr).
  set (cj := (h - zsum (ca ++ cb)) mod GroupOrder).
  assert (Hsum : zsum (ca ++ cj :: cb) mod GroupOrder = h).
  { rewrite zsum_app. change (zsum (cj :: cb)) with (cj + zsum cb).
    replace (zsum ca + (cj + zsum cb)) with (zsum (ca ++ cb) + cj) by (rewrite zsum_app; lia).
    subst cj. rewrite Zplus_mod_idemp_r.
    replace (zsum (ca ++ cb) + (h - zsum (ca ++ cb))) with h by lia.
    apply Z.mod_small. exact Hhr. }
  exists ra, rb, ca, cb, h.
  split; [exact Hring | ]. split; [exact Hla | ]. split; [exact Hlb | ].
  split; [exact Hh | ].
  split; [fold cj; rewrite Hsum; symmetry; apply Z.mod_small; exact Hhr | ].
  unfold RingProof_challenges.
  destruct (Nat.eqb_spec (length ring) 0) as [E | _]; [lia | ].
  cbn [mbind result_bind]. fold drawn.
  unfold locatePK. rewrite Hloc. cbn [mbind result_bind]. change (0 + j)%nat with j.
  assert (HY : computeY y drawn com ring j = Ok Y).
  { unfold computeY. rewrite Hring at 1. rewrite Hdrawn.
    apply computeY_loop_split; [simpl; exact Hra | exact Hla | exact Hlb]. }
  rewrite HY. cbn [mbind result_bind]. unfold hashToZr in Hh |- *. rewrite Hh.
  cbn [mbind result_bind].
  assert (Hs : sumZr drawn = Ok (zsum drawn mod GroupOrder)).
  { destruct drawn as [ | x l]; [simpl in Hld; lia | apply sumZr_cons]. }
  rewrite Hs. cbn [mbind result_bind]. rewrite challenge_cj.
  replace ((h - zsum drawn) mod GroupOrder) with cj by (subst cj; rewrite <- Hdrawn; reflexivity).
  assert (Hemb : embedInVec drawn cj j = Ok (ca ++ cj :: cb)).
  { unfold embedInVec. rewrite embedInVec_loop_before by lia. rewrite Nat.sub_0_r.
    rewrite decide_True by lia. reflexivity. }
  rewrite Hemb. cbn [mbind result_bind].
  assert (Hs' : sumZr (ca ++ cj :: cb) = Ok h).
  { destruct (ca ++ cj :: cb) as [ | x l] eqn:E.
    - destruct ca; discriminate E.
    - rewrite sumZr_cons. rewrite Hsum. reflexivity. }
  rewrite Hs'. cbn [mbind result_bind]. unfold Zr.Equals. rewrite Z.eqb_refl. reflexivity.
Qed.


Lemma PP_Digest_wf (k : nat) (pp : dory.PP) (prev : bytes) :
  pp_wf k pp -> exists dg, dory.PP_Digest pp prev = Ok dg.
Proof.
  destruct pp as [dg rpp g1 g2 x]. intros (H1 & H2 & _ & Hr). cbn in H1, H2, Hr.
  destruct dg as [ | b dg].
  - apply (PP_Digest_Ok k); assumption.
  - unfold dory.PP_Digest. cbn. eauto.
Qed.

Lemma ComputePreProcessedParams_Ok (k : nat) (chain : list dory.PP) (pp0 : dory.PP)
    (ring : Ring) :
  chain_wf k chain -> head chain = Some pp0 -> length ring = (2 ^ k)%nat ->
  exists dg g gs,
    dory.Γ2 pp0 = g :: gs /\
    ComputePreProcessedParams chain ring
    = Ok (mkPreProcessedParams dg (GtInverse (ip ring (dory.Γ2 pp0)))
            (ip (replicate (length ring) H) (dory.Γ2 pp0))
            (fold_left G2Add gs g) (replicate (length ring) H)).
Proof.
  intros Hc Hh Hl. pose proof (pow2_pos k) as Hpos.
  destruct chain as [ | pp chain']; [discriminate Hh | ]. injection Hh as ->.
  pose proof (chain_wf_length _ _ Hc) as Hlen.
  assert (Hpp : pp_wf k pp0) by (destruct k; apply Hc).
  destruct Hpp as (Hg1 & Hg2 & _).
  destruct (dory.Γ2 pp0) as [ | g gs] eqn:Eg2; [simpl in Hg2; lia | ].
  destruct (lookup_lt_is_Some_2 (pp0 :: chain') (length (pp0 :: chain') - 1)) as (lpp & Hlpp);
    [simpl; lia | ].
  destruct (chain_wf_lookup k _ _ lpp Hc Hlpp) as (_ & Hlwf).
  destruct (PP_Digest_wf _ lpp [] Hlwf) as (d & Hd).
  unfold ComputePreProcessedParams.
  cbn [index lookup list_lookup mbind result_bind]. rewrite Eg2.
  rewrite InnerProd_ip by (simpl in *; lia). cbn [mbind result_bind].
  unfold G1v_Duplicate. rewrite Nat2Z.id. cbn [mbind result_bind].
  rewrite InnerProd_ip by (rewrite length_replicate; simpl in *; lia).
  cbn [mbind result_bind G2v_Sum]. unfold computeDigest. unfold index. rewrite Hlpp.
  cbn [mbind result_bind]. rewrite Hd. cbn [mbind result_bind].
  eexists _, g, gs. split; reflexivity.
Qed.

Lemma Step1_RO_digest (x s : dory.ReduceProverStep1Elements) (β : Zr) :
  dory.Step1_RO x = Ok (s, β) -> length (dory.s1_digest s) = 32%nat.
Proof.
  destruct (Step1_RO_Ok x) as (β' & -> & _). intros [= <- _]. apply sha256_of_length.
Qed.

(** Every step-2 element of a proof returned by [reduce] carries the digest
    of its step 1. *)
Lemma reduce_step2_digests (k : nat) (pps : list dory.PP) (w : dory.Witness)
    (cmt : dory.Commitment) s1 s2 sp :
  chain_wf (S k) pps ->
  length (dory.V1 w) = (2 ^ S k)%nat -> length (dory.V2 w) = (2 ^ S k)%nat ->
  dory.reduce pps w cmt = Ok (s1, s2, sp) ->
  forallb (fun s => (0 <? length (dory.ReduceProverStep1ElementsDigest s))%nat) s2 = true.
Proof.
  revert pps w cmt s1 s2. induction k as [ | k IH]; intros pps w cmt a1 a2 Hc Hv1 Hv2 Hr.
  - destruct pps as [ | pp rest]; [destruct Hc | ].
    destruct Hc as (Hpp & (pp' & Hh & Hn1 & Hn2) & Hrest).
    destruct rest as [ | pp'' rest']; [discriminate Hh | ]. injection Hh as ->.
    rewrite reduce_cons in Hr.
    destruct (reduce_round_Ok 0 pp w cmt Hpp Hv1 Hv2)
      as (s1 & s2 & w' & next & β & α & Hrr & HRO1 & Hβ & Es2 & Hα & Hnext & Lw1 & Lw2 & Hcm).
    rewrite Hrr in Hr. cbn [mbind result_bind] in Hr. destruct Hpp as (Hg1 & _).
    rewrite Hg1 in Hr. change (2 ^ 1 / 2 =? 1)%nat with true in Hr. cbv iota in Hr.
    cbn [index lookup list_lookup mbind result_bind] in Hr. injection Hr as <- <- <-.
    cbn [forallb]. rewrite Es2. cbn [dory.ReduceProverStep1ElementsDigest].
    rewrite (Step1_RO_digest _ _ _ HRO1). reflexivity.
  - destruct pps as [ | pp rest]; [destruct Hc | ].
    destruct Hc as (Hpp & (pp' & Hh & Hn1 & Hn2) & Hrest).
    destruct rest as [ | pp'' rest']; [discriminate Hh | ]. injection Hh as ->.
    rewrite reduce_cons in Hr.
    destruct (reduce_round_Ok (S k) pp w cmt Hpp Hv1 Hv2)
      as (s1 & s2 & w' & next & β & α & Hrr & HRO1 & Hβ & Es2 & Hα & Hnext & Lw1 & Lw2 & Hcm).
    rewrite Hrr in Hr. cbn [mbind result_bind] in Hr. destruct Hpp as (Hg1 & _).
    rewrite Hg1, pow2_half in Hr.
    pose proof (pow2_pos k) as Hpos.
    destruct (Nat.eqb_spec (2 ^ S k) 1) as [E | _]; [simpl in E; lia | ].
    destruct (dory.reduce (pp' :: rest') w' next) as [[[b1 b2] bsp] | msg] eqn:Hrec;
      cbn [mbind result_bind] in Hr; [ | discriminate Hr].
    injection Hr as <- <- <-.
    cbn [forallb]. rewrite (IH _ _ _ _ _ Hrest Lw1 Lw2 Hrec), andb_true_r.
    rewrite Es2. cbn [dory.ReduceProverStep1ElementsDigest].
    rewrite (Step1_RO_digest _ _ _ HRO1). reflexivity.
Qed.

(** [Reduce] under a chain of two or more levels: the proof, its digest and
    its verification. *)
Lemma Reduce_complete (k : nat) (pps : list dory.PP) (pp0 : dory.PP) (w : dory.Witness)
    (cmt : dory.Commitment) :
  chain_wf (S k) pps -> head pps = Some pp0 ->
  length (dory.V1 w) = (2 ^ S k)%nat -> length (dory.V2 w) = (2 ^ S k)%nat ->
  commits (dory.Γ1 pp0) (dory.Γ2 pp0) w cmt ->
  exists π dg,
    dory.Reduce pps w cmt = Ok π /\ dory.Proof_Digest π = Ok dg /\
    (good_challenges π = true ->
     forall d, invertible d -> dory.VerifyReduce pps cmt π d = Ok None).
Proof.
  intros Hc Hh Hv1 Hv2 Hcm.
  destruct (reduce_verify k pps w cmt Hc Hv1 Hv2)
    as (s1 & s2 & sp & Hr & _ & _ & _ & _ & Hv).
  pose proof (reduce_step2_digests k pps w cmt s1 s2 sp Hc Hv1 Hv2 Hr) as Hdg.
  destruct (Proof_Digest_total (dory.mkProof s1 s2 sp [])) as (dg & Hd).
  { unfold digest_shape. cbn [dory.proof_digest dory.Step2Elements length]. exact Hdg. }
  exists (dory.mkProof s1 s2 sp []), dg.
  split; [unfold dory.Reduce; rewrite Hr; reflexivity | ]. split; [exact Hd | ].
  intros Hgood d Hd'. unfold good_challenges in Hgood.
  cbn [dory.Step1Elements dory.Step2Elements] in Hgood.
  apply andb_prop in Hgood as [G1' G2']. unfold dory.VerifyReduce.
  cbn [dory.Step1Elements dory.Step2Elements dory.ScalarProductProofElements_].
  apply Hv; try assumption. intros pp Hpp. rewrite Hh in Hpp. injection Hpp as <-. exact Hcm.
Qed.


Lemma length_G1v_Neg (rs : G1v) : length (G1v_Neg rs) = length rs.
Proof. apply length_map. Qed.

Lemma RingProof_complete (k : nat) (chain : list dory.PP) (pp0 : dory.PP) (ring : Ring)
    (key r y : Zr) (rand_c : nat -> Zr) (dg : bytes) (g : G2) (gs : list G2) :
  chain_wf (S k) chain -> head chain = Some pp0 -> length ring = (2 ^ S k)%nat ->
  In (G1Mul GenG1 key) ring -> dory.Γ2 pp0 = g :: gs ->
  let A0inv := GtInverse (ip ring (dory.Γ2 pp0)) in
  let D := ip (replicate (length ring) H) (dory.Γ2 pp0) in
  let Γ2sum := fold_left G2Add gs g in
  let pp := mkPublicParams
              (mkPreProcessedParams dg A0inv D Γ2sum (replicate (length ring) H)) chain in
  let com := snd (tag.Commit key r) in
  exists π1 π2 B z Y h dg1 dg2,
    RingProof key pp ring r com y rand_c = Ok (mkRingSignature None com None π1 π2 B z Y) /\
    hashToZr [GtBytes (GtMul (e com Γ2sum) A0inv); G1Bytes Y; dg] = Ok h /\
    dory.Proof_Digest π1 = Ok dg1 /\ dory.Proof_Digest π2 = Ok dg2 /\
    (good_challenges π1 = true ->
     forall d, invertible d ->
       dory.VerifyReduce chain
         (dory.mkCommitment (e (G1Sub (G1Mul H z) Y) GenG2) (GtMul (e com Γ2sum) A0inv) B)
         π1 d = Ok None) /\
    (good_challenges π2 = true ->
     forall d, invertible d ->
       dory.VerifyReduce chain (dory.mkCommitment (e (G1Mul H h) GenG2) D B) π2 d = Ok None).
Proof.
  intros Hc Hh Hl Hin Eg2 A0inv D Γ2sum pp com.
  pose proof (pow2_pos (S k)) as Hpos.
  assert (Hn : (2 <= length ring)%nat) by (rewrite Hl; pose proof (pow2_pos k); simpl; lia).
  assert (Hpp : pp_wf (S k) pp0).
  { destruct chain as [ | p chain']; [discriminate Hh | ]. injection Hh as ->. apply Hc. }
  destruct Hpp as (Hg1 & Hg2 & _).
  destruct (RingProof_challenges_member key ring r com (GtMul (e com Γ2sum) A0inv) dg y rand_c
              Hn Hin) as (ra & rb & ca & cb & h & Hring & Hla & Hlb & Hhash & Hsum & Hch).
  set (cj := (h - zsum (ca ++ cb)) mod GroupOrder) in *.
  set (Y := accY com rb cb (accY com ra ca (G1Mul H y))) in *.
  set (z := (y + (cj * r) mod GroupOrder) mod GroupOrder) in *.
  set (c := ca ++ cj :: cb) in *.
  assert (Hlc : length c = length ring).
  { subst c. rewrite Hring, !length_app. simpl. lia. }
  set (G2c := map (G2Mul GenG2) c).
  set (V1 := zip_with G1Add (G1v_Neg ring) (replicate (length ring) com)).
  set (B := ip (dory.Γ1 pp0) G2c).
  (* the two commitments *)
  assert (Hcm1 : commits (dory.Γ1 pp0) (dory.Γ2 pp0) (dory.mkWitness V1 G2c)
                   (dory.mkCommitment (e (G1Sub (G1Mul H z) Y) GenG2)
                                      (GtMul (e com Γ2sum) A0inv) B)).
  { split; [ | split]; cbn [dory.cC dory.cD1 dory.cD2 dory.V1 dory.V2]; [ | | reflexivity].
    - subst V1 G2c. rewrite ip_neg_com. subst c. rewrite Hring at 1.
      rewrite Q_app by (symmetry; exact Hla). rewrite Q_cons.
      replace (G1Sub (G1Mul GenG1 key) com) with (G1Mul H (- r))
        by (subst com; unfold tag.Commit; cbn [snd tag.R]; g1_solve).
      rewrite G1Sub_def, e_add_l, !e_mul_l. subst Y. rewrite !e_accY, e_mul_l.
      subst z. rewrite e_order. rewrite <- (e_order H GenG2 (y + (cj * r) mod GroupOrder)).
      rewrite Zplus_mod_idemp_r, e_order. gt_solve.
    - subst V1 A0inv Γ2sum. rewrite ip_add_l
        by (rewrite length_G1v_Neg, length_replicate; reflexivity).
      rewrite ip_neg_l, Eg2.
      replace (length ring) with (S (length gs)) by (rewrite Eg2 in Hg2; cbn [length] in Hg2; lia).
      cbn [replicate]. rewrite ip_cons, ip_replicate_l. gt_solve. }
  assert (Hcm2 : commits (dory.Γ1 pp0) (dory.Γ2 pp0)
                   (dory.mkWitness (replicate (length ring) H) G2c)
                   (dory.mkCommitment (e (G1Mul H h) GenG2) D B)).
  { split; [ | split]; cbn [dory.cC dory.cD1 dory.cD2 dory.V1 dory.V2]; try reflexivity.
    subst G2c. rewrite <- Hlc, ip_replicate_scalars, e_mul_l.
    rewrite <- (e_order H GenG2 (zsum c)), Hsum. symmetry. apply e_order. }
  assert (LV1 : length V1 = (2 ^ S k)%nat).
  { subst V1. rewrite length_zip_with, length_G1v_Neg, length_replicate. lia. }
  assert (LG2c : length G2c = (2 ^ S k)%nat) by (subst G2c; rewrite length_map; lia).
  destruct (Reduce_complete k chain pp0 (dory.mkWitness V1 G2c) _ Hc Hh LV1 LG2c Hcm1)
    as (π1 & dg1 & HR1 & Hd1 & Hv1).
  assert (LH1 : length (replicate (length ring) H) = (2 ^ S k)%nat)
    by (rewrite length_replicate; exact Hl).
  destruct (Reduce_complete k chain pp0 (dory.mkWitness (replicate (length ring) H) G2c) _
              Hc Hh LH1 LG2c Hcm2) as (π2 & dg2 & HR2 & Hd2 & Hv2).
  exists π1, π2, B, z, Y, h, dg1, dg2.
  split; [ | split; [exact Hhash | split; [exact Hd1 | split; [exact Hd2 | split; assumption]]]].
  unfold RingProof. subst pp. cbn [DoryParams PreProcessedParams_ H1 ppp_D ppp_Γ2 A0Inverse
                                   ppp_digest].
  assert (Hidx : index chain 0 = Ok pp0).
  { destruct chain as [ | p chain']; [discriminate Hh | ]. injection Hh as ->. reflexivity. }
  rewrite Hidx. cbn [mbind result_bind]. fold A0inv Γ2sum. rewrite Hch.
  cbn [mbind result_bind]. unfold G2v_Duplicate. rewrite Nat2Z.id. cbn [mbind result_bind].
  rewrite <- Hlc at 1. rewrite G2v_Mulv_replicate. cbn [mbind result_bind]. fold G2c.
  rewrite InnerProd_ip by lia. cbn [mbind result_bind].
  unfold G1v_Duplicate. rewrite Nat2Z.id. cbn [mbind result_bind].
  rewrite G1v_Add_Ok by (rewrite length_G1v_Neg, length_replicate; reflexivity).
  cbn [mbind result_bind]. fold V1 B. rewrite HR1. cbn [mbind result_bind].
  fold D. rewrite HR2. reflexivity.
Qed.


(** *** C1, with the draws and the challenges invertible

    For a ring of [n = 2^k] members, [1 <= k <= 62], and a private key whose
    public key is in the ring, the chain is generated, the ring is
    preprocessed and [Sign] returns a signature, whatever the message, the
    prefix and the scalars drawn; [Verify] accepts it for all base-case
    scalars [d1], [d2] invertible modulo the group order and every order of
    the three tasks, provided every Fiat-Shamir challenge of the two Dory
    proofs is invertible modulo the group order. *)
Theorem C1_sign_verify (k : nat) (ring : Ring) (sk : Zr) (m prefix : bytes) (r y : Zr)
    (rand_c : nat -> Zr) (ar br : Zr) :
  (1 <= k <= 62)%nat -> length ring = (2 ^ k)%nat -> In (G1Mul GenG1 sk) ring ->
  exists chain ppp σ,
    dory.GeneratePublicParams (2 ^ Z.of_nat k) = Some (Ok chain) /\
    ComputePreProcessedParams chain ring = Ok ppp /\
    Sign sk (mkPublicParams ppp chain) m prefix ring r y rand_c ar br = Ok σ /\
    (good_challenges (DoryProof1 σ) = true -> good_challenges (DoryProof2 σ) = true ->
     forall d1 d2 sched, invertible d1 -> invertible d2 ->
       Verify σ (mkPublicParams ppp chain) m prefix d1 d2 sched = Ok None).
Proof.
  intros Hk Hl Hin. destruct k as [ | k]; [lia | ].
  destruct (GeneratePublicParams_wf (S k) ltac:(lia)) as (chain & Hg & Hc).
  rewrite Nat2Z.inj_pow in Hg. change (Z.of_nat 2) with 2 in Hg.
  destruct chain as [ | pp0 rest] eqn:Echain; [destruct Hc | ]. rewrite <- Echain in *.
  assert (Hh : head chain = Some pp0) by (rewrite Echain; reflexivity).
  destruct (ComputePreProcessedParams_Ok (S k) chain pp0 ring Hc Hh Hl)
    as (dg & g & gs & Eg2 & Hppp).
  destruct (RingProof_complete k chain pp0 ring sk r y rand_c dg g gs Hc Hh Hl Hin Eg2)
    as (π1 & π2 & B & z & Y & h & dg1 & dg2 & HRP & Hhash & Hd1 & Hd2 & Hv1 & Hv2).
  destruct (tag_roundtrip sk prefix [m; dg1; dg2] r ar br) as (πt & HNP & HTV).
  eexists chain, _, _. split; [exact Hg | ]. split; [exact Hppp | ].
  unfold tag.Commit in HRP, HNP, HTV, Hhash, Hv1. cbn [fst snd tag.R] in HRP, HNP, HTV, Hhash, Hv1.
  split.
  - unfold Sign, tag.Commit. cbn [tag.R]. rewrite HRP. cbn [mbind result_bind].
    cbn [DoryProof1 DoryProof2]. rewrite Hd1, Hd2. cbn [mbind result_bind].
    rewrite HNP. cbn [mbind result_bind]. reflexivity.
  - cbn [DoryProof1 DoryProof2 TagCommitment rs_B rs_Z rs_Y].
    intros Hgood1 Hgood2 d1 d2 sched Hi1 Hi2. unfold Verify.
    cbn [DoryProof1 DoryProof2 TagCommitment TagProof TagValue rs_B rs_Z rs_Y
         PreProcessedParams_ DoryParams ppp_Γ2 A0Inverse ppp_D ppp_digest].
    rewrite Hhash. cbn [mbind result_bind].
    rewrite (Hv1 Hgood1 d1 Hi1). cbn [mbind result_bind].
    rewrite (Hv2 Hgood2 d2 Hi2). cbn [mbind result_bind].
    rewrite Hd1, Hd2. cbn [mbind result_bind]. rewrite HTV. cbn [mbind result_bind].
    f_equal. apply atomic_last_None. repeat constructor.
Qed.

End SignVerify.

(** ** A signing run *)

Module Scenario.
Section Scenario.
Context {C : Curve}.
Import threshold.

Definition ring2 : Ring := [G1Mul GenG1 11; G1Mul GenG1 22].
Definition msg : bytes := [x01].
Definition other_msg : bytes := [x03].
Definition prefix : bytes := [x02].
Definition rand_c (i : nat) : Zr := Z.of_nat i + 100.

(** Generate the chain for two ring members, preprocess the ring, sign
    [msg] with the key of the second member, and hand the public parameters
    and the signature to [k]. *)
Definition with_signature {A} (k : PublicParams -> RingSignature -> result A) : result A :=
  match dory.GeneratePublicParams 2 with
  | Some (Ok chain) =>
      ppp ← ComputePreProcessedParams chain ring2;
      let pp := mkPublicParams ppp chain in
      σ ← Sign 22 pp msg prefix ring2 5 6 rand_c 8 9;
      k pp σ
  | Some (Panic msg) => Panic msg
  | None => Panic "out of fuel"
  end.

Definition deref {A} (o : option A) : result A :=
  match o with
  | Some a => Ok a
  | None => Panic "nil pointer dereference"
  end.

(** What the verifier's three tasks return on the signature when the
    message is [other_msg], what [Verify] returns when the first base-case
    scalar drawn is zero, and whether the challenges of the two Dory proofs
    are invertible. *)
Definition observations (pp : PublicParams) (σ : RingSignature)
  : result (error * error * error * error * bool * bool) :=
  h ← verify_hash σ pp;
  r1 ← dory.VerifyReduce (DoryParams pp) (first_commitment σ pp) (DoryProof1 σ) 3;
  r2 ← dory.VerifyReduce (DoryParams pp) (second_commitment σ pp h) (DoryProof2 σ) 4;
  dg1 ← dory.Proof_Digest (DoryProof1 σ);
  dg2 ← dory.Proof_Digest (DoryProof2 σ);
  πt ← deref (TagProof σ);
  t ← deref (TagValue σ);
  terr ← tag.Verify πt t (TagCommitment σ) prefix [other_msg; dg1; dg2];
  e0 ← Verify σ pp msg prefix 0 4 [0; 1; 2]%nat;
  Ok (r1, r2, terr, e0, good_challenges (DoryProof1 σ), good_challenges (DoryProof2 σ)).

(** The signature with the rounds of its first Dory proof removed. *)
Definition truncate (rs : RingSignature) : RingSignature :=
  mkRingSignature (TagProof rs) (TagCommitment rs) (TagValue rs)
    (dory.mkProof [] [] (dory.ScalarProductProofElements_ (DoryProof1 rs)) [])
    (DoryProof2 rs) (rs_B rs) (rs_Z rs) (rs_Y rs).

(** A signature of the right shape for two ring members, with arbitrary
    group elements. *)
Definition shaped_proof : dory.Proof :=
  dory.mkProof
    [dory.mkStep1 [] [] GtOne GtOne GtOne GtOne GtOne GtOne GtOne]
    [dory.mkStep2 [x00] GtOne GtOne]
    (dory.mkScalarProductProofElements
       (Some (dory.mkPP [] (dory.mkReducePP [] [] None None None None) [GenG1] [GenG2] GtOne))
       [GenG1] [GenG2])
    [].

Definition shaped_signature : RingSignature :=
  mkRingSignature (Some (tag.mkProof GenG1 GenG1 0 0)) GenG1 (Some GenG1)
                  shaped_proof shaped_proof GtOne 0 GenG1.

Lemma with_signature_inv {A} (k : PublicParams -> RingSignature -> result A) (a : A) :
  with_signature k = Ok a ->
  exists chain ppp σ,
    dory.GeneratePublicParams 2 = Some (Ok chain) /\
    ComputePreProcessedParams chain ring2 = Ok ppp /\
    Sign 22 (mkPublicParams ppp chain) msg prefix ring2 5 6 rand_c 8 9 = Ok σ /\
    k (mkPublicParams ppp chain) σ = Ok a.
Proof.
  unfold with_signature.
  destruct (dory.GeneratePublicParams 2) as [[chain | ?] | ]; try discriminate.
  intros Hr. apply bind_Ok_inv in Hr as (ppp & Hp & Hr). cbv zeta in Hr.
  apply bind_Ok_inv in Hr as (σ & Hs & Hr). exists chain, ppp, σ. auto.
Qed.

Lemma observations_inv (pp : PublicParams) (σ : RingSignature) (r1 r2 terr e0 : error)
    (b1 b2 : bool) :
  observations pp σ = Ok (r1, r2, terr, e0, b1, b2) ->
  exists h dg1 dg2 πt t,
    verify_hash σ pp = Ok h /\
    dory.VerifyReduce (DoryParams pp) (first_commitment σ pp) (DoryProof1 σ) 3 = Ok r1 /\
    dory.VerifyReduce (DoryParams pp) (second_commitment σ pp h) (DoryProof2 σ) 4 = Ok r2 /\
    dory.Proof_Digest (DoryProof1 σ) = Ok dg1 /\
    dory.Proof_Digest (DoryProof2 σ) = Ok dg2 /\
    TagProof σ = Some πt /\ TagValue σ = Some t /\
    tag.Verify πt t (TagCommitment σ) prefix [other_msg; dg1; dg2] = Ok terr /\
    Verify σ pp msg prefix 0 4 [0; 1; 2]%nat = Ok e0 /\
    good_challenges (DoryProof1 σ) = b1 /\ good_challenges (DoryProof2 σ) = b2.
Proof.
  unfold observations. intros Hr.
  apply bind_Ok_inv in Hr as (h & Hh & Hr).
  apply bind_Ok_inv in Hr as (r1' & H1 & Hr).
  apply bind_Ok_inv in Hr as (r2' & H2 & Hr).
  apply bind_Ok_inv in Hr as (dg1 & Hd1 & Hr).
  apply bind_Ok_inv in Hr as (dg2 & Hd2 & Hr).
  apply bind_Ok_inv in Hr as (πt & Hπ & Hr).
  apply bind_Ok_inv in Hr as (t & Ht & Hr).
  apply bind_Ok_inv in Hr as (terr' & HT & Hr).
  apply bind_Ok_inv in Hr as (e0' & H0 & Hr).
  injection Hr as -> -> -> -> Hb1 Hb2.
  destruct (TagProof σ) as [πt' | ]; [ | discriminate Hπ]. injection Hπ as ->.
  destruct (TagValue σ) as [t' | ]; [ | discriminate Ht]. injection Ht as ->.
  exists h, dg1, dg2, πt, t. repeat split; assumption.
Qed.

Lemma shaped_signature_well_shaped : well_shaped 1 shaped_signature = true.
Proof. reflexivity. Qed.

End Scenario.
End Scenario.

Lemma signature_observations :
  Scenario.with_signature (C := Model.toy) Scenario.observations
  = Ok (None, None, Some "tag proof mismatch"%string, Some "first Dory proof invalid"%string,
        true, true).
Proof. vm_compute. reflexivity. Qed.

(** The facts of the signing run, for the signature it returns. *)
Lemma signature_facts :
  exists chain ppp σ h dg1 dg2 πt t,
    let pp := threshold.mkPublicParams ppp chain in
    dory.GeneratePublicParams (C := Model.toy) 2 = Some (Ok chain) /\
    threshold.ComputePreProcessedParams chain Scenario.ring2 = Ok ppp /\
    threshold.Sign 22 pp Scenario.msg Scenario.prefix Scenario.ring2 5 6 Scenario.rand_c 8 9
      = Ok σ /\
    verify_hash σ pp = Ok h /\
    dory.VerifyReduce chain (first_commitment σ pp) (threshold.DoryProof1 σ) 3 = Ok None /\
    dory.VerifyReduce chain (second_commitment σ pp h) (threshold.DoryProof2 σ) 4 = Ok None /\
    dory.Proof_Digest (threshold.DoryProof1 σ) = Ok dg1 /\
    dory.Proof_Digest (threshold.DoryProof2 σ) = Ok dg2 /\
    threshold.TagProof σ = Some πt /\ threshold.TagValue σ = Some t /\
    tag.Verify πt t (threshold.TagCommitment σ) Scenario.prefix [Scenario.other_msg; dg1; dg2]
      = Ok (Some "tag proof mismatch"%string) /\
    threshold.Verify σ pp Scenario.msg Scenario.prefix 0 4 [0; 1; 2]%nat
      = Ok (Some "first Dory proof invalid"%string) /\
    good_challenges (threshold.DoryProof1 σ) = true /\
    good_challenges (threshold.DoryProof2 σ) = true.
Proof.
  destruct (Scenario.with_signature_inv _ _ signature_observations)
    as (chain & ppp & σ & Hg & Hp & Hs & Ho).
  apply Scenario.observations_inv in Ho
    as (h & dg1 & dg2 & πt & t & Hh & H1 & H2 & Hd1 & Hd2 & Hπ & Ht & HT & H0 & Hb1 & Hb2).
  exists chain, ppp, σ, h, dg1, dg2, πt, t. cbv zeta.
  repeat (split; [assumption | ]). assumption.
Qed.

(** *** C1 at a zero draw

    The signature of the run is rejected when the first base-case scalar
    drawn by the verifier is zero. *)
Lemma C1_counterexample :
  exists chain ppp σ,
    dory.GeneratePublicParams (C := Model.toy) 2 = Some (Ok chain) /\
    threshold.ComputePreProcessedParams chain Scenario.ring2 = Ok ppp /\
    threshold.Sign 22 (threshold.mkPublicParams ppp chain) Scenario.msg Scenario.prefix
      Scenario.ring2 5 6 Scenario.rand_c 8 9 = Ok σ /\
    threshold.Verify σ (threshold.mkPublicParams ppp chain) Scenario.msg Scenario.prefix
      0 4 [0; 1; 2]%nat = Ok (Some "first Dory proof invalid"%string).
Proof.
  destruct signature_facts as (chain & ppp & σ & h & dg1 & dg2 & πt & t & Hf).
  cbv zeta in Hf. exists chain, ppp, σ. tauto.
Qed.

Lemma C1_sign_verify_witness :
  exists chain ppp σ,
    dory.GeneratePublicParams (C := Model.toy) (2 ^ Z.of_nat 1) = Some (Ok chain) /\
    threshold.ComputePreProcessedParams chain Scenario.ring2 = Ok ppp /\
    threshold.Sign 22 (threshold.mkPublicParams ppp chain) Scenario.msg Scenario.prefix
      Scenario.ring2 5 6 Scenario.rand_c 8 9 = Ok σ /\
    threshold.Verify σ (threshold.mkPublicParams ppp chain) Scenario.msg Scenario.prefix
      3 4 [0; 1; 2]%nat = Ok None.
Proof.
  destruct (C1_sign_verify (L := ModelLaws.toy_laws) 1 Scenario.ring2 22 Scenario.msg
              Scenario.prefix 5 6 Scenario.rand_c 8 9)
    as (chain & ppp & σ & Hg & Hp & Hs & Hv).
  - lia.
  - reflexivity.
  - right. left. reflexivity.
  - exists chain, ppp, σ. split; [exact Hg | ]. split; [exact Hp | ]. split; [exact Hs | ].
    destruct signature_facts as (chain' & ppp' & σ' & h & dg1 & dg2 & πt & t & Hf).
    cbv zeta in Hf.
    destruct Hf as (Hg' & Hp' & Hs' & _ & _ & _ & _ & _ & _ & _ & _ & _ & Hb1 & Hb2).
    change (2 ^ Z.of_nat 1) with 2 in Hg. rewrite Hg in Hg'. injection Hg' as <-.
    rewrite Hp in Hp'. injection Hp' as <-. rewrite Hs in Hs'. injection Hs' as <-.
    apply Hv; [exact Hb1 | exact Hb2 | vm_compute; reflexivity | vm_compute; reflexivity].
Defined.

(** *** C5 at a changed message

    The signature of the run, verified against another message: the two
    Dory proofs are accepted, the tag proof is rejected with "tag proof
    mismatch", and [Verify] returns "tag proof invalid". *)
Lemma C5_counterexample :
  exists chain ppp σ,
    dory.GeneratePublicParams (C := Model.toy) 2 = Some (Ok chain) /\
    threshold.ComputePreProcessedParams chain Scenario.ring2 = Ok ppp /\
    threshold.Sign 22 (threshold.mkPublicParams ppp chain) Scenario.msg Scenario.prefix
      Scenario.ring2 5 6 Scenario.rand_c 8 9 = Ok σ /\
    threshold.Verify σ (threshold.mkPublicParams ppp chain) Scenario.other_msg Scenario.prefix
      3 4 [0; 1; 2]%nat = Ok (Some "tag proof invalid"%string).
Proof.
  destruct signature_facts as (chain & ppp & σ & h & dg1 & dg2 & πt & t & Hf).
  cbv zeta in Hf.
  destruct Hf as (Hg & Hp & Hs & Hh & H1 & H2 & Hd1 & Hd2 & Hπ & Ht & HT & _).
  exists chain, ppp, σ. split; [exact Hg | ]. split; [exact Hp | ]. split; [exact Hs | ].
  apply (Verify_tag_failure σ (threshold.mkPublicParams ppp chain) Scenario.other_msg
           Scenario.prefix 3 4 [0; 1; 2]%nat h dg1 dg2 πt t "tag proof mismatch");
    try assumption.
  right. right. left. reflexivity.
Qed.

Lemma C5_error_taxonomy_witness :
  exists chain ppp σ,
    dory.GeneratePublicParams (C := Model.toy) 2 = Some (Ok chain) /\
    threshold.ComputePreProcessedParams chain Scenario.ring2 = Ok ppp /\
    threshold.Sign 22 (threshold.mkPublicParams ppp chain) Scenario.msg Scenario.prefix
      Scenario.ring2 5 6 Scenario.rand_c 8 9 = Ok σ /\
    forall sched, In 2%nat sched ->
      threshold.Verify σ (threshold.mkPublicParams ppp chain) Scenario.other_msg
        Scenario.prefix 3 4 sched = Ok (Some "tag proof invalid"%string).
Proof.
  destruct signature_facts as (chain & ppp & σ & h & dg1 & dg2 & πt & t & Hf).
  cbv zeta in Hf.
  destruct Hf as (Hg & Hp & Hs & Hh & H1 & H2 & Hd1 & Hd2 & Hπ & Ht & HT & _).
  exists chain, ppp, σ. split; [exact Hg | ]. split; [exact Hp | ]. split; [exact Hs | ].
  intros sched Hin.
  apply (proj2 (C5_error_taxonomy σ (threshold.mkPublicParams ppp chain) Scenario.other_msg
                  Scenario.prefix 3 4 sched) h dg1 dg2 πt t "tag proof mismatch");
    assumption.
Defined.

(** *** C7 at a proof without rounds

    The signature of the run with the rounds of its first Dory proof
    removed: [Verify] panics at the first index into the empty list. *)
Lemma C7_counterexample :
  exists chain ppp σ,
    dory.GeneratePublicParams (C := Model.toy) 2 = Some (Ok chain) /\
    threshold.ComputePreProcessedParams chain Scenario.ring2 = Ok ppp /\
    threshold.Sign 22 (threshold.mkPublicParams ppp chain) Scenario.msg Scenario.prefix
      Scenario.ring2 5 6 Scenario.rand_c 8 9 = Ok σ /\
    threshold.Verify (Scenario.truncate σ) (threshold.mkPublicParams ppp chain) Scenario.msg
      Scenario.prefix 3 4 [0; 1; 2]%nat = Panic "index out of range".
Proof.
  destruct signature_facts as (chain & ppp & σ & h & dg1 & dg2 & πt & t & Hf).
  cbv zeta in Hf. destruct Hf as (Hg & Hp & Hs & _).
  exists chain, ppp, σ. split; [exact Hg | ]. split; [exact Hp | ]. split; [exact Hs | ].
  apply (Verify_short_proof_panics (L := ModelLaws.toy_laws)); [ | reflexivity].
  cbn [threshold.DoryParams].
  rewrite (chain_wf_length 1 chain); [lia | ].
  apply GeneratePublicParams_chain_wf; [lia | exact Hg].
Qed.

Lemma C7_verify_total_witness :
  exists chain err,
    dory.GeneratePublicParams (C := Model.toy) (2 ^ Z.of_nat 1) = Some (Ok chain) /\
    threshold.Verify Scenario.shaped_signature
      (threshold.mkPublicParams (threshold.mkPreProcessedParams [] GtOne GtOne GenG2 []) chain)
      Scenario.msg Scenario.prefix 3 4 [0; 1; 2]%nat = Ok err.
Proof.
  destruct (GeneratePublicParams_wf (C := Model.toy) 1 ltac:(lia)) as (chain & Hg & _).
  rewrite Nat2Z.inj_pow in Hg. change (Z.of_nat 2) with 2 in Hg.
  destruct (C7_verify_total (L := ModelLaws.toy_laws) 1 Scenario.shaped_signature
              (threshold.mkPublicParams (threshold.mkPreProcessedParams [] GtOne GtOne GenG2 [])
                                        chain)
              Scenario.msg Scenario.prefix 3 4 [0; 1; 2]%nat) as (Htotal & _).
  - lia.
  - exact Hg.
  - destruct Htotal as (err & Hv); [reflexivity | ].
    exists chain, err. split; [exact Hg | exact Hv].
Defined.

(** * Further properties of the code *)

(** ** Package [common]: vectors and inner products *)

Section VectorShapes.
Context {C : Curve}.

(** X1. [InnerProd] checks the lengths first and emptiness second. *)
Theorem InnerProd_panics (a : G1v) (b : G2v) :
  (length a <> length b -> InnerProd a b = Panic "length mismatch") /\
  (length a = length b -> length a = 0%nat -> InnerProd a b = Panic "empty vectors") /\
  (length a = length b -> (0 < length a)%nat -> is_Ok (InnerProd a b)).
Proof.
  unfold InnerProd. split; [ | split].
  - intros Hne. destruct (Nat.eqb_spec (length a) (length b)); [contradiction | reflexivity].
  - intros He H0. rewrite He, Nat.eqb_refl. simpl negb. cbv iota.
    destruct a; [reflexivity | discriminate H0].
  - intros He Hpos. rewrite He, Nat.eqb_refl. simpl negb. cbv iota.
    destruct a as [ | x [ | x' a]]; [simpl in Hpos; lia | | ];
      (destruct b as [ | y b]; [discriminate He | eexists; reflexivity]).
Qed.

(** X2. [Add] has the length of the receiver: the elements of a longer
    argument beyond it are not read, and a shorter argument makes the loop
    index out of range. *)
Theorem G1v_Add_lengths (a b : G1v) :
  ((length a <= length b)%nat -> G1v_Add a b = Ok (zip_with G1Add a (take (length a) b))) /\
  ((length b < length a)%nat -> G1v_Add a b = Panic "index out of range").
Proof.
  split; revert b; induction a as [ | x a IH]; intros b Hl.
  - reflexivity.
  - destruct b as [ | y b]; [simpl in Hl; lia | ]. cbn [G1v_Add length take zip_with].
    rewrite IH by (simpl in Hl; lia). reflexivity.
  - simpl in Hl. lia.
  - destruct b as [ | y b]; [reflexivity | ]. cbn [G1v_Add].
    rewrite IH by (simpl in Hl; lia). reflexivity.
Qed.

(** X3. [Mulv] has the length of the receiver: scalars beyond it are not
    read, and too few scalars make the loop index out of range. *)
Theorem G2v_Mulv_lengths (g : G2v) (x : list Zr) :
  ((length g <= length x)%nat -> G2v_Mulv g x = Ok (zip_with G2Mul g (take (length g) x))) /\
  ((length x < length g)%nat -> G2v_Mulv g x = Panic "index out of range").
Proof.
  split; revert x; induction g as [ | a g IH]; intros x Hl.
  - reflexivity.
  - destruct x as [ | y x]; [simpl in Hl; lia | ]. cbn [G2v_Mulv length take zip_with].
    rewrite IH by (simpl in Hl; lia). reflexivity.
  - simpl in Hl. lia.
  - destruct x as [ | y x]; [reflexivity | ]. cbn [G2v_Mulv].
    rewrite IH by (simpl in Hl; lia). reflexivity.
Qed.

(** X4. [Duplicate] wants one element; it returns [n] copies, none for a
    negative [n]. *)
Theorem G1v_Duplicate_spec (v : G1v) (n : Z) :
  (length v <> 1%nat -> G1v_Duplicate v n = Panic "length should be 1") /\
  (forall g, v = [g] ->
     exists res, G1v_Duplicate v n = Ok res /\ Z.of_nat (length res) = Z.max 0 n /\
                 Forall (fun x => x = g) res).
Proof.
  split.
  - intros Hl. destruct v as [ | g [ | g' v]]; try reflexivity. contradiction.
  - intros g ->. eexists. split; [reflexivity | ]. split.
    + rewrite length_replicate. lia.
    + apply Forall_replicate. reflexivity.
Qed.

(** [Sum] panics on the empty vector. *)
Theorem G2v_Sum_empty : G2v_Sum [] = Panic "index out of range".
Proof. reflexivity. Qed.


(** ** Package [dory]: the generators *)

Lemma byte_of_Z_period (x : Z) : byte_of_Z (x + 65536) = byte_of_Z x.
Proof.
  unfold byte_of_Z. replace (x + 65536) with (x + 256 * 256) by lia.
  rewrite Z_mod_plus_full. reflexivity.
Qed.

Lemma byte_of_Z_shiftr_period (x : Z) :
  byte_of_Z (Z.shiftr (x + 65536) 8) = byte_of_Z (Z.shiftr x 8).
Proof.
  rewrite !Z.shiftr_div_pow2 by lia. change (2 ^ 8) with 256.
  replace (x + 65536) with (x + 256 * 256) by lia.
  rewrite Z.div_add by lia. unfold byte_of_Z.
  replace (x / 256 + 256) with (x / 256 + 1 * 256) by lia.
  rewrite Z_mod_plus_full. reflexivity.
Qed.

Lemma pseudo_seed_period (n i : Z) :
  dory.pseudo_seed n (i + 65536) = dory.pseudo_seed n i /\
  dory.pseudo_seed (n + 65536) i = dory.pseudo_seed n i.
Proof.
  unfold dory.pseudo_seed. rewrite !byte_of_Z_period, !byte_of_Z_shiftr_period. split; reflexivity.
Qed.

(** X5. [psuedoRandomG1] and [psuedoRandomG2] hash the two low bytes of [n] and
    of [i]: the generator at index [i + 65536] is the generator at index
    [i], and the generators for [n + 65536] are those for [n]. *)
Theorem generators_period (n i : Z) :
  dory.psuedoRandomG1 n (i + 65536) = dory.psuedoRandomG1 n i /\
  dory.psuedoRandomG2 n (i + 65536) = dory.psuedoRandomG2 n i /\
  dory.psuedoRandomG1 (n + 65536) i = dory.psuedoRandomG1 n i /\
  dory.psuedoRandomG2 (n + 65536) i = dory.psuedoRandomG2 n i.
Proof.
  unfold dory.psuedoRandomG1, dory.psuedoRandomG2.
  destruct (pseudo_seed_period n i) as (-> & ->). repeat split.
Qed.

Lemma lookup_map {A B} (f : A -> B) (l : list A) (i : nat) :
  map f l !! i = option_map f (l !! i).
Proof.
  revert i. induction l as [ | x l IH]; intros [ | i]; simpl; try reflexivity. apply IH.
Qed.

(** X6. A vector of more than 65536 generators repeats itself. *)
Theorem randomG1Vector_repeats (n : Z) (v : G1v) (i j : nat) :
  dory.randomG1Vector n = Ok v -> Z.of_nat j = Z.of_nat i + 65536 -> Z.of_nat j < n ->
  v !! j = v !! i.
Proof.
  unfold dory.randomG1Vector. destruct (Z.ltb_spec n 0) as [Hn | Hn]; [discriminate | ].
  intros [= <-] Hj Hlt.
  unfold G1v. rewrite !lookup_map. rewrite !lookup_seq_lt by lia. cbn [option_map Nat.add].
  f_equal. rewrite Hj. unfold dory.psuedoRandomG1.
  destruct (pseudo_seed_period n (Z.of_nat i)) as (-> & _). reflexivity.
Qed.

End VectorShapes.

(** ** Package [dory]: which sizes have public parameters *)

Section ParameterSizes.
Context {C : Curve}.
Import dory.

Lemma randomG1Vector_Ok (n : Z) :
  0 <= n -> exists v, randomG1Vector n = Ok v /\ length v = Z.to_nat n.
Proof.
  intros Hn. destruct (length_randomG1Vector (Z.to_nat n)) as (v & Hv & Hl).
  rewrite Z2Nat.id in Hv by lia. eauto.
Qed.

Lemma randomG2Vector_Ok (n : Z) :
  0 <= n -> exists v, randomG2Vector n = Ok v /\ length v = Z.to_nat n.
Proof.
  intros Hn. destruct (length_randomG2Vector (Z.to_nat n)) as (v & Hv & Hl).
  rewrite Z2Nat.id in Hv by lia. eauto.
Qed.

Lemma InnerProd_mismatch (a : G1v) (b : G2v) :
  length a <> length b -> InnerProd a b = Panic "length mismatch".
Proof.
  intros Hne. unfold InnerProd.
  destruct (Nat.eqb_spec (length a) (length b)); [contradiction | reflexivity].
Qed.

Lemma InnerProd_Ok_lengths (a : G1v) (b : G2v) (g : Gt) :
  InnerProd a b = Ok g -> length a = length b /\ (0 < length a)%nat.
Proof.
  unfold InnerProd. destruct (Nat.eqb_spec (length a) (length b)) as [E | N];
    [ | discriminate].
  simpl negb. cbv iota. destruct a as [ | x a]; [discriminate | ].
  intros _. split; [exact E | simpl; lia].
Qed.

(** [reducePP] halves the generators with [n / 2] rounded down: for an odd
    [n] above one the right half is one longer than the new generators. *)
Lemma reducePP_odd (g1 : G1v) (g2 : G2v) (n : Z) :
  3 <= n -> Z.odd n = true -> length g1 = Z.to_nat n -> length g2 = Z.to_nat n ->
  reducePP g1 g2 n = Panic "length mismatch".
Proof.
  intros Hn Hodd H1 H2. unfold reducePP.
  destruct (Z.eqb_spec n 1) as [E | _]; [lia | ].
  assert (Hq : n = 2 * (n ÷ 2) + 1).
  { rewrite Z.quot_div_nonneg by lia. rewrite (Z.div_mod n 2) at 1 by lia.
    rewrite Zmod_odd, Hodd. reflexivity. }
  set (m := n ÷ 2) in *.
  rewrite !slice_ok by lia. cbn [mbind result_bind].
  destruct (randomG1Vector_Ok m) as (p1 & -> & Hp1); [lia | ].
  destruct (randomG2Vector_Ok m) as (p2 & -> & Hp2); [lia | ].
  cbn [mbind result_bind].
  destruct (InnerProd_is_Ok (take (Z.to_nat m - 0) (drop 0 g1)) p2) as (d & ->).
  { rewrite length_take, length_drop. lia. }
  { rewrite length_take, length_drop. lia. }
  cbn [mbind result_bind].
  rewrite (InnerProd_mismatch (take (length g1 - Z.to_nat m) (drop (Z.to_nat m) g1)) p2);
    [reflexivity | ].
  rewrite length_take, length_drop. lia.
Qed.

(** What a successful [reducePP] tells about [n] and about its result. *)
Lemma reducePP_Ok (g1 : G1v) (g2 : G2v) (n : Z) (rpp : ReducePP) :
  1 <= n -> length g1 = Z.to_nat n -> length g2 = Z.to_nat n ->
  reducePP g1 g2 n = Ok rpp ->
  n = 1 \/ (Z.even n = true /\ length (Γ1Prime rpp) = Z.to_nat (n ÷ 2)
            /\ length (Γ2Prime rpp) = Z.to_nat (n ÷ 2)).
Proof.
  intros Hn H1 H2 Hr. destruct (Z.eq_dec n 1) as [E | Hne]; [left; exact E | right].
  destruct (Z.odd n) eqn:Hodd.
  - assert (Hn3 : 3 <= n).
    { destruct (Z.eq_dec n 2) as [E | N]; [rewrite E in Hodd; discriminate Hodd | lia]. }
    rewrite reducePP_odd in Hr by assumption. discriminate Hr.
  - split; [rewrite <- Z.negb_odd, Hodd; reflexivity | ].
    unfold reducePP in Hr. destruct (Z.eqb_spec n 1) as [E | _]; [contradiction | ].
    apply bind_Ok_inv in Hr as (? & _ & Hr). apply bind_Ok_inv in Hr as (? & _ & Hr).
    apply bind_Ok_inv in Hr as (? & _ & Hr). apply bind_Ok_inv in Hr as (? & _ & Hr).
    apply bind_Ok_inv in Hr as (p1 & Hp1 & Hr). apply bind_Ok_inv in Hr as (p2 & Hp2 & Hr).
    apply bind_Ok_inv in Hr as (? & _ & Hr). apply bind_Ok_inv in Hr as (? & _ & Hr).
    apply bind_Ok_inv in Hr as (? & _ & Hr). apply bind_Ok_inv in Hr as (? & _ & Hr).
    injection Hr as <-. cbn [Γ1Prime Γ2Prime].
    assert (Hm : 0 <= n ÷ 2) by (apply Z.quot_pos; lia).
    destruct (randomG1Vector_Ok (n ÷ 2) Hm) as (v1 & Hv1 & Hl1).
    destruct (randomG2Vector_Ok (n ÷ 2) Hm) as (v2 & Hv2 & Hl2).
    rewrite Hv1 in Hp1. rewrite Hv2 in Hp2. injection Hp1 as <-. injection Hp2 as <-.
    split; assumption.
Qed.

(** The loop, entered with parameters built for [n]. *)
Lemma GeneratePublicParams_loop_power (fuel : nat) (n : Z) (pp : PP) (res chain : list PP) :
  1 <= n -> length (Γ1 pp) = Z.to_nat n -> length (Γ2 pp) = Z.to_nat n ->
  (n = 1 \/ (Z.even n = true /\ length (Γ1Prime (pp_ReducePP pp)) = Z.to_nat (n ÷ 2)
             /\ length (Γ2Prime (pp_ReducePP pp)) = Z.to_nat (n ÷ 2))) ->
  GeneratePublicParams_loop fuel n pp res = Some (Ok chain) ->
  exists k : nat, n = 2 ^ Z.of_nat k.
Proof.
  revert n pp res. induction fuel as [ | fuel IH]; intros n pp res Hn H1 H2 Hshape Hl;
    [discriminate Hl | ].
  cbn [GeneratePublicParams_loop] in Hl.
  destruct (Z.ltb_spec 0 n) as [_ | N]; [ | lia].
  destruct Hshape as [-> | (Heven & Hp1 & Hp2)]; [exists 0%nat; reflexivity | ].
  assert (Hq : n = 2 * (n ÷ 2)).
  { rewrite Z.quot_div_nonneg by lia. rewrite (Z.div_mod n 2) at 1 by lia.
    rewrite Zmod_even, Heven. lia. }
  destruct (Z.eqb_spec (n ÷ 2) 0) as [E | Hne]; [lia | ].
  destruct (PP_NewPublicParams pp (n ÷ 2)) as [pp' | msg] eqn:Hnew; [ | discriminate Hl].
  unfold PP_NewPublicParams in Hnew.
  destruct (_ || _); [discriminate Hnew | ].
  apply bind_Ok_inv in Hnew as (x & _ & Hnew).
  apply bind_Ok_inv in Hnew as (rpp & Hrpp & Hnew).
  apply bind_Ok_inv in Hnew as (d & _ & Hnew). injection Hnew as <-.
  assert (Hm : 1 <= n ÷ 2) by lia.
  assert (Hnext : exists k : nat, n ÷ 2 = 2 ^ Z.of_nat k).
  { eapply IH; [exact Hm | | | | exact Hl]; cbn [Γ1 Γ2 pp_ReducePP];
      [exact Hp1 | exact Hp2 | ].
    apply (reducePP_Ok _ _ _ _ Hm Hp1 Hp2 Hrpp). }
  destruct Hnext as (k & Hk).
  exists (S k). rewrite Hq, Hk, Nat2Z.inj_succ, Z.pow_succ_r by lia. reflexivity.
Qed.

Lemma GeneratePublicParams_Ok_power (n : Z) (chain : list PP) :
  GeneratePublicParams n = Some (Ok chain) -> exists k : nat, n = 2 ^ Z.of_nat k.
Proof.
  unfold GeneratePublicParams.
  destruct (NewPublicParams n) as [pp | msg] eqn:Hnew; [ | discriminate].
  unfold NewPublicParams in Hnew.
  apply bind_Ok_inv in Hnew as (g1 & Hg1 & Hnew).
  apply bind_Ok_inv in Hnew as (g2 & Hg2 & Hnew).
  apply bind_Ok_inv in Hnew as (x & Hx & Hnew).
  apply bind_Ok_inv in Hnew as (rpp & Hrpp & Hnew).
  apply bind_Ok_inv in Hnew as (d & _ & Hnew). injection Hnew as <-.
  assert (Hn0 : 0 <= n).
  { unfold randomG1Vector in Hg1. destruct (Z.ltb_spec n 0); [discriminate Hg1 | lia]. }
  destruct (randomG1Vector_Ok n Hn0) as (v1 & Hv1 & Hl1).
  destruct (randomG2Vector_Ok n Hn0) as (v2 & Hv2 & Hl2).
  rewrite Hv1 in Hg1. rewrite Hv2 in Hg2. injection Hg1 as <-. injection Hg2 as <-.
  apply InnerProd_Ok_lengths in Hx as (_ & Hpos).
  assert (Hn : 1 <= n) by lia.
  apply GeneratePublicParams_loop_power; try assumption.
  cbn [pp_ReducePP]. apply (reducePP_Ok _ _ _ _ Hn Hl1 Hl2 Hrpp).
Qed.

(** X7. For an [n] that is a Go [int], [GeneratePublicParams] returns a chain
    exactly when [n] is a power of two; for every other [n] it panics: [n] is
    not positive, or some level has an odd number of generators above one. *)
Theorem GeneratePublicParams_only_powers (n : Z) :
  n < 2 ^ 63 ->
  ((exists chain, GeneratePublicParams n = Some (Ok chain)) <->
   (exists k : nat, (k <= 62)%nat /\ n = 2 ^ Z.of_nat k)) /\
  ((forall k : nat, n <> 2 ^ Z.of_nat k) -> exists msg, GeneratePublicParams n = Some (Panic msg)).
Proof.
  intros Hn. split; [split | ].
  - intros (chain & Hg). destruct (GeneratePublicParams_Ok_power n chain Hg) as (k & Hk).
    exists k. split; [ | exact Hk].
    destruct (le_lt_dec k 62) as [Hle | Hgt]; [exact Hle | exfalso].
    assert (2 ^ 63 <= 2 ^ Z.of_nat k) by (apply Z.pow_le_mono_r; lia). lia.
  - intros (k & Hk & ->). destruct (GeneratePublicParams_wf k ltac:(lia)) as (chain & Hg & _).
    rewrite Nat2Z.inj_pow in Hg. change (Z.of_nat 2) with 2 in Hg. exists chain. exact Hg.
  - intros Hnot. pose proof (GeneratePublicParams_total n Hn) as Htot.
    destruct (GeneratePublicParams n) as [[chain | msg] | ] eqn:Hg.
    + destruct (GeneratePublicParams_Ok_power n chain Hg) as (k & Hk).
      exfalso. apply (Hnot k). exact Hk.
    + exists msg. reflexivity.
    + contradiction.
Qed.

(** X8. [GeneratePublicParams] panics in [make] for a negative [n], with
    "empty vectors" for [n = 0] and with "length mismatch" for an odd [n]
    above one. *)
Theorem GeneratePublicParams_panics (n : Z) :
  (n < 0 -> GeneratePublicParams n = Some (Panic "makeslice: len out of range")) /\
  (n = 0 -> GeneratePublicParams n = Some (Panic "empty vectors")) /\
  (3 <= n -> Z.odd n = true -> GeneratePublicParams n = Some (Panic "length mismatch")).
Proof.
  unfold GeneratePublicParams, NewPublicParams. split; [ | split].
  - intros Hn. unfold randomG1Vector. destruct (Z.ltb_spec n 0); [reflexivity | lia].
  - intros ->. reflexivity.
  - intros Hn Hodd.
    destruct (randomG1Vector_Ok n) as (v1 & -> & Hl1); [lia | ].
    destruct (randomG2Vector_Ok n) as (v2 & -> & Hl2); [lia | ].
    cbn [mbind result_bind].
    destruct (InnerProd_is_Ok v1 v2) as (x & ->); [lia | lia | ].
    cbn [mbind result_bind]. rewrite reducePP_odd by assumption. reflexivity.
Qed.

End ParameterSizes.

(** ** Package [dory]: the chain and the verifier *)

Section ChainLinks.
Context {C : Curve}.
Import dory.

Lemma chain_wf_links (k : nat) (pps : list PP) (i : nat) (pp pp' : PP) :
  chain_wf k pps -> pps !! i = Some pp -> pps !! S i = Some pp' ->
  Γ1 pp' = Γ1Prime (pp_ReducePP pp) /\ Γ2 pp' = Γ2Prime (pp_ReducePP pp).
Proof.
  revert k pps. induction i as [ | i IH]; intros k pps Hc Hi Hi'.
  - destruct pps as [ | p rest]; [discriminate Hi | ]. injection Hi as ->.
    destruct k as [ | k].
    + destruct Hc as (_ & ->). discriminate Hi'.
    + destruct Hc as (_ & (next & Hh & Hn1 & Hn2) & _).
      destruct rest as [ | p' rest']; [discriminate Hh | ].
      injection Hh as ->. injection Hi' as ->. split; assumption.
  - destruct pps as [ | p rest]; [discriminate Hi | ].
    destruct k as [ | k].
    + destruct Hc as (_ & ->). discriminate Hi.
    + destruct Hc as (_ & _ & Hrest). apply (IH k rest Hrest Hi Hi').
Qed.

(** X9. The chain of [GeneratePublicParams(2^k)] has [k + 1] levels; the
    generators of a level are the reduction generators [Γ1'], [Γ2'] of the
    level before, [χ] is the inner product of the generators of its level,
    and the last level has one generator and empty reduction parameters. *)
Theorem GeneratePublicParams_links (k : nat) :
  (k < 64)%nat ->
  exists chain,
    GeneratePublicParams (2 ^ Z.of_nat k) = Some (Ok chain) /\
    length chain = S k /\
    (forall i pp pp', chain !! i = Some pp -> chain !! S i = Some pp' ->
       Γ1 pp' = Γ1Prime (pp_ReducePP pp) /\ Γ2 pp' = Γ2Prime (pp_ReducePP pp)) /\
    (forall i pp, chain !! i = Some pp -> InnerProd (Γ1 pp) (Γ2 pp) = Ok (χ pp)) /\
    (forall pp, chain !! k = Some pp ->
       length (Γ1 pp) = 1%nat /\ pp_ReducePP pp = mkReducePP [] [] None None None None).
Proof.
  intros Hk. destruct (GeneratePublicParams_wf k Hk) as (chain & Hg & Hc).
  rewrite Nat2Z.inj_pow in Hg. change (Z.of_nat 2) with 2 in Hg.
  exists chain. split; [exact Hg | ]. split; [apply (chain_wf_length k); exact Hc | ].
  split; [ | split].
  - intros i pp pp'. apply (chain_wf_links k); exact Hc.
  - intros i pp Hi. destruct (chain_wf_lookup k chain i pp Hc Hi) as (_ & Hpp). apply Hpp.
  - intros pp Hi. destruct (chain_wf_lookup k chain k pp Hc Hi) as (_ & Hpp).
    rewrite Nat.sub_diag in Hpp. destruct Hpp as (H1 & _ & _ & Hr). split; [exact H1 | exact Hr].
Qed.

(** X10. The verifier reads one step-1 and one step-2 element per level but the
    last: what follows them in the proof is never read. *)
Theorem verifyReduce_ignores_extra (pps : list PP) (cmt : Commitment)
    (f1 x1 : list ReduceProverStep1Elements) (f2 x2 : list ReduceProverStep2Elements)
    (sp : ScalarProductProofElements) (d : Zr) :
  (length pps <= S (length f1))%nat -> (length pps <= S (length f2))%nat ->
  verifyReduce pps cmt (f1 ++ x1) (f2 ++ x2) sp d = verifyReduce pps cmt f1 f2 sp d.
Proof.
  revert cmt f1 f2. induction pps as [ | pp rest IH]; intros cmt f1 f2 H1 H2; [reflexivity | ].
  destruct rest as [ | pp' rest']; [reflexivity | ].
  destruct f1 as [ | s1 f1]; [simpl in H1; lia | ].
  destruct f2 as [ | s2 f2]; [simpl in H2; lia | ].
  change (verifyReduce (pp :: pp' :: rest') cmt ((s1 :: f1) ++ x1) ((s2 :: f2) ++ x2) sp d) with
    (p1 ← index (s1 :: f1 ++ x1) 0;
     let step1Elements :=
       mkStep1 (pp_digest pp) [] (D1L p1) (D1R p1) (D2L p1) (D2R p1)
               (cC cmt) (cD1 cmt) (cD2 cmt) in
     '(step1Elements, β) ← Step1_RO step1Elements;
     p2 ← index (s2 :: f2 ++ x2) 0;
     let step2Elements := mkStep2 (s1_digest step1Elements) (Cplus p2) (Cminus p2) in
     α ← Step2_RO step2Elements;
     next ← nextCommitment pp cmt β α
              (D1L step1Elements) (D1R step1Elements) (D2L step1Elements)
              (D2R step1Elements) (Cplus p2) (Cminus p2);
     verifyReduce (pp' :: rest') next (drop 1 (s1 :: f1 ++ x1)) (drop 1 (s2 :: f2 ++ x2)) sp d).
  change (verifyReduce (pp :: pp' :: rest') cmt (s1 :: f1) (s2 :: f2) sp d) with
    (p1 ← index (s1 :: f1) 0;
     let step1Elements :=
       mkStep1 (pp_digest pp) [] (D1L p1) (D1R p1) (D2L p1) (D2R p1)
               (cC cmt) (cD1 cmt) (cD2 cmt) in
     '(step1Elements, β) ← Step1_RO step1Elements;
     p2 ← index (s2 :: f2) 0;
     let step2Elements := mkStep2 (s1_digest step1Elements) (Cplus p2) (Cminus p2) in
     α ← Step2_RO step2Elements;
     next ← nextCommitment pp cmt β α
              (D1L step1Elements) (D1R step1Elements) (D2L step1Elements)
              (D2R step1Elements) (Cplus p2) (Cminus p2);
     verifyReduce (pp' :: rest') next (drop 1 (s1 :: f1)) (drop 1 (s2 :: f2)) sp d).
  cbn [index lookup list_lookup mbind result_bind drop]. cbv zeta.
  destruct (Step1_RO _) as [[st β] | msg]; cbn [mbind result_bind]; [ | reflexivity].
  destruct (Step2_RO _) as [α | msg]; cbn [mbind result_bind]; [ | reflexivity].
  destruct (nextCommitment _ _ _ _ _ _ _ _ _ _) as [next | msg]; cbn [mbind result_bind];
    [ | reflexivity].
  rewrite !drop_0. apply IH; simpl in H1, H2 |- *; lia.
Qed.

End ChainLinks.

Section VerifierShapes.
Context {C : Curve} {L : CurveLaws C}.
Import dory.

(** X11. For a commitment and a proof whose pointer fields are set (the
    target-group elements of the commitment and of the step elements, the
    elements of [E1] and [E2], the generators and [χ] of the base-case [PP]):
    under a generated chain of [k + 1] levels and a base case that can be
    indexed, [VerifyReduce] returns (nil or an error) exactly when the proof
    has [k] or more step-1 and step-2 elements, and panics with "index out of
    range" otherwise. *)
Theorem VerifyReduce_returns_iff (k : nat) (pps : list PP) (cmt : Commitment) (proof : Proof)
    (d : Zr) :
  chain_wf k pps -> base_case_shape (ScalarProductProofElements_ proof) = true ->
  ((k <= length (Step1Elements proof))%nat /\ (k <= length (Step2Elements proof))%nat ->
   exists err, VerifyReduce pps cmt proof d = Ok err) /\
  ((length (Step1Elements proof) < k)%nat \/ (length (Step2Elements proof) < k)%nat ->
   VerifyReduce pps cmt proof d = Panic "index out of range").
Proof.
  intros Hc Hb. unfold VerifyReduce. split.
  - intros (H1 & H2). apply (verifyReduce_total k); assumption.
  - intros Hs. apply (verifyReduce_short k); assumption.
Qed.

(** X12. The base case alone: for one generator, the commitment to [(v1, v2)] and
    the proof that carries them are accepted for every invertible [d]. *)
Theorem ScalarProductProof_complete (v1 : G1v) (v2 : G2v) (d : Zr) :
  length v1 = 1%nat -> length v2 = 1%nat -> invertible d ->
  exists pp cmt w,
    NewPublicParams 1 = Ok pp /\ Commit v1 v2 pp = Ok (cmt, w) /\
    ScalarProductProofElements_Verify (ScalarProductProof pp w) cmt d = Ok None.
Proof.
  intros H1 H2 Hd. destruct (NewPublicParams_wf 0) as (pp & Hpp & Hwf).
  change (Z.of_nat (2 ^ 0)) with 1 in Hpp.
  pose proof Hwf as (Hg1 & Hg2 & _).
  destruct (Commit_Ok v1 v2 pp 1 ltac:(lia) H1 H2 Hg1 Hg2) as (cmt & HC & Hcm).
  exists pp, cmt, (mkWitness v1 v2). split; [exact Hpp | ]. split; [exact HC | ].
  apply ScalarProduct_complete; assumption.
Qed.

End VerifierShapes.

(** ** Package [threshold]: the helpers of the ring proof *)

Section RingHelpers.
Context {C : Curve}.
Import threshold.

Lemma locatePK_loop_first (myPK : G1) (ring : Ring) (i : nat) :
  In myPK ring ->
  exists j, locatePK_loop myPK ring i = Ok (myPK, (i + j)%nat) /\ ring !! j = Some myPK /\
            forall l, (l < j)%nat -> ring !! l <> Some myPK.
Proof.
  revert i. induction ring as [ | pk ring IH]; intros i Hin; [destruct Hin | ].
  cbn [locatePK_loop]. destruct (bool_decide_reflect (pk = myPK)) as [-> | Hne].
  - exists 0%nat. rewrite Nat.add_0_r. split; [reflexivity | ]. split; [reflexivity | ].
    intros l Hl. lia.
  - destruct Hin as [E | Hin]; [contradiction | ].
    destruct (IH (S i) Hin) as (j & Hj & Hl & Hfirst). exists (S j).
    rewrite Hj. split; [f_equal; f_equal; lia | ]. split; [exact Hl | ].
    intros [ | l] Hlt; simpl.
    + intros [= E]. contradiction.
    + apply Hfirst. lia.
Qed.

Lemma locatePK_loop_notin (myPK : G1) (ring : Ring) (i : nat) :
  ~ In myPK ring -> locatePK_loop myPK ring i = Panic "PK not found within ring".
Proof.
  revert i. induction ring as [ | pk ring IH]; intros i Hn; [reflexivity | ].
  cbn [locatePK_loop]. destruct (bool_decide_reflect (pk = myPK)) as [-> | Hne].
  - exfalso. apply Hn. left. reflexivity.
  - apply IH. intros Hin. apply Hn. right. exact Hin.
Qed.

(** X13. [locatePK] returns the first index of the ring that holds the public
    key of the private key, and panics when the ring does not hold it. *)
Theorem locatePK_spec (key : PrivateKey) (ring : Ring) :
  (In (G1Mul GenG1 key) ring ->
   exists j, locatePK key ring = Ok (G1Mul GenG1 key, j) /\
             ring !! j = Some (G1Mul GenG1 key) /\
             forall l, (l < j)%nat -> ring !! l <> Some (G1Mul GenG1 key)) /\
  (~ In (G1Mul GenG1 key) ring -> locatePK key ring = Panic "PK not found within ring").
Proof.
  unfold locatePK. split.
  - intros Hin. destruct (locatePK_loop_first _ ring 0 Hin) as (j & Hj & Hl & Hf).
    exists j. split; [exact Hj | ]. split; assumption.
  - apply locatePK_loop_notin.
Qed.

(** X14. [embedInVec] splices the element in at [index]; an [index] beyond the
    end is never reached by the loop, which then reads past the end of [a]. *)
Theorem embedInVec_spec (a : list Zr) (element : Zr) (index : nat) :
  ((index <= length a)%nat ->
   embedInVec a element index = Ok (take index a ++ element :: drop index a)) /\
  ((length a < index)%nat -> embedInVec a element index = Panic "index out of range").
Proof.
  unfold embedInVec. rewrite embedInVec_loop_before by lia. rewrite Nat.sub_0_r. split.
  - intros Hi. rewrite decide_True by exact Hi. reflexivity.
  - intros Hi. rewrite decide_False by lia. reflexivity.
Qed.

(** X15. [sumZr] reads [in[0]] first; the sum is reduced modulo the group order. *)
Theorem sumZr_spec (inp : list Zr) :
  (inp = [] -> sumZr inp = Panic "index out of range") /\
  (inp <> [] -> exists s, sumZr inp = Ok s /\ s = zsum inp mod GroupOrder /\
                          0 <= s < GroupOrder).
Proof.
  split.
  - intros ->. reflexivity.
  - intros Hne. destruct inp as [ | x l]; [contradiction | ].
    eexists. split; [apply sumZr_cons | ]. split; [reflexivity | ].
    apply Z.mod_pos_bound. reflexivity.
Qed.

(** X16. [negZr x] is the opposite of [x] modulo the group order. *)
Theorem negZr_opposite (x : Zr) :
  0 <= negZr x < GroupOrder /\ (x + negZr x) mod GroupOrder = 0.
Proof.
  unfold negZr, Zr.ModSub. split; [apply Z.mod_pos_bound; reflexivity | ].
  rewrite Zplus_mod_idemp_r. replace (x + (0 - x)) with 0 by lia. reflexivity.
Qed.

End RingHelpers.

(** ** Package [threshold]: signing in two phases, and what a signature carries *)

Section Signing.
Context {C : Curve}.
Import threshold.

(** [PreProcessRingProof]: the commitment of the tag and the ring proof,
    which do not depend on the message. *)
Definition PreProcessRingProof (key : PrivateKey) (pp : PublicParams) (ring : Ring)
    (r y : Zr) (rand_c : nat -> Zr) : result (Zr * RingSignature) :=
  let sk := key in
  let '(w, c) := tag.Commit sk r in
  let r := tag.R w in
  σ ← RingProof key pp ring r c y rand_c;
  Ok (r, σ).

(** [AppendTagProof] has a pointer to the signature: it sets [TagValue] and
    [TagProof]; the updated signature is returned. *)
Definition AppendTagProof (key : PrivateKey) (σ : RingSignature) (r : Zr) (m prefix : bytes)
    (ar br : Zr) : result RingSignature :=
  let sk := key in
  dg1 ← dory.Proof_Digest (DoryProof1 σ);
  dg2 ← dory.Proof_Digest (DoryProof2 σ);
  πt ← tag.NewProof prefix sk (tag.mkWitness r) [m; dg1; dg2] ar br;
  let t := tag.Tag sk prefix in
  Ok (mkRingSignature (Some πt) (TagCommitment σ) (Some t) (DoryProof1 σ) (DoryProof2 σ)
                      (rs_B σ) (rs_Z σ) (rs_Y σ)).

(** X17. [Sign] is the ring proof prepared ahead, then the tag proof appended:
    with the same draws the two ways return the same signature, or panic
    alike. *)
Theorem Sign_two_phases (key : PrivateKey) (pp : PublicParams) (m prefix : bytes)
    (ring : Ring) (r y : Zr) (rand_c : nat -> Zr) (ar br : Zr) :
  Sign key pp m prefix ring r y rand_c ar br
  = ('(r', σ) ← PreProcessRingProof key pp ring r y rand_c;
     AppendTagProof key σ r' m prefix ar br).
Proof.
  unfold Sign, PreProcessRingProof, AppendTagProof, tag.Commit. cbn [tag.R].
  destruct (RingProof _ _ _ _ _ _ _) as [σ | msg]; reflexivity.
Qed.

Lemma Sign_fields (key : PrivateKey) (pp : PublicParams) (m prefix : bytes) (ring : Ring)
    (r y : Zr) (rand_c : nat -> Zr) (ar br : Zr) (σ : RingSignature) :
  Sign key pp m prefix ring r y rand_c ar br = Ok σ ->
  TagValue σ = Some (tag.Tag key prefix) /\ is_Some (TagProof σ).
Proof.
  unfold Sign, tag.Commit. intros Hs.
  apply bind_Ok_inv in Hs as (σ0 & _ & Hs).
  apply bind_Ok_inv in Hs as (dg1 & _ & Hs).
  apply bind_Ok_inv in Hs as (dg2 & _ & Hs).
  apply bind_Ok_inv in Hs as (πt & _ & Hs).
  injection Hs as <-. split; [reflexivity | eexists; reflexivity].
Qed.

(** X18. Two signatures of one key under one prefix, whatever the messages, the
    rings, the parameters and the draws, carry the same tag, and
    [VerifyThresholdSignatures] rejects the pair as signed by one signer. *)
Theorem same_signer_rejected (key : PrivateKey) (prefix : bytes)
    (pp1 pp2 : PublicParams) (m1 m2 : bytes) (ring1 ring2 : Ring)
    (r1 y1 r2 y2 : Zr) (rand_c1 rand_c2 : nat -> Zr) (ar1 br1 ar2 br2 : Zr)
    (σ1 σ2 : RingSignature)
    (pp : PublicParams) (msg prefix' : bytes)
    (rand_d : nat -> Zr * Zr) (scheds : nat -> list nat) (sched : list nat) :
  Sign key pp1 m1 prefix ring1 r1 y1 rand_c1 ar1 br1 = Ok σ1 ->
  Sign key pp2 m2 prefix ring2 r2 y2 rand_c2 ar2 br2 = Ok σ2 ->
  TagValue σ1 = TagValue σ2 /\
  VerifyThresholdSignatures pp msg prefix' [σ1; σ2] rand_d scheds sched
  = Ok (Some "signature set was signed by 1 out of 2 distinct signers"%string).
Proof.
  intros H1 H2. apply Sign_fields in H1 as (Ht1 & _). apply Sign_fields in H2 as (Ht2 & _).
  split; [rewrite Ht1, Ht2; reflexivity | ].
  set (t := G1Bytes (tag.Tag key prefix)).
  rewrite (VerifyThresholdSignatures_distinct pp msg prefix' [σ1; σ2] [t; t]).
  - rewrite distinct_twice. reflexivity.
  - simpl. rewrite Ht1, Ht2. reflexivity.
  - rewrite distinct_twice. simpl length. lia.
Qed.

(** X19. A key whose public key is not in the ring cannot sign: [Sign] panics in
    [locatePK]. *)
Theorem Sign_not_member (key : PrivateKey) (pp : PublicParams) (m prefix : bytes) (ring : Ring)
    (r y : Zr) (rand_c : nat -> Zr) (ar br : Zr) :
  (0 < length (DoryParams pp))%nat -> (0 < length ring)%nat -> ~ In (G1Mul GenG1 key) ring ->
  Sign key pp m prefix ring r y rand_c ar br = Panic "PK not found within ring".
Proof.
  intros Hpp Hring Hnot. unfold Sign, tag.Commit, RingProof.
  destruct (DoryParams pp) as [ | pp0 rest]; [simpl in Hpp; lia | ].
  cbn [index lookup list_lookup mbind result_bind]. unfold RingProof_challenges.
  destruct ring as [ | pk ring']; [simpl in Hring; lia | ].
  cbn [length Nat.eqb mbind result_bind]. unfold locatePK.
  rewrite locatePK_loop_notin by exact Hnot. reflexivity.
Qed.

(** The error slot after the three tasks of [Verify]: when every task is
    in the schedule, [nil] is returned only if no task stored an error. *)
Lemma atomic_last_None_inv (sched : list nat) (errs : list error) (i : nat) :
  atomic_last sched errs = None -> In i sched -> (i < length errs)%nat -> errs !! i = Some None.
Proof.
  intros Hn Hin Hlt. destruct (errs !! i) as [[err | ] | ] eqn:E.
  - destruct (atomic_last_stored sched errs i err Hin E) as (err' & E'). congruence.
  - reflexivity.
  - apply lookup_ge_None in E. unfold error in *. lia.
Qed.

Lemma wrap_None (err : error) (msg : string) : wrap err msg = None -> err = None.
Proof. destruct err; [discriminate | reflexivity]. Qed.

(** X20. When [Verify] returns [nil], each of the three checks has passed: the
    two Dory verifications and the verification of the tag proof returned
    [nil]. *)
Theorem Verify_accepts_inv (rs : RingSignature) (pp : PublicParams) (m prefix : bytes)
    (d1 d2 : Zr) (sched : list nat) :
  In 0%nat sched -> In 1%nat sched -> In 2%nat sched ->
  Verify rs pp m prefix d1 d2 sched = Ok None ->
  exists h dg1 dg2 πt t,
    verify_hash rs pp = Ok h /\
    dory.VerifyReduce (DoryParams pp) (first_commitment rs pp) (DoryProof1 rs) d1 = Ok None /\
    dory.VerifyReduce (DoryParams pp) (second_commitment rs pp h) (DoryProof2 rs) d2
      = Ok None /\
    dory.Proof_Digest (DoryProof1 rs) = Ok dg1 /\
    dory.Proof_Digest (DoryProof2 rs) = Ok dg2 /\
    TagProof rs = Some πt /\ TagValue rs = Some t /\
    tag.Verify πt t (TagCommitment rs) prefix [m; dg1; dg2] = Ok None.
Proof.
  intros H0 H1 H2 Hv. unfold Verify in Hv.
  apply bind_Ok_inv in Hv as (h & Hh & Hv).
  apply bind_Ok_inv in Hv as (e1 & He1 & Hv).
  apply bind_Ok_inv in Hv as (e2 & He2 & Hv).
  apply bind_Ok_inv in Hv as (dg1 & Hd1 & Hv).
  apply bind_Ok_inv in Hv as (dg2 & Hd2 & Hv).
  apply bind_Ok_inv in Hv as (πt & Hπ & Hv).
  apply bind_Ok_inv in Hv as (t & Ht & Hv).
  apply bind_Ok_inv in Hv as (e3 & He3 & Hv).
  injection Hv as Hv.
  pose proof (atomic_last_None_inv _ _ 0 Hv H0 ltac:(simpl; lia)) as E1.
  pose proof (atomic_last_None_inv _ _ 1 Hv H1 ltac:(simpl; lia)) as E2.
  pose proof (atomic_last_None_inv _ _ 2 Hv H2 ltac:(simpl; lia)) as E3.
  simpl in E1, E2, E3. injection E1 as E1. injection E2 as E2. injection E3 as E3.
  apply wrap_None in E1, E2, E3. subst e1 e2 e3.
  destruct (TagProof rs) as [πt' | ]; [ | discriminate Hπ]. injection Hπ as ->.
  destruct (TagValue rs) as [t' | ]; [ | discriminate Ht]. injection Ht as ->.
  exists h, dg1, dg2, πt, t. repeat split; assumption.
Qed.

Lemma verify_all_lookup (signatures : list RingSignature) (i0 : nat) (pp : PublicParams)
    (msg prefix : bytes) (rand_d : nat -> Zr * Zr) (scheds : nat -> list nat)
    (errs : list error) :
  verify_all signatures i0 pp msg prefix rand_d scheds = Ok errs ->
  length errs = length signatures /\
  forall i σ, signatures !! i = Some σ ->
    exists err, errs !! i = Some err /\
      Verify σ pp msg prefix (fst (rand_d (i0 + i)%nat)) (snd (rand_d (i0 + i)%nat))
             (scheds (i0 + i)%nat) = Ok err.
Proof.
  revert i0 errs. induction signatures as [ | σ0 rest IH]; intros i0 errs Hv.
  - injection Hv as <-. split; [reflexivity | ]. intros i σ Hi. discriminate Hi.
  - cbn [verify_all] in Hv. apply bind_Ok_inv in Hv as (err & He & Hv).
    apply bind_Ok_inv in Hv as (errs' & Hr & Hv). injection Hv as <-.
    destruct (IH _ _ Hr) as (Hl & Hall). split; [simpl; lia | ].
    intros [ | i] σ Hi.
    + injection Hi as <-. exists err. rewrite Nat.add_0_r. split; [reflexivity | exact He].
    + destruct (Hall i σ Hi) as (err' & E & Hver). exists err'.
      replace (i0 + S i)%nat with (S i0 + i)%nat by lia. split; [exact E | exact Hver].
Qed.

Lemma distinct_le_length (encs : list bytes) : (distinct encs <= length encs)%nat.
Proof.
  unfold distinct. induction encs as [ | x l IH].
  { change (list_to_set [] : gset bytes) with (∅ : gset bytes). rewrite size_empty. simpl. lia. }
  change (list_to_set (x :: l) : gset bytes) with ({[x]} ∪ list_to_set l : gset bytes).
  rewrite size_union_alt, size_singleton.
  pose proof (subseteq_size (list_to_set l ∖ {[x]} : gset bytes) (list_to_set l)
                (subseteq_difference_l _ _ _ (reflexivity _))).
  simpl. lia.
Qed.

Lemma distinct_NoDup (encs : list bytes) : distinct encs = length encs -> NoDup encs.
Proof.
  unfold distinct. induction encs as [ | x l IH]; intros Hd; [constructor | ].
  change (list_to_set (x :: l) : gset bytes) with ({[x]} ∪ list_to_set l : gset bytes) in Hd.
  pose proof (distinct_le_length l) as Hle. unfold distinct in Hle.
  destruct (decide (x ∈ l)) as [Hin | Hnin].
  - rewrite (subseteq_union_1_L ({[x]} : gset bytes) (list_to_set l)) in Hd.
    + simpl in Hd. lia.
    + apply singleton_subseteq_l, elem_of_list_to_set. exact Hin.
  - rewrite size_union in Hd.
    + rewrite size_singleton in Hd. simpl in Hd. apply NoDup_cons. split; [exact Hnin | ].
      apply IH. lia.
    + apply disjoint_singleton_l, not_elem_of_list_to_set. exact Hnin.
Qed.

Lemma collect_tags_Ok (signatures : list RingSignature) (tags tags' : gmap bytes unit) :
  collect_tags signatures tags = Ok tags' ->
  exists encs, tag_encodings signatures = Some encs.
Proof.
  revert tags. induction signatures as [ | σ rest IH]; intros tags Hc; [eexists; reflexivity | ].
  cbn [collect_tags] in Hc. cbn [tag_encodings].
  destruct (TagValue σ) as [t | ]; [ | discriminate Hc].
  destruct (IH _ Hc) as (encs & ->). eexists. reflexivity.
Qed.

(** X21. When [VerifyThresholdSignatures] returns [nil], with every goroutine in
    the schedule, the tags of the signatures are pairwise different and
    every signature is accepted by [Verify]. *)
Theorem VerifyThresholdSignatures_accepts_inv (pp : PublicParams) (msg prefix : bytes)
    (signatures : list RingSignature)
    (rand_d : nat -> Zr * Zr) (scheds : nat -> list nat) (sched : list nat) :
  (forall i, (i < length signatures)%nat -> In i sched) ->
  VerifyThresholdSignatures pp msg prefix signatures rand_d scheds sched = Ok None ->
  (exists encs, tag_encodings signatures = Some encs /\ NoDup encs) /\
  (forall i σ, signatures !! i = Some σ ->
     Verify σ pp msg prefix (fst (rand_d i)) (snd (rand_d i)) (scheds i) = Ok None).
Proof.
  intros Hsched Hv. unfold VerifyThresholdSignatures in Hv.
  apply bind_Ok_inv in Hv as (tags & Htags & Hv).
  destruct (collect_tags_Ok _ _ _ Htags) as (encs & Henc).
  destruct (collect_tags_spec signatures encs ∅ Henc) as (tags' & Htags' & Hdom).
  rewrite Htags in Htags'. injection Htags' as <-.
  assert (Hsize : size tags = distinct encs).
  { unfold distinct. rewrite <- size_dom, Hdom, dom_empty_L, (left_id_L ∅ (∪)). reflexivity. }
  rewrite Hsize in Hv.
  destruct (Nat.eqb_spec (distinct encs) (length signatures)) as [E | N];
    [ | discriminate Hv].
  simpl negb in Hv. cbv iota in Hv.
  apply bind_Ok_inv in Hv as (errs & Herrs & Hv). injection Hv as Hv.
  split.
  - exists encs. split; [exact Henc | ]. apply distinct_NoDup.
    rewrite E. symmetry. apply length_tag_encodings. exact Henc.
  - destruct (verify_all_lookup _ _ _ _ _ _ _ _ Herrs) as (Hl & Hall).
    intros i σ Hi. destruct (Hall i σ Hi) as (err & Herr & Hver).
    cbn [Nat.add] in Hver. rewrite Hver. f_equal.
    pose proof (lookup_lt_Some _ _ _ Hi) as Hlt.
    pose proof (atomic_last_None_inv sched errs i Hv (Hsched i Hlt) ltac:(lia)) as E'.
    pose proof (eq_trans (eq_sym Herr) E') as X. injection X as ->. reflexivity.
Qed.


Lemma VerifyThresholdSignatures_one (pp : PublicParams) (msg prefix : bytes)
    (σ : RingSignature) (rand_d : nat -> Zr * Zr) (scheds : nat -> list nat)
    (sched : list nat) :
  is_Some (TagValue σ) ->
  Verify σ pp msg prefix (fst (rand_d 0%nat)) (snd (rand_d 0%nat)) (scheds 0%nat) = Ok None ->
  VerifyThresholdSignatures pp msg prefix [σ] rand_d scheds sched = Ok None.
Proof.
  intros (t & Ht) Hv. unfold VerifyThresholdSignatures. cbn [collect_tags]. rewrite Ht.
  cbn [mbind result_bind]. rewrite insert_empty, map_size_singleton.
  cbn [length Nat.eqb negb verify_all]. rewrite Hv. cbn [mbind result_bind].
  f_equal. apply atomic_last_None. repeat constructor.
Qed.

(** X22. One signature that carries a tag and that [Verify] accepts passes the
    threshold verification, whatever the order of the stores. *)
Theorem VerifyThresholdSignatures_single (pp : PublicParams) (msg prefix : bytes)
    (σ : RingSignature) (rand_d : nat -> Zr * Zr) (scheds : nat -> list nat)
    (sched : list nat) :
  is_Some (TagValue σ) ->
  Verify σ pp msg prefix (fst (rand_d 0%nat)) (snd (rand_d 0%nat)) (scheds 0%nat) = Ok None ->
  VerifyThresholdSignatures pp msg prefix [σ] rand_d scheds sched = Ok None.
Proof. apply VerifyThresholdSignatures_one. Qed.

End Signing.

(** ** Properties that rest on the laws of the interface *)

Section PairingProducts.
Context {C : Curve} {L : CurveLaws C}.
Import threshold.

(** X23. [InnerProd] multiplies the Miller loops and applies one final
    exponentiation: its result is the product of the pairings
    [e(a_i, b_i)]. *)
Theorem InnerProd_pairing_product (a : G1v) (b : G2v) (g : Gt) :
  InnerProd a b = Ok g ->
  g = foldr (fun xy acc => GtMul (e (fst xy) (snd xy)) acc) GtOne (zip a b).
Proof. intros Hg. apply InnerProd_Ok_ip in Hg as (-> & _). reflexivity. Qed.

(** X24. [InnerProd] is linear in its first argument: it turns [Add] into the
    product and [Mul] into the power. *)
Theorem InnerProd_linear (a a' s : G1v) (b : G2v) (u u' : Gt) (x : Zr) :
  InnerProd a b = Ok u -> InnerProd a' b = Ok u' -> G1v_Add a a' = Ok s ->
  InnerProd s b = Ok (GtMul u u') /\ InnerProd (G1v_Mul a x) b = Ok (GtExp u x).
Proof.
  intros Hu Hu' Hs.
  apply InnerProd_Ok_ip in Hu as (-> & Hl & Hpos).
  apply InnerProd_Ok_ip in Hu' as (-> & Hl' & _).
  rewrite G1v_Add_Ok in Hs by lia. injection Hs as <-. split.
  - rewrite InnerProd_ip by (rewrite ?length_zip_with; lia).
    rewrite ip_add_l by lia. reflexivity.
  - rewrite InnerProd_ip by (rewrite ?length_G1v_Mul; lia). rewrite ip_mul_l. reflexivity.
Qed.

(** X25. Pairing with the sum of a vector is the inner product with as many
    copies: how [ComputePreProcessedParams] prepares [Γ2] for the verifier. *)
Theorem G2v_Sum_pairing (gs : G2v) (x : G1) :
  (0 < length gs)%nat ->
  exists s copies,
    G2v_Sum gs = Ok s /\ G1v_Duplicate [x] (Z.of_nat (length gs)) = Ok copies /\
    InnerProd copies gs = Ok (e x s).
Proof.
  intros Hne. destruct gs as [ | g gs]; [simpl in Hne; lia | ].
  eexists _, _. split; [reflexivity | ].
  split; [unfold G1v_Duplicate; rewrite Nat2Z.id; reflexivity | ].
  rewrite InnerProd_ip by (rewrite length_replicate; simpl; lia).
  cbn [length replicate]. rewrite ip_cons, ip_replicate_l. reflexivity.
Qed.

(** X27. What [ComputePreProcessedParams] computes for a ring of [2^k] members
    under the generated chain. *)
Theorem ComputePreProcessedParams_values (k : nat) (ring : Ring) :
  (k < 64)%nat -> length ring = (2 ^ k)%nat ->
  exists chain pp0 ppp,
    dory.GeneratePublicParams (2 ^ Z.of_nat k) = Some (Ok chain) /\
    head chain = Some pp0 /\
    ComputePreProcessedParams chain ring = Ok ppp /\
    InnerProd ring (dory.Γ2 pp0) = Ok (GtExp (A0Inverse ppp) (-1)) /\
    H1 ppp = replicate (length ring) H /\
    InnerProd (H1 ppp) (dory.Γ2 pp0) = Ok (ppp_D ppp) /\
    G2v_Sum (dory.Γ2 pp0) = Ok (ppp_Γ2 ppp) /\
    length (ppp_digest ppp) = 32%nat.
Proof.
  intros Hk Hl. destruct (GeneratePublicParams_wf k Hk) as (chain & Hg & Hc).
  rewrite Nat2Z.inj_pow in Hg. change (Z.of_nat 2) with 2 in Hg.
  destruct chain as [ | pp0 rest] eqn:Echain; [destruct k; destruct Hc | ].
  rewrite <- Echain in *.
  assert (Hh : head chain = Some pp0) by (rewrite Echain; reflexivity).
  destruct (ComputePreProcessedParams_Ok k chain pp0 ring Hc Hh Hl)
    as (dg & g & gs & Eg2 & Hppp).
  assert (Hpp : pp_wf k pp0) by (rewrite Echain in Hc; destruct k; apply Hc).
  unfold pp_wf in Hpp. destruct Hpp as (_ & Hg2 & _). pose proof (pow2_pos k) as Hpos.
  exists chain, pp0. eexists. split; [exact Hg | ]. split; [exact Hh | ].
  split; [exact Hppp | ].
  cbn [A0Inverse H1 ppp_D ppp_Γ2 ppp_digest].
  split; [ | split; [reflexivity | split; [ | split]]].
  - rewrite InnerProd_ip by lia. f_equal. rewrite GtInverse_def, GtExp_exp.
    change (-1 * -1) with 1. symmetry. apply GtExp_1.
  - apply InnerProd_ip; rewrite length_replicate; lia.
  - rewrite Eg2. reflexivity.
  - unfold ComputePreProcessedParams in Hppp.
    apply bind_Ok_inv in Hppp as (? & _ & Hppp). apply bind_Ok_inv in Hppp as (? & _ & Hppp).
    apply bind_Ok_inv in Hppp as (? & _ & Hppp). apply bind_Ok_inv in Hppp as (? & _ & Hppp).
    apply bind_Ok_inv in Hppp as (? & _ & Hppp).
    apply bind_Ok_inv in Hppp as (dg' & Hdg & Hppp). injection Hppp as <- _ _ _.
    unfold computeDigest in Hdg.
    apply bind_Ok_inv in Hdg as (? & _ & Hdg). apply bind_Ok_inv in Hdg as (? & _ & Hdg).
    injection Hdg as <-. apply sha256_of_length.
Qed.

(** X28. A ring of one member cannot be signed for: there is no challenge to
    draw, and [sumZr] reads the first of none. *)
Theorem Sign_single_member (key : PrivateKey) (pp : PublicParams) (m prefix : bytes)
    (r y : Zr) (rand_c : nat -> Zr) (ar br : Zr) :
  (0 < length (DoryParams pp))%nat ->
  Sign key pp m prefix [G1Mul GenG1 key] r y rand_c ar br = Panic "index out of range".
Proof.
  intros Hpp. unfold Sign, tag.Commit, RingProof.
  destruct (DoryParams pp) as [ | pp0 rest]; [simpl in Hpp; lia | ].
  cbn [index lookup list_lookup mbind result_bind]. unfold RingProof_challenges.
  cbn [length Nat.eqb Nat.sub seq map mbind result_bind]. unfold locatePK.
  cbn [locatePK_loop]. rewrite bool_decide_eq_true_2 by reflexivity.
  cbn [mbind result_bind]. unfold computeY. cbn [computeY_loop Nat.eqb mbind result_bind].
  unfold hashToZr.
  match goal with
  | |- context [FieldElementFromBytes (sha256_of ?inp)] =>
      destruct (hashToZr_Ok inp) as (h & -> & _)
  end.
  reflexivity.
Qed.

End PairingProducts.

Section Preprocessing.
Context {C : Curve}.
Import threshold.

(** X29. The ring must have as many members as the first level has generators. *)
Theorem ComputePreProcessedParams_mismatch (pp0 : dory.PP) (rest : list dory.PP) (ring : Ring) :
  length ring <> length (dory.Γ2 pp0) ->
  ComputePreProcessedParams (pp0 :: rest) ring = Panic "length mismatch".
Proof.
  intros Hne. unfold ComputePreProcessedParams.
  cbn [index lookup list_lookup mbind result_bind].
  rewrite (InnerProd_mismatch ring (dory.Γ2 pp0)) by exact Hne. reflexivity.
Qed.

End Preprocessing.

(** ** The hash to the field *)

(** X30. [FieldElementFromBytes] takes 32 bytes and nothing else. *)
Theorem FieldElementFromBytes_length (digest : bytes) :
  (length digest <> 32%nat -> FieldElementFromBytes digest = Panic "input should be 32 bytes") /\
  (length digest = 32%nat ->
   exists v, FieldElementFromBytes digest = Ok v /\ 0 <= v < GroupOrder).
Proof.
  split.
  - intros Hne. unfold FieldElementFromBytes, feFrom256Bits.
    destruct (Nat.eqb_spec (length digest) 32) as [E | _]; [contradiction | reflexivity].
  - intros Hl. eexists. split; [apply FieldElementFromBytes_value; exact Hl | ].
    apply Z.mod_pos_bound. reflexivity.
Qed.

Section SignComplete.
Context {C : Curve} {L : CurveLaws C}.
Import threshold.

(** The parameters are fixed before the message: under them every message
    is signed, and the signature is accepted when the draws and the
    challenges are invertible. *)
Lemma Sign_complete (k : nat) (ring : Ring) (sk : Zr) :
  (1 <= k <= 62)%nat -> length ring = (2 ^ k)%nat -> In (G1Mul GenG1 sk) ring ->
  exists chain ppp,
    dory.GeneratePublicParams (2 ^ Z.of_nat k) = Some (Ok chain) /\
    ComputePreProcessedParams chain ring = Ok ppp /\
    forall m prefix r y rand_c ar br,
    exists σ,
      Sign sk (mkPublicParams ppp chain) m prefix ring r y rand_c ar br = Ok σ /\
      (good_challenges (DoryProof1 σ) = true -> good_challenges (DoryProof2 σ) = true ->
       forall d1 d2 sched, invertible d1 -> invertible d2 ->
         Verify σ (mkPublicParams ppp chain) m prefix d1 d2 sched = Ok None).
Proof.
  intros Hk Hl Hin. destruct k as [ | k]; [lia | ].
  destruct (GeneratePublicParams_wf (S k) ltac:(lia)) as (chain & Hg & Hc).
  rewrite Nat2Z.inj_pow in Hg. change (Z.of_nat 2) with 2 in Hg.
  destruct chain as [ | pp0 rest] eqn:Echain; [destruct Hc | ]. rewrite <- Echain in *.
  assert (Hh : head chain = Some pp0) by (rewrite Echain; reflexivity).
  destruct (ComputePreProcessedParams_Ok (S k) chain pp0 ring Hc Hh Hl)
    as (dg & g & gs & Eg2 & Hppp).
  eexists chain, _. split; [exact Hg | ]. split; [exact Hppp | ].
  intros m prefix r y rand_c ar br.
  destruct (RingProof_complete k chain pp0 ring sk r y rand_c dg g gs Hc Hh Hl Hin Eg2)
    as (π1 & π2 & B & z & Y & h & dg1 & dg2 & HRP & Hhash & Hd1 & Hd2 & Hv1 & Hv2).
  destruct (tag_roundtrip sk prefix [m; dg1; dg2] r ar br) as (πt & HNP & HTV).
  unfold tag.Commit in HRP, HNP, HTV, Hhash, Hv1. cbn [fst snd tag.R] in HRP, HNP, HTV, Hhash, Hv1.
  eexists. split.
  - unfold Sign, tag.Commit. cbn [tag.R]. rewrite HRP. cbn [mbind result_bind].
    cbn [DoryProof1 DoryProof2]. rewrite Hd1, Hd2. cbn [mbind result_bind].
    rewrite HNP. cbn [mbind result_bind]. reflexivity.
  - cbn [DoryProof1 DoryProof2 TagCommitment rs_B rs_Z rs_Y].
    intros Hgood1 Hgood2 d1 d2 sched Hi1 Hi2. unfold Verify.
    cbn [DoryProof1 DoryProof2 TagCommitment TagProof TagValue rs_B rs_Z rs_Y
         PreProcessedParams_ DoryParams ppp_Γ2 A0Inverse ppp_D ppp_digest].
    rewrite Hhash. cbn [mbind result_bind].
    rewrite (Hv1 Hgood1 d1 Hi1). cbn [mbind result_bind].
    rewrite (Hv2 Hgood2 d2 Hi2). cbn [mbind result_bind].
    rewrite Hd1, Hd2. cbn [mbind result_bind]. rewrite HTV. cbn [mbind result_bind].
    f_equal. apply atomic_last_None. repeat constructor.
Qed.

End SignComplete.

(** The signature of the run is accepted with the draws 3 and 4. *)
Lemma signature_accepted :
  exists chain ppp σ t,
    let pp := threshold.mkPublicParams ppp chain in
    dory.GeneratePublicParams (C := Model.toy) 2 = Some (Ok chain) /\
    threshold.ComputePreProcessedParams chain Scenario.ring2 = Ok ppp /\
    threshold.Sign 22 pp Scenario.msg Scenario.prefix Scenario.ring2 5 6 Scenario.rand_c 8 9
      = Ok σ /\
    threshold.TagValue σ = Some t /\
    (forall sched, threshold.Verify σ pp Scenario.msg Scenario.prefix 3 4 sched = Ok None) /\
    exists σ', threshold.Sign 22 pp Scenario.other_msg Scenario.prefix Scenario.ring2 5 6
                 Scenario.rand_c 8 9 = Ok σ'.
Proof.
  destruct (Sign_complete (L := ModelLaws.toy_laws) 1 Scenario.ring2 22)
    as (chain & ppp & Hg & Hp & Hall); [lia | reflexivity | right; left; reflexivity | ].
  change (2 ^ Z.of_nat 1) with 2 in Hg.
  destruct (Hall Scenario.msg Scenario.prefix 5 6 Scenario.rand_c 8 9) as (σ & Hs & Hv).
  destruct (Hall Scenario.other_msg Scenario.prefix 5 6 Scenario.rand_c 8 9) as (σ' & Hs' & _).
  destruct signature_facts as (chain' & ppp' & σ0 & h & dg1 & dg2 & πt & t & Hf).
  cbv zeta in Hf.
  destruct Hf as (Hg' & Hp' & Hs0 & _ & _ & _ & _ & _ & _ & Ht & _ & _ & Hb1 & Hb2).
  rewrite Hg in Hg'. injection Hg' as <-.
  rewrite Hp in Hp'. injection Hp' as <-. rewrite Hs in Hs0. injection Hs0 as <-.
  exists chain, ppp, σ, t. cbv zeta.
  split; [exact Hg | ]. split; [exact Hp | ]. split; [exact Hs | ]. split; [exact Ht | ].
  split; [ | exists σ'; exact Hs'].
  intros sched. apply Hv; [exact Hb1 | exact Hb2 | vm_compute; reflexivity | vm_compute; reflexivity].
Qed.

(** ** The properties at concrete inputs, in the model of the interface *)

Module Instances.
Import Model.

Definition one_level : dory.PP (C := toy) :=
  dory.mkPP [] (dory.mkReducePP [] [] None None None None) [GenG1] [GenG2] GtOne.

Definition step1 : dory.ReduceProverStep1Elements (C := toy) :=
  dory.mkStep1 [] [] GtOne GtOne GtOne GtOne GtOne GtOne GtOne.

Definition step2 : dory.ReduceProverStep2Elements (C := toy) := dory.mkStep2 [x00] GtOne GtOne.

Definition commitment : dory.Commitment (C := toy) := dory.mkCommitment GtOne GtOne GtOne.

End Instances.

Lemma randomG1Vector_repeats_witness :
  exists v, dory.randomG1Vector (C := Model.toy) 65537 = Ok v /\
            v !! Z.to_nat 65536 = v !! 0%nat.
Proof.
  eexists. split.
  - unfold dory.randomG1Vector. change (65537 <? 0) with false. cbv iota. reflexivity.
  - apply (randomG1Vector_repeats (C := Model.toy) 65537 _ 0 (Z.to_nat 65536)).
    + unfold dory.randomG1Vector. change (65537 <? 0) with false. cbv iota. reflexivity.
    + vm_compute. reflexivity.
    + vm_compute. reflexivity.
Defined.

Lemma GeneratePublicParams_only_powers_witness :
  ((exists chain, dory.GeneratePublicParams (C := Model.toy) 2 = Some (Ok chain)) <->
   (exists k : nat, (k <= 62)%nat /\ 2 = 2 ^ Z.of_nat k)) /\
  ((forall k : nat, 2 <> 2 ^ Z.of_nat k) ->
   exists msg, dory.GeneratePublicParams (C := Model.toy) 2 = Some (Panic msg)).
Proof. apply (GeneratePublicParams_only_powers (C := Model.toy) 2). reflexivity. Defined.

Lemma GeneratePublicParams_links_witness :
  exists chain,
    dory.GeneratePublicParams (C := Model.toy) (2 ^ Z.of_nat 1) = Some (Ok chain) /\
    length chain = 2%nat /\
    (forall i pp pp', chain !! i = Some pp -> chain !! S i = Some pp' ->
       dory.Γ1 pp' = dory.Γ1Prime (dory.pp_ReducePP pp) /\
       dory.Γ2 pp' = dory.Γ2Prime (dory.pp_ReducePP pp)) /\
    (forall i pp, chain !! i = Some pp ->
       InnerProd (dory.Γ1 pp) (dory.Γ2 pp) = Ok (dory.χ pp)) /\
    (forall pp, chain !! 1%nat = Some pp ->
       length (dory.Γ1 pp) = 1%nat /\
       dory.pp_ReducePP pp = dory.mkReducePP [] [] None None None None).
Proof. apply (GeneratePublicParams_links (C := Model.toy) 1). lia. Defined.

Lemma verifyReduce_ignores_extra_witness :
  dory.verifyReduce [Instances.one_level; Instances.one_level] Instances.commitment
    ([Instances.step1] ++ [Instances.step1]) ([Instances.step2] ++ [Instances.step2])
    (dory.mkScalarProductProofElements (Some Instances.one_level) [GenG1] [GenG2]) 3
  = dory.verifyReduce [Instances.one_level; Instances.one_level] Instances.commitment
      [Instances.step1] [Instances.step2]
      (dory.mkScalarProductProofElements (Some Instances.one_level) [GenG1] [GenG2]) 3.
Proof. apply verifyReduce_ignores_extra; simpl; lia. Defined.

Lemma VerifyReduce_returns_iff_witness :
  exists chain,
    dory.GeneratePublicParams (C := Model.toy) 2 = Some (Ok chain) /\
    (exists err, dory.VerifyReduce chain Instances.commitment Scenario.shaped_proof 3 = Ok err) /\
    dory.VerifyReduce chain Instances.commitment
      (dory.mkProof [] [] (dory.ScalarProductProofElements_ Scenario.shaped_proof) []) 3
    = Panic "index out of range".
Proof.
  destruct (GeneratePublicParams_wf (C := Model.toy) 1 ltac:(lia)) as (chain & Hg & Hc).
  change (Z.of_nat (2 ^ 1)) with 2 in Hg.
  exists chain. split; [exact Hg | ]. split.
  - apply (VerifyReduce_returns_iff (L := ModelLaws.toy_laws) 1 chain Instances.commitment
             Scenario.shaped_proof 3 Hc); [reflexivity | ].
    split; simpl; lia.
  - apply (VerifyReduce_returns_iff (L := ModelLaws.toy_laws) 1 chain Instances.commitment
             (dory.mkProof [] [] (dory.ScalarProductProofElements_ Scenario.shaped_proof) [])
             3 Hc); [reflexivity | ].
    left. simpl. lia.
Defined.

Lemma ScalarProductProof_complete_witness :
  exists pp cmt w,
    dory.NewPublicParams (C := Model.toy) 1 = Ok pp /\
    dory.Commit [G1Mul GenG1 5] [G2Mul GenG2 7] pp = Ok (cmt, w) /\
    dory.ScalarProductProofElements_Verify (dory.ScalarProductProof pp w) cmt 3 = Ok None.
Proof.
  apply (ScalarProductProof_complete (L := ModelLaws.toy_laws)).
  - reflexivity.
  - reflexivity.
  - vm_compute. reflexivity.
Defined.

Lemma same_signer_rejected_witness :
  exists chain ppp σ1 σ2,
    let pp := threshold.mkPublicParams ppp chain in
    threshold.Sign (C := Model.toy) 22 pp Scenario.msg Scenario.prefix Scenario.ring2 5 6
      Scenario.rand_c 8 9 = Ok σ1 /\
    threshold.Sign 22 pp Scenario.other_msg Scenario.prefix Scenario.ring2 5 6
      Scenario.rand_c 8 9 = Ok σ2 /\
    threshold.TagValue σ1 = threshold.TagValue σ2 /\
    threshold.VerifyThresholdSignatures pp Scenario.msg Scenario.prefix [σ1; σ2]
      (fun _ => (3, 4)) (fun _ => [0; 1; 2]%nat) [0; 1]%nat
    = Ok (Some "signature set was signed by 1 out of 2 distinct signers"%string).
Proof.
  destruct signature_accepted as (chain & ppp & σ1 & t & Hf). cbv zeta in Hf.
  destruct Hf as (_ & _ & Hs1 & _ & _ & σ2 & Hs2).
  exists chain, ppp, σ1, σ2. cbv zeta. split; [exact Hs1 | ]. split; [exact Hs2 | ].
  apply (same_signer_rejected 22 Scenario.prefix _ _ _ _ _ _ _ _ _ _ _ _ _ _ _ _ σ1 σ2
           _ _ _ _ _ _ Hs1 Hs2).
Defined.

Lemma Sign_not_member_witness :
  threshold.Sign (C := Model.toy) 33
    (threshold.mkPublicParams (threshold.mkPreProcessedParams [] GtOne GtOne GenG2 [])
                              [Instances.one_level])
    Scenario.msg Scenario.prefix Scenario.ring2 5 6 Scenario.rand_c 8 9
  = Panic "PK not found within ring".
Proof.
  apply Sign_not_member.
  - simpl. lia.
  - simpl. lia.
  - intros [E | [E | []]]; apply (f_equal Model.fq_val) in E; vm_compute in E; discriminate E.
Defined.

Lemma Verify_accepts_inv_witness :
  exists chain ppp σ h,
    let pp := threshold.mkPublicParams ppp chain in
    threshold.Sign (C := Model.toy) 22 pp Scenario.msg Scenario.prefix Scenario.ring2 5 6
      Scenario.rand_c 8 9 = Ok σ /\
    verify_hash σ pp = Ok h /\
    dory.VerifyReduce chain (first_commitment σ pp) (threshold.DoryProof1 σ) 3 = Ok None /\
    dory.VerifyReduce chain (second_commitment σ pp h) (threshold.DoryProof2 σ) 4 = Ok None.
Proof.
  destruct signature_accepted as (chain & ppp & σ & t & Hf). cbv zeta in Hf.
  destruct Hf as (_ & _ & Hs & _ & Hv & _).
  destruct (Verify_accepts_inv σ (threshold.mkPublicParams ppp chain) Scenario.msg
              Scenario.prefix 3 4 [0; 1; 2]%nat)
    as (h & dg1 & dg2 & πt & t' & Hh & H1 & H2 & _).
  - left. reflexivity.
  - right. left. reflexivity.
  - right. right. left. reflexivity.
  - apply Hv.
  - exists chain, ppp, σ, h. cbv zeta. split; [exact Hs | ]. split; [exact Hh | ].
    split; [exact H1 | exact H2].
Defined.

Lemma VerifyThresholdSignatures_single_witness :
  exists chain ppp σ,
    let pp := threshold.mkPublicParams ppp chain in
    threshold.Sign (C := Model.toy) 22 pp Scenario.msg Scenario.prefix Scenario.ring2 5 6
      Scenario.rand_c 8 9 = Ok σ /\
    threshold.VerifyThresholdSignatures pp Scenario.msg Scenario.prefix [σ]
      (fun _ => (3, 4)) (fun _ => [0; 1; 2]%nat) [0]%nat = Ok None.
Proof.
  destruct signature_accepted as (chain & ppp & σ & t & Hf). cbv zeta in Hf.
  destruct Hf as (_ & _ & Hs & Ht & Hv & _).
  exists chain, ppp, σ. cbv zeta. split; [exact Hs | ].
  apply VerifyThresholdSignatures_single.
  - exists t. exact Ht.
  - apply Hv.
Defined.

Lemma VerifyThresholdSignatures_accepts_inv_witness :
  exists chain ppp σ encs,
    let pp := threshold.mkPublicParams ppp chain in
    threshold.Sign (C := Model.toy) 22 pp Scenario.msg Scenario.prefix Scenario.ring2 5 6
      Scenario.rand_c 8 9 = Ok σ /\
    tag_encodings [σ] = Some encs /\ NoDup encs /\
    threshold.Verify σ pp Scenario.msg Scenario.prefix 3 4 [0; 1; 2]%nat = Ok None.
Proof.
  destruct signature_accepted as (chain & ppp & σ & t & Hf). cbv zeta in Hf.
  destruct Hf as (_ & _ & Hs & Ht & Hv & _).
  destruct (VerifyThresholdSignatures_accepts_inv (threshold.mkPublicParams ppp chain)
              Scenario.msg Scenario.prefix [σ] (fun _ => (3, 4)) (fun _ => [0; 1; 2]%nat)
              [0]%nat) as ((encs & Henc & Hnd) & Hall).
  - intros i Hi. simpl in Hi. left. lia.
  - apply VerifyThresholdSignatures_one; [exists t; exact Ht | apply Hv].
  - exists chain, ppp, σ, encs. cbv zeta. split; [exact Hs | ]. split; [exact Henc | ].
    split; [exact Hnd | ]. apply (Hall 0%nat σ). reflexivity.
Defined.

Lemma InnerProd_pairing_product_witness :
  exists g,
    InnerProd (C := Model.toy) [GenG1; G1Mul GenG1 2; G1Mul GenG1 3]
                               [GenG2; G2Mul GenG2 5; G2Mul GenG2 7] = Ok g /\
    g = foldr (fun xy acc => GtMul (e (fst xy) (snd xy)) acc) GtOne
              (zip [GenG1; G1Mul GenG1 2; G1Mul GenG1 3] [GenG2; G2Mul GenG2 5; G2Mul GenG2 7]).
Proof.
  destruct (InnerProd_is_Ok (C := Model.toy) [GenG1; G1Mul GenG1 2; G1Mul GenG1 3]
              [GenG2; G2Mul GenG2 5; G2Mul GenG2 7]) as (g & Hg);
    [reflexivity | simpl; lia | ].
  exists g. split; [exact Hg | ].
  apply (InnerProd_pairing_product (L := ModelLaws.toy_laws) _ _ g Hg).
Defined.

Lemma InnerProd_linear_witness :
  exists u u' s,
    InnerProd (C := Model.toy) [GenG1; G1Mul GenG1 2] [GenG2; G2Mul GenG2 5] = Ok u /\
    InnerProd [G1Mul GenG1 3; G1Mul GenG1 4] [GenG2; G2Mul GenG2 5] = Ok u' /\
    G1v_Add [GenG1; G1Mul GenG1 2] [G1Mul GenG1 3; G1Mul GenG1 4] = Ok s /\
    InnerProd s [GenG2; G2Mul GenG2 5] = Ok (GtMul u u') /\
    InnerProd (G1v_Mul [GenG1; G1Mul GenG1 2] 5) [GenG2; G2Mul GenG2 5] = Ok (GtExp u 5).
Proof.
  destruct (InnerProd_is_Ok (C := Model.toy) [GenG1; G1Mul GenG1 2] [GenG2; G2Mul GenG2 5])
    as (u & Hu); [reflexivity | simpl; lia | ].
  destruct (InnerProd_is_Ok (C := Model.toy) [G1Mul GenG1 3; G1Mul GenG1 4]
              [GenG2; G2Mul GenG2 5]) as (u' & Hu'); [reflexivity | simpl; lia | ].
  exists u, u', (zip_with G1Add [GenG1; G1Mul GenG1 2] [G1Mul GenG1 3; G1Mul GenG1 4]).
  split; [exact Hu | ]. split; [exact Hu' | ]. split; [reflexivity | ].
  apply (InnerProd_linear (L := ModelLaws.toy_laws) _ _ _ _ u u' 5 Hu Hu'). reflexivity.
Defined.

Lemma G2v_Sum_pairing_witness :
  exists s copies,
    G2v_Sum (C := Model.toy) [GenG2; G2Mul GenG2 2] = Ok s /\
    G1v_Duplicate [GenG1] (Z.of_nat (length [GenG2; G2Mul GenG2 2])) = Ok copies /\
    InnerProd copies [GenG2; G2Mul GenG2 2] = Ok (e GenG1 s).
Proof. apply (G2v_Sum_pairing (L := ModelLaws.toy_laws)). simpl. lia. Defined.

Lemma ComputePreProcessedParams_values_witness :
  exists chain pp0 ppp,
    dory.GeneratePublicParams (C := Model.toy) (2 ^ Z.of_nat 1) = Some (Ok chain) /\
    head chain = Some pp0 /\
    threshold.ComputePreProcessedParams chain Scenario.ring2 = Ok ppp /\
    InnerProd Scenario.ring2 (dory.Γ2 pp0) = Ok (GtExp (threshold.A0Inverse ppp) (-1)) /\
    threshold.H1 ppp = replicate (length (Scenario.ring2 (C := Model.toy))) H /\
    InnerProd (threshold.H1 ppp) (dory.Γ2 pp0) = Ok (threshold.ppp_D ppp) /\
    G2v_Sum (dory.Γ2 pp0) = Ok (threshold.ppp_Γ2 ppp) /\
    length (threshold.ppp_digest ppp) = 32%nat.
Proof.
  apply (ComputePreProcessedParams_values (L := ModelLaws.toy_laws) 1 Scenario.ring2).
  - lia.
  - reflexivity.
Defined.

Lemma ComputePreProcessedParams_mismatch_witness :
  threshold.ComputePreProcessedParams [Instances.one_level] Scenario.ring2
  = Panic "length mismatch".
Proof. apply ComputePreProcessedParams_mismatch. simpl. lia. Defined.

Lemma Sign_single_member_witness :
  threshold.Sign (C := Model.toy) 22
    (threshold.mkPublicParams (threshold.mkPreProcessedParams [] GtOne GtOne GenG2 [])
                              [Instances.one_level])
    Scenario.msg Scenario.prefix [G1Mul GenG1 22] 5 6 Scenario.rand_c 8 9
  = Panic "index out of range".
Proof. apply (Sign_single_member (L := ModelLaws.toy_laws)). simpl. lia. Defined.

(** ** Threshold verification of a signature without a tag *)

Section NilTag.
Context {C : Curve}.
Import threshold.

(** The first loop reads [σ.TagValue.Bytes()] before anything else. *)
Lemma VerifyThresholdSignatures_nil_tag (pp : PublicParams) (msg prefix : bytes)
    (σ : RingSignature) (rest : list RingSignature)
    (rand_d : nat -> Zr * Zr) (scheds : nat -> list nat) (sched : list nat) :
  TagValue σ = None ->
  VerifyThresholdSignatures pp msg prefix (σ :: rest) rand_d scheds sched
  = Panic "nil pointer dereference".
Proof.
  intros Ht. unfold VerifyThresholdSignatures. cbn [collect_tags]. rewrite Ht. reflexivity.
Qed.

End NilTag.

(** *** C4 at a signature without a tag

    [RingProof], and so [PreProcessRingProof], returns a signature whose
    [TagValue] is nil: given twice to [VerifyThresholdSignatures], it makes
    the first loop dereference nil, and no error is returned. *)
Lemma C4_counterexample :
  exists chain ppp σ,
    dory.GeneratePublicParams (C := Model.toy) 2 = Some (Ok chain) /\
    threshold.ComputePreProcessedParams chain Scenario.ring2 = Ok ppp /\
    threshold.RingProof 22 (threshold.mkPublicParams ppp chain) Scenario.ring2 5
      (snd (tag.Commit 22 5)) 6 Scenario.rand_c = Ok σ /\
    threshold.VerifyThresholdSignatures (threshold.mkPublicParams ppp chain) Scenario.msg
      Scenario.prefix [σ; σ] (fun _ => (3, 4)) (fun _ => [0; 1; 2]%nat) [0; 1]%nat
    = Panic "nil pointer dereference".
Proof.
  destruct (GeneratePublicParams_wf (C := Model.toy) 1 ltac:(lia)) as (chain & Hg & Hc).
  change (Z.of_nat (2 ^ 1)) with 2 in Hg.
  destruct chain as [ | pp0 rest] eqn:Echain; [destruct Hc | ]. rewrite <- Echain in *.
  assert (Hh : head chain = Some pp0) by (rewrite Echain; reflexivity).
  destruct (ComputePreProcessedParams_Ok (L := ModelLaws.toy_laws) 1 chain pp0 Scenario.ring2
              Hc Hh eq_refl) as (dg & g & gs & Eg2 & Hppp).
  destruct (RingProof_complete (L := ModelLaws.toy_laws) 0 chain pp0 Scenario.ring2 22 5 6
              Scenario.rand_c dg g gs Hc Hh eq_refl (or_intror (or_introl eq_refl)) Eg2)
    as (π1 & π2 & B & z & Y & h & dg1 & dg2 & HRP & _).
  eexists chain, _, _. split; [exact Hg | ]. split; [exact Hppp | ]. split; [exact HRP | ].
  apply VerifyThresholdSignatures_nil_tag. reflexivity.
Qed.

Lemma C4_threshold_duplicates_witness :
  exists chain ppp σ,
    dory.GeneratePublicParams (C := Model.toy) 2 = Some (Ok chain) /\
    threshold.ComputePreProcessedParams chain Scenario.ring2 = Ok ppp /\
    threshold.Sign 22 (threshold.mkPublicParams ppp chain) Scenario.msg Scenario.prefix
      Scenario.ring2 5 6 Scenario.rand_c 8 9 = Ok σ /\
    threshold.VerifyThresholdSignatures (threshold.mkPublicParams ppp chain) Scenario.msg
      Scenario.prefix [σ; σ] (fun _ => (3, 4)) (fun _ => [0; 1; 2]%nat) [0; 1]%nat
    = Ok (Some "signature set was signed by 1 out of 2 distinct signers"%string).
Proof.
  destruct signature_facts as (chain & ppp & σ & h & dg1 & dg2 & πt & t & Hf).
  cbv zeta in Hf. destruct Hf as (Hg & Hp & Hs & _ & _ & _ & _ & _ & _ & Ht & _).
  exists chain, ppp, σ. split; [exact Hg | ]. split; [exact Hp | ]. split; [exact Hs | ].
  apply (proj2 (C4_threshold_duplicates (threshold.mkPublicParams ppp chain) Scenario.msg
                  Scenario.prefix (fun _ => (3, 4)) (fun _ => [0; 1; 2]%nat) [0; 1]%nat) σ).
  exists t. exact Ht.
Defined.
